(** * Harvester App: aggregation, pricing and legacy price import

    A shallow embedding of the calculation core of the harvester pricing
    application ([src/App.tsx], and the later revision of the same component
    that adds an append mode for uploads and a success flag for the
    bulk import).

    Numbers.  A TypeScript [number] that the code only ever fills with a
    finite value (everything that comes out of [parseNumber], the settings,
    the divisor table after [ensureDivisorArray]) is an exact rational [Q];
    rounding of binary64 arithmetic is not modelled.  A diameter is tested
    with [Number.isFinite] by the code, so it is a [number] with the three
    non-finite values written out.  Counts and indices are [nat], diameter
    class thresholds are [Z].

    Text.  A string is a [string] whose characters are code units in the
    Latin-1 range.

    Left abstract: [Math.sqrt] (a parameter of the calculation); the
    browser's XML parser, which turns the text of an uploaded file into a
    document (the extractor is modelled from the document on, and
    [processFiles] takes the parse of a file as a parameter); [JSON.parse]
    (a parameter of [loadSpeciesDivisors]); and the moment at which React
    runs an updater function given to a state setter (a parameter of
    [applyBulkPricing], the one function that depends on it). *)

From Stdlib Require Import QArith Qminmax Qabs Lqa Lia ZArith List Sorted Ascii String
  DecimalString.
From stdpp Require Import gmap list strings.

Local Open Scope Z_scope.

(** ** Numbers *)

Inductive number : Type :=
| Finite (q : Q)
| PosInfinity
| NegInfinity
| NaN.

Definition isFinite (x : number) : bool :=
  match x with Finite _ => true | _ => false end.

(** [x <= y] on numbers: false as soon as one side is [NaN]. *)
Definition number_leb (x y : number) : bool :=
  match x, y with
  | NaN, _ | _, NaN => false
  | Finite a, Finite b => Qle_bool a b
  | NegInfinity, _ => true
  | _, PosInfinity => true
  | _, _ => false
  end.

Definition ofZ (z : Z) : number := Finite (inject_Z z).

(** ** Species *)

Inductive SpeciesCategory : Type := Tall | Gran | Lov.

#[global] Instance SpeciesCategory_eq_dec : EqDecision SpeciesCategory.
Proof. solve_decision. Defined.

Definition SUPPORTED_SPECIES : list SpeciesCategory := [Tall; Gran; Lov].

(** A JavaScript object with one property per species. *)
Record BySpecies (X : Type) : Type := mkBySpecies {
  ofTall : X;
  ofGran : X;
  ofLov : X
}.
Arguments mkBySpecies {X} _ _ _.
Arguments ofTall {X} _.
Arguments ofGran {X} _.
Arguments ofLov {X} _.

Definition getSpecies {X} (r : BySpecies X) (sp : SpeciesCategory) : X :=
  match sp with Tall => ofTall r | Gran => ofGran r | Lov => ofLov r end.

Definition setSpecies {X} (r : BySpecies X) (sp : SpeciesCategory) (x : X) : BySpecies X :=
  match sp with
  | Tall => mkBySpecies x (ofGran r) (ofLov r)
  | Gran => mkBySpecies (ofTall r) x (ofLov r)
  | Lov => mkBySpecies (ofTall r) (ofGran r) x
  end.

(** ** Diameter classes *)

Definition DBH_CLASSES : list Z :=
  [80; 100; 120; 140; 160; 180; 200; 220; 240; 260; 280; 300; 320; 340; 360;
   380; 400; 420; 440; 460; 480; 500; 520; 540; 560; 580].

(** [resolveDbhClass]: the guard, the scan for the first threshold that the
    diameter does not exceed, and the last threshold otherwise. *)
Definition resolveDbhClass (dbh : option number) : option Z :=
  match dbh with
  | None => None
  | Some d =>
      if negb (isFinite d) || number_leb d (ofZ 0) then None
      else match List.find (fun threshold => number_leb d (ofZ threshold)) DBH_CLASSES with
           | Some threshold => Some threshold
           | None => last DBH_CLASSES
           end
  end.

(** ** Comparisons on rationals, as booleans *)

Definition Qltb (a b : Q) : bool :=
  match (a ?= b)%Q with Lt => true | _ => false end.

(** ** Strings *)

Definition code (c : ascii) : N := N_of_ascii c.

(** The code units below 256 that JavaScript counts as white space or line
    terminator ([trim], [\s]): tab, LF, VT, FF, CR, space, no-break space. *)
Definition isWhiteSpace (c : ascii) : bool :=
  bool_decide (code c ∈ [9; 10; 11; 12; 13; 32; 160]%N).

Definition isDigit (c : ascii) : bool :=
  (48 <=? code c)%N && (code c <=? 57)%N.

Fixpoint trimStart (s : string) : string :=
  match s with
  | String c r => if isWhiteSpace c then trimStart r else s
  | EmptyString => EmptyString
  end.

Definition reverse (s : string) : string :=
  string_of_list_ascii (List.rev (list_ascii_of_string s)).

Definition trim (s : string) : string :=
  reverse (trimStart (reverse (trimStart s))).

(** [s.replace(/\s+/g, '')] *)
Fixpoint removeWhitespace (s : string) : string :=
  match s with
  | String c r => if isWhiteSpace c then removeWhitespace r else String c (removeWhitespace r)
  | EmptyString => EmptyString
  end.

(** [s.replace(',', '.')]: the first comma only. *)
Fixpoint replaceFirstComma (s : string) : string :=
  match s with
  | String c r => if Ascii.eqb c "," then String "." r else String c (replaceFirstComma r)
  | EmptyString => EmptyString
  end.

(** The longest run of decimal digits at the head of [s], and what follows. *)
Fixpoint takeDigits (s : string) : string * string :=
  match s with
  | String c r =>
      if isDigit c then let '(ds, rest) := takeDigits r in (String c ds, rest)
      else (EmptyString, s)
  | EmptyString => (EmptyString, EmptyString)
  end.

Definition digitValue (c : ascii) : Z := Z.of_N (code c) - 48.

Fixpoint digitsValue (acc : Z) (ds : string) : Z :=
  match ds with
  | String c r => digitsValue (10 * acc + digitValue c) r
  | EmptyString => acc
  end.

(** The value of [ip.fp] for two digit strings. *)
Definition decimalValue (ip fp : string) : Q :=
  (inject_Z (digitsValue 0 ip)
   + inject_Z (digitsValue 0 fp) / inject_Z (10 ^ Z.of_nat (String.length fp)))%Q.

(** An optional exponent part [e]/[E], sign, digits, to the end of the string. *)
Definition exponentOf (s : string) : option Z :=
  match s with
  | EmptyString => Some 0
  | String c r =>
      if Ascii.eqb c "e" || Ascii.eqb c "E" then
        let '(neg, body) :=
          match r with
          | String "-" b => (true, b)
          | String "+" b => (false, b)
          | _ => (false, r)
          end in
        match takeDigits body with
        | (EmptyString, _) => None
        | (ds, EmptyString) => Some (if neg then - digitsValue 0 ds else digitsValue 0 ds)
        | _ => None
        end
      else None
  end.

(** [Number(s)] for [s] without white space, on decimal literals: the empty
    string is 0; a sign, digits with an optional fraction (or a fraction
    alone) and an optional exponent give their value; everything else is
    [None], which stands for a result that is [NaN] or not finite.  Literals
    in another base ([0x..], [0o..], [0b..]) are not modelled: nothing the
    importer parses has that shape. *)
Definition jsNumber (s : string) : option Q :=
  match s with
  | EmptyString => Some 0%Q
  | _ =>
      let '(neg, body) :=
        match s with
        | String "-" b => (true, b)
        | String "+" b => (false, b)
        | _ => (false, s)
        end in
      let '(ip, r1) := takeDigits body in
      let '(fp, r2) :=
        match r1 with
        | String "." r => takeDigits r
        | _ => (EmptyString, r1)
        end in
      match ip, fp with
      | EmptyString, EmptyString => None
      | _, _ =>
          match exponentOf r2 with
          | Some e =>
              let v := (decimalValue ip fp * Qpower 10 e)%Q in
              Some (if neg then (- v)%Q else v)
          | None => None
          end
      end
  end.

(** [parseNumber]: absent text and text that does not parse to a finite
    number are 0. *)
Definition parseNumber (value : option string) : Q :=
  match value with
  | None => 0%Q
  | Some v =>
      let normalized := replaceFirstComma (removeWhitespace (trim v)) in
      match jsNumber normalized with
      | Some parsed => parsed
      | None => 0%Q
      end
  end.

(** ** Species Classifier *)

(** [normalize('NFD')] followed by the removal of [\p{Diacritic}], on one
    code unit of the Latin-1 range: an accented letter gives its base letter
    (its combining mark is a diacritic and goes), the spacing diacritics
    (circumflex, grave, diaeresis, macron, acute, middle dot, cedilla) go,
    every other code unit stays. *)
Definition stripDiacritics (c : ascii) : string :=
  let n := code c in
  let base (b : N) := String (ascii_of_N b) EmptyString in
  if bool_decide (n ∈ [94; 96; 168; 175; 180; 183; 184]%N) then EmptyString
  else if (192 <=? n)%N && (n <=? 197)%N then base 65%N
  else if (n =? 199)%N then base 67%N
  else if (200 <=? n)%N && (n <=? 203)%N then base 69%N
  else if (204 <=? n)%N && (n <=? 207)%N then base 73%N
  else if (n =? 209)%N then base 78%N
  else if (210 <=? n)%N && (n <=? 214)%N then base 79%N
  else if (217 <=? n)%N && (n <=? 220)%N then base 85%N
  else if (n =? 221)%N then base 89%N
  else if (224 <=? n)%N && (n <=? 229)%N then base 97%N
  else if (n =? 231)%N then base 99%N
  else if (232 <=? n)%N && (n <=? 235)%N then base 101%N
  else if (236 <=? n)%N && (n <=? 239)%N then base 105%N
  else if (n =? 241)%N then base 110%N
  else if (242 <=? n)%N && (n <=? 246)%N then base 111%N
  else if (249 <=? n)%N && (n <=? 252)%N then base 117%N
  else if (n =? 253)%N || (n =? 255)%N then base 121%N
  else String c EmptyString.

(** [toUpperCase] on one code unit: the letters a-z and the Latin-1 letters
    that have their capital in the range; sharp s becomes SS.  The micro
    sign, whose capital lies outside the range, is left as it is. *)
Definition upperCase (c : ascii) : string :=
  let n := code c in
  if (97 <=? n)%N && (n <=? 122)%N then String (ascii_of_N (n - 32)) EmptyString
  else if (n =? 223)%N then "SS"%string
  else if (224 <=? n)%N && (n <=? 254)%N && negb (n =? 247)%N
       then String (ascii_of_N (n - 32)) EmptyString
  else String c EmptyString.

Fixpoint flatMapString (f : ascii -> string) (s : string) : string :=
  match s with
  | String c r => (f c ++ flatMapString f r)%string
  | EmptyString => EmptyString
  end.

Definition normalizeSpeciesIdentifier (value : string) : string :=
  flatMapString upperCase (flatMapString stripDiacritics value).

(** [hay] contains [needle]. *)
Fixpoint includes (needle hay : string) : bool :=
  String.prefix needle hay
  || match hay with
     | String _ r => includes needle r
     | EmptyString => false
     end.

(** [/A|B|.../.test(s)] for literal alternatives. *)
Definition testAny (alternatives : list string) (s : string) : bool :=
  existsb (fun w => includes w s) alternatives.

Definition mapSpeciesNameToCategory (rawName : option string) : SpeciesCategory :=
  match rawName with
  | None | Some EmptyString => Lov
  | Some name =>
      let normalized := normalizeSpeciesIdentifier name in
      if testAny ["TALL"; "PINE"; "LARK"]%string normalized then Tall
      else if testAny ["GRAN"; "SPRUCE"; "BARKBORRE"]%string normalized then Gran
      else if testAny ["LOV"; "BJORK"; "ASP"; "BOK"; "EK"; "OVR"]%string normalized then Lov
      else Lov
  end.

(** ** Data model *)

(** The declared [end_time] of a stem is never written nor read and is left
    out. *)
Record Stem : Type := mkStem {
  stem_key : string;
  harvest_date : string;
  stem_volume : Q;
  dbh : option number;
  speciesGroupKey : option string;
  speciesName : option string;
  speciesCategory : SpeciesCategory
}.

Record CalculationParams : Type := mkParams {
  maxPerTreeTime : Q;
  harvestingCostRate : Q;
  forwardingSK : Q;
  skiddingDistanceSA : Q;
  standRemovalUT : Q;
  k1 : Q;
  k2 : Q;
  c11 : Q
}.

Record LegacyPriceEntry : Type := mkEntry {
  averageVolume : Q;
  price : Q
}.

(** The divisor table: per species, one divisor or [null] per class index.
    Every table the component holds has passed through [ensureDivisorArray]
    or [updateDivisor], which keep only finite, strictly positive numbers;
    a divisor is therefore a rational. *)
Definition SpeciesDivisors : Type := BySpecies (list (option Q)).

Definition LEGACY_AVERAGE_VOLUMES : list Q :=
  [0.2; 0.25; 0.3; 0.35; 0.4; 0.45; 0.5; 0.55; 0.6; 0.65; 0.7; 0.75; 0.8; 0.9; 1]%Q.

(** The initial legacy price table: every breakpoint, price 0. *)
Definition initialLegacyPrices : list LegacyPriceEntry :=
  List.map (fun averageVolume => mkEntry averageVolume 0) LEGACY_AVERAGE_VOLUMES.

(** The value kept per (species, class) by the aggregator. *)
Module Bin.
Record t : Type := mk {
  stems : list Stem;
  totalTime : Q;
  totalVolume : Q
}.
End Bin.

Module ResultRow.
Record t : Type := mk {
  species : SpeciesCategory;
  dbhClass : Z;
  stems : nat;
  totalTime : Q;
  totalVolume : Q;
  productivity : Q;
  harvestingCost : Q;
  forwardingCostPerCubicMeter : Q;
  pricePerCubicMeter : Q;
  totalCost : Q;
  totalPrice : Q
}.
End ResultRow.

Module NewTotals.
Record t : Type := mk {
  totalStems : nat;
  totalVolume : Q;
  averagePrice : Q;
  totalPrice : Q;
  forwardingCostPerCubicMeter : Q;
  totalForwardingCost : Q;
  combinedTotal : Q
}.
End NewTotals.

Module LegacyTotals.
Record t : Type := mk {
  totalStems : nat;
  totalVolume : Q;
  averageVolume : Q;
  averagePrice : Q;
  totalPrice : Q
}.
End LegacyTotals.

(** [ensureDivisorArray]: one entry per class; the input's entry at the
    index is kept when it is a finite, strictly positive number; [null],
    any other value, an index past the end or an input that is no array
    give [null]. *)
Definition ensureDivisorArray (input : option (list (option number))) : list (option Q) :=
  List.map (fun index =>
              match input ≫= (fun array => array !! index) with
              | Some (Some (Finite candidate)) =>
                  if Qltb 0 candidate then Some candidate else None
              | _ => None
              end)
           (seq 0 (length DBH_CLASSES)).

(** ** Aggregator *)

Abbreviation Aggregated := (BySpecies (gmap Z Bin.t)).

Definition emptyAggregated : Aggregated := mkBySpecies ∅ ∅ ∅.

Definition emptyBin : Bin.t := Bin.mk [] 0 0.

(** One turn of the loop over the stems. *)
Definition addStem (perStemTime : Q) (aggregated : Aggregated) (stem : Stem) : Aggregated :=
  match resolveDbhClass (dbh stem) with
  | None => aggregated
  | Some dbhClass =>
      if dbhClass =? 0 then aggregated
      else
        let species := speciesCategory stem in
        let speciesMap := getSpecies aggregated species in
        let current := default emptyBin (speciesMap !! dbhClass) in
        let current' :=
          Bin.mk (Bin.stems current ++ [stem])
                 (Bin.totalTime current + perStemTime)%Q
                 (Bin.totalVolume current + stem_volume stem)%Q in
        setSpecies aggregated species (<[dbhClass := current']> speciesMap)
  end.

Definition aggregateBySpeciesAndDbh (params : CalculationParams) (stems : list Stem)
  : option Aggregated :=
  match stems with
  | [] => None
  | _ =>
      let perStemTime := Qmin (maxPerTreeTime params) 30 in
      Some (fold_left (addStem perStemTime) stems emptyAggregated)
  end.

(** ** Legacy nearest-volume lookup *)

(** The scan from the second entry on: the entry kept so far and its
    distance. *)
Definition nearerEntry (volume : Q) (acc : LegacyPriceEntry * Q) (entry : LegacyPriceEntry)
  : LegacyPriceEntry * Q :=
  let diff := Qabs (averageVolume entry - volume) in
  if Qltb diff (snd acc) then (entry, diff) else acc.

Definition nearestEntry (legacyPrices : list LegacyPriceEntry) (volume : Q)
  : option LegacyPriceEntry :=
  match legacyPrices with
  | [] => None
  | first :: rest =>
      Some (fst (fold_left (nearerEntry volume) rest
                           (first, Qabs (averageVolume first - volume))))
  end.

Definition getLegacyPriceForVolume (legacyPrices : list LegacyPriceEntry) (volume : option Q) : Q :=
  match volume with
  | None => 0
  | Some v =>
      if Qeq_bool v 0 || Qle_bool v 0 then 0
      else match nearestEntry legacyPrices v with
           | Some nearest => price nearest
           | None => 0
           end
  end.

(** ** Sorting *)

(** [Array.prototype.sort] with a comparator that returns a number: a stable
    sort that puts [a] before [b] when the comparator is not positive. *)
Fixpoint insertBy {A} (cmp : A -> A -> Z) (x : A) (l : list A) : list A :=
  match l with
  | [] => [x]
  | y :: l' => if cmp x y <=? 0 then x :: y :: l' else y :: insertBy cmp x l'
  end.

Definition sortBy {A} (cmp : A -> A -> Z) (l : list A) : list A :=
  foldr (insertBy cmp) [] l.

(** [indexOf]: the position of the first occurrence, [None] for -1. *)
Fixpoint indexOf {A} `{EqDecision A} (l : list A) (x : A) : option nat :=
  match l with
  | [] => None
  | y :: l' => if decide (y = x) then Some O else S <$> indexOf l' x
  end.

(** [indexOf] as the number the comparator of the final sort subtracts. *)
Definition indexOfZ {A} `{EqDecision A} (l : list A) (x : A) : Z :=
  match indexOf l x with
  | Some i => Z.of_nat i
  | None => -1
  end.

(** ** Pricing Engine *)

Definition ofNat (n : nat) : Q := inject_Z (Z.of_nat n).

Module CalculationOutput.
(** What one run of [calculateResults] passes to [setResults],
    [setNewTotals] and [setOldModelSummary]. *)
Record t : Type := mk {
  results : list ResultRow.t;
  newTotals : NewTotals.t;
  oldModelSummary : LegacyTotals.t
}.
End CalculationOutput.

Section Calculation.

Local Open Scope Q_scope.

(** [Math.sqrt], which has no exact counterpart on rationals, is left
    abstract: it only enters the forwarding cost. *)
Variable sqrt : Q -> Q.

Variable params : CalculationParams.
Variable speciesDivisors : SpeciesDivisors.
Variable legacyPrices : list LegacyPriceEntry.

Definition forwardingTimeFactor : Q :=
  let standRemoval := standRemovalUT params in
  if Qltb 0 standRemoval
  then (k1 params * (5.7 + k2 params * standRemoval + c11 params * sqrt standRemoval))
       / standRemoval
  else 0.

Definition forwardingCost : Q :=
  (forwardingTimeFactor / 60) * forwardingSK params
  + (skiddingDistanceSA params / 100) * 4.

(** The divisor of a (species, class) bin: [null] when the class is not in
    the table of classes, the species has no entry at that index, or the
    entry is [null]. *)
Definition divisorFor (species : SpeciesCategory) (dbhClass : Z) : option Q :=
  match indexOf DBH_CLASSES dbhClass with
  | Some classIndex => getSpecies speciesDivisors species !! classIndex ≫= id
  | None => None
  end.

Definition priceFor (divisor : option Q) : Q :=
  match divisor with
  | Some d => if Qltb 0 d then harvestingCostRate params / d else 0
  | None => 0
  end.

(** The row pushed for one bin. *)
Definition rowOf (species : SpeciesCategory) (dbhClass : Z) (data : Bin.t) : ResultRow.t :=
  let totalTime := Bin.totalTime data in
  let totalVolume := Bin.totalVolume data in
  let stemsCount := length (Bin.stems data) in
  let productivity :=
    if Qltb 0 totalTime then totalVolume / (totalTime / 3600) else 0 in
  let harvestingCost :=
    if Qltb 0 totalVolume
    then (totalTime / totalVolume) * (harvestingCostRate params / 3600) else 0 in
  let pricePerCubicMeter := priceFor (divisorFor species dbhClass) in
  let totalPrice := pricePerCubicMeter * totalVolume in
  let totalCost := harvestingCost + forwardingCost - pricePerCubicMeter in
  ResultRow.mk species dbhClass stemsCount totalTime totalVolume productivity
               harvestingCost forwardingCost pricePerCubicMeter totalCost totalPrice.

(** The keys of a species' map, which JavaScript lists in insertion order;
    they are sorted before use. *)
Definition keys (speciesData : gmap Z Bin.t) : list Z :=
  (map_to_list speciesData).*1.

Definition rowsOfSpecies (aggregated : Aggregated) (species : SpeciesCategory)
  : list ResultRow.t :=
  let speciesData := getSpecies aggregated species in
  let sortedDbhs := sortBy (fun a b => (a - b)%Z) (keys speciesData) in
  flat_map (fun dbhClass =>
              match speciesData !! dbhClass with
              | Some data => [rowOf species dbhClass data]
              | None => []
              end) sortedDbhs.

Definition compareRows (a b : ResultRow.t) : Z :=
  if decide (ResultRow.species a = ResultRow.species b)
  then (ResultRow.dbhClass a - ResultRow.dbhClass b)%Z
  else (indexOfZ SUPPORTED_SPECIES (ResultRow.species a)
        - indexOfZ SUPPORTED_SPECIES (ResultRow.species b))%Z.

Definition baseResults (aggregated : Aggregated) : list ResultRow.t :=
  sortBy compareRows (flat_map (rowsOfSpecies aggregated) SUPPORTED_SPECIES).

(** [calculateResults]: [None] when it returns before setting anything (no
    stems), else what it sets. *)
Definition calculateResults (stems : list Stem) : option CalculationOutput.t :=
  match aggregateBySpeciesAndDbh params stems with
  | None => None
  | Some aggregated =>
      let rows := baseResults aggregated in
      let totalStems := fold_left (fun sum row => (sum + ResultRow.stems row)%nat) rows O in
      let totalVolume := fold_left (fun sum row => sum + ResultRow.totalVolume row) rows 0 in
      let totalPrice := fold_left (fun sum row => sum + ResultRow.totalPrice row) rows 0 in
      let averagePrice := if Qltb 0 totalVolume then totalPrice / totalVolume else 0 in
      let averageVolumePerStem :=
        if (0 <? totalStems)%nat then totalVolume / ofNat totalStems else 0 in
      let totalForwardingCost := forwardingCost * totalVolume in
      let combinedTotal := totalPrice + totalForwardingCost in
      let legacyPrice := getLegacyPriceForVolume legacyPrices (Some averageVolumePerStem) in
      Some (CalculationOutput.mk
              rows
              (NewTotals.mk totalStems totalVolume averagePrice totalPrice
                            forwardingCost totalForwardingCost combinedTotal)
              (LegacyTotals.mk totalStems totalVolume averageVolumePerStem
                               legacyPrice (legacyPrice * totalVolume)))
  end.

(** The rows a run produces: none when it returns early. *)
Definition producedRows (stems : list Stem) : list ResultRow.t :=
  match calculateResults stems with
  | Some out => CalculationOutput.results out
  | None => []
  end.

End Calculation.

(** ** Legacy Price Table Importer *)

(** The regular expression [-?\d+(?:[.,]\d+)?] anchored at the head of [s]:
    the text it matches.  The digit runs are taken whole; when no digit
    follows the sign there is no match at this position. *)
Definition matchNumericToken (s : string) : option string :=
  let '(sign, body) :=
    match s with
    | String "-" r => ("-"%string, r)
    | _ => (EmptyString, s)
    end in
  match takeDigits body with
  | (EmptyString, _) => None
  | (ds, rest) =>
      let fraction :=
        match rest with
        | String c r =>
            if Ascii.eqb c "." || Ascii.eqb c ","
            then match takeDigits r with
                 | (EmptyString, _) => EmptyString
                 | (fs, _) => String c fs
                 end
            else EmptyString
        | EmptyString => EmptyString
        end in
      Some (sign ++ ds ++ fraction)%string
  end.

(** All matches from left to right; [skip] counts the characters of the
    last match that are still to be passed over. *)
Fixpoint tokensFrom (skip : nat) (s : string) : list string :=
  match s with
  | EmptyString => []
  | String _ r =>
      match skip with
      | S k => tokensFrom k r
      | O =>
          match matchNumericToken s with
          | Some token => token :: tokensFrom (String.length token - 1) r
          | None => tokensFrom 0 r
          end
      end
  end.

Definition numericTokensForLine (line : string) : list string :=
  tokensFrom 0 line.

(** [text.split(/\r?\n/)] *)
Fixpoint splitLines (s : string) : list string :=
  match s with
  | EmptyString => [EmptyString]
  | String c r =>
      if Ascii.eqb c "010" then EmptyString :: splitLines r
      else
        let keep :=
          match splitLines r with
          | first :: rest => String c first :: rest
          | [] => [String c EmptyString]
          end in
        if Ascii.eqb c "013" then
          match r with
          | String c' r' => if Ascii.eqb c' "010" then EmptyString :: splitLines r' else keep
          | EmptyString => keep
          end
        else keep
  end.

Definition isEmpty (s : string) : bool :=
  match s with EmptyString => true | _ => false end.

Definition tolerance : Q := 1 # 1000000.

(** [LEGACY_AVERAGE_VOLUMES.findIndex(volume => Math.abs(volume - value) < 1e-6)],
    [None] for -1. *)
Fixpoint findIndexFrom {A} (p : A -> bool) (i : nat) (l : list A) : option nat :=
  match l with
  | [] => None
  | x :: l' => if p x then Some i else findIndexFrom p (S i) l'
  end.

Definition volumeIndexOf (value : Q) : option nat :=
  findIndexFrom (fun volume => Qltb (Qabs (volume - value)) tolerance) 0
                LEGACY_AVERAGE_VOLUMES.

(** The first token with a positive value that lies on a breakpoint: its
    breakpoint index and its value. *)
Fixpoint matchVolumeToken (tokens : list string) : option (nat * Q) :=
  match tokens with
  | [] => None
  | token :: rest =>
      let value := parseNumber (Some token) in
      if Qle_bool value 0 then matchVolumeToken rest
      else match volumeIndexOf value with
           | Some volumeIndex => Some (volumeIndex, value)
           | None => matchVolumeToken rest
           end
  end.

Module Pass.

(** What the updater keeps while it walks the lines: the copy of the
    table, the indices filled in this pass, the positional cursor and the
    flag of the later revision (the earlier revision runs the same loop
    without the flag). *)
Record t : Type := mk {
  next : list LegacyPriceEntry;
  assigned : gset nat;
  fallbackIndex : nat;
  updated : bool
}.

Definition start (previous : list LegacyPriceEntry) : t :=
  mk previous ∅ 0 false.

End Pass.

Definition setFallbackIndex (st : Pass.t) (i : nat) : Pass.t :=
  Pass.mk (Pass.next st) (Pass.assigned st) i (Pass.updated st).

(** [attemptAssign]: nothing for an index outside the table or an absent or
    empty token; the price is written only when it parses to a positive
    value. *)
Definition attemptAssign (st : Pass.t) (index : nat) (priceToken : option string) : Pass.t :=
  match Pass.next st !! index, priceToken with
  | None, _ | _, None | _, Some EmptyString => st
  | Some entry, Some _ =>
      let priceValue := parseNumber priceToken in
      if Qltb 0 priceValue
      then Pass.mk (<[index := mkEntry (averageVolume entry) priceValue]> (Pass.next st))
                   ({[index]} ∪ Pass.assigned st)
                   (Pass.fallbackIndex st)
                   true
      else st
  end.

(** The [while] loop that moves the cursor past the indices already filled;
    [fuel] bounds the turns and [length - fallbackIndex] is enough. *)
Fixpoint skipAssigned (fuel : nat) (len : nat) (assigned : gset nat) (fallbackIndex : nat) : nat :=
  match fuel with
  | O => fallbackIndex
  | S fuel' =>
      if (fallbackIndex <? len)%nat && bool_decide (fallbackIndex ∈ assigned)
      then skipAssigned fuel' len assigned (S fallbackIndex)
      else fallbackIndex
  end.

Definition farFrom (matchedVolume : Q) (token : string) : bool :=
  Qltb tolerance (Qabs (parseNumber (Some token) - matchedVolume)).

(** [!matchedVolume] *)
Definition noVolume (matchedVolume : option Q) : bool :=
  match matchedVolume with
  | None => true
  | Some v => Qeq_bool v 0
  end.

(** The end of a line's turn, common to both ways of choosing the index:
    when the index was already filled in this pass, another positive token
    away from the matched volume is preferred; then the assignment is
    attempted. *)
Definition finishLine (st : Pass.t) (tokens : list string) (matchedIndex : nat)
    (matchedVolume : option Q) (priceToken : option string) : Pass.t :=
  let priceToken' :=
    if bool_decide (matchedIndex ∈ Pass.assigned st)
    then match List.find (fun token =>
                            Qltb 0 (parseNumber (Some token))
                            && (noVolume matchedVolume
                                || match matchedVolume with
                                   | Some v => farFrom v token
                                   | None => false
                                   end)) tokens with
         | Some token => Some token
         | None => priceToken
         end
    else priceToken in
  attemptAssign st matchedIndex priceToken'.

(** One turn of the loop over the lines. *)
Definition processLine (st : Pass.t) (rawLine : string) : Pass.t :=
  let line := trim rawLine in
  if isEmpty line then st
  else
    let tokens := numericTokensForLine line in
    match tokens with
    | [] => st
    | _ =>
        match matchVolumeToken tokens with
        | Some (matchedIndex, matchedVolume) =>
            let priceToken :=
              match List.find (farFrom matchedVolume) tokens with
              | Some token => Some token
              | None => last tokens
              end in
            finishLine st tokens matchedIndex (Some matchedVolume) priceToken
        | None =>
            let len := length (Pass.next st) in
            let fallbackIndex :=
              skipAssigned (len - Pass.fallbackIndex st) len (Pass.assigned st)
                           (Pass.fallbackIndex st) in
            if (len <=? fallbackIndex)%nat then setFallbackIndex st fallbackIndex
            else
              finishLine (setFallbackIndex st (S fallbackIndex)) tokens
                         fallbackIndex None (last tokens)
        end
    end.

(** The state updater passed to [setLegacyPrices], run on the lines. *)
Definition importLines (lines : list string) (previous : list LegacyPriceEntry) : Pass.t :=
  fold_left processLine lines (Pass.start previous).

(** The part of the component state the paste panel touches. *)
Module Paste.
Record t : Type := mk {
  legacyPrices : list LegacyPriceEntry;
  bulkPriceText : string;
  showBulkPaste : bool
}.
End Paste.

(** ** Record Extractor *)

(** The document tree the browser's XML parser hands over, as far as the
    extractor reads it: an element has a local name, attributes by name and
    child nodes; text is character data.  Comments and processing
    instructions, which none of the calls below see, are left out.  The
    text of attributes and elements is read with [parseNumber], whose model
    of [Number] covers decimal literals. *)
#[local] Unset Elimination Schemes.
Inductive Node : Type :=
| Element (localName : string) (attributes : list (string * string)) (children : list Node)
| Text (data : string).
#[local] Set Elimination Schemes.

(** A document, by its child nodes. *)
Definition Document : Type := list Node.

Definition childNodes (node : Node) : list Node :=
  match node with
  | Element _ _ children => children
  | Text _ => []
  end.

(** An element followed by the elements below it, in document order. *)
Fixpoint elementsOf (node : Node) : list Node :=
  match node with
  | Element _ _ children => node :: flat_map elementsOf children
  | Text _ => []
  end.

Definition hasLocalName (tag : string) (node : Node) : bool :=
  match node with
  | Element name _ _ => String.eqb name tag
  | Text _ => false
  end.

(** [Array.from(element.getElementsByTagNameNS('*', tag))]: the elements of
    that local name below an element or a document, given by its child
    nodes, in document order. *)
Definition elementsByTag (scope : list Node) (tag : string) : list Node :=
  List.filter (hasLocalName tag) (flat_map elementsOf scope).

Fixpoint textContent (node : Node) : string :=
  match node with
  | Element _ _ children =>
      foldr (fun child rest => (textContent child ++ rest)%string) EmptyString children
  | Text data => data
  end.

(** [element.getAttribute(name)]: [None] for [null]. *)
Definition getAttribute (element : Node) (name : string) : option string :=
  match element with
  | Element _ attributes _ =>
      snd <$> List.find (fun attribute => String.eqb attribute.1 name) attributes
  | Text _ => None
  end.

(** [toLowerCase] on one code unit: A-Z and the capitals of the Latin-1
    range. *)
Definition lowerCase (c : ascii) : ascii :=
  let n := code c in
  if ((65 <=? n) && (n <=? 90) || (192 <=? n) && (n <=? 222) && negb (n =? 215))%N
  then ascii_of_N (n + 32)
  else c.

Definition toLowerCase (s : string) : string :=
  string_of_list_ascii (List.map lowerCase (list_ascii_of_string s)).

(** [s.replace(/\s+/g, ' ')]; [inRun] tells that the run of white space the
    scan is in has already given its space. *)
Fixpoint collapseWhitespace (inRun : bool) (s : string) : string :=
  match s with
  | String c r =>
      if isWhiteSpace c
      then if inRun then collapseWhitespace true r
           else String " " (collapseWhitespace true r)
      else String c (collapseWhitespace false r)
  | EmptyString => EmptyString
  end.

Definition normaliseCategory (value : option string) : string :=
  match value with
  | Some v => collapseWhitespace false (toLowerCase (trim v))
  | None => EmptyString
  end.

Definition preferredCategories : list string :=
  ["m3sub"; "m3 fub"; "m3fub"; "m3 (price)"; "m3ub"; "m3sob"]%string.

Definition volumeAttributes : list string :=
  ["Volume"; "VolumeM3"; "VolumeUnderBark"; "VolumeOverBark"]%string.

Definition hasCategory (category : string) (volumeNode : Node) : bool :=
  String.eqb (normaliseCategory (getAttribute volumeNode "logVolumeCategory")) category.

(** The loop over the preferred categories: of each, only the first node
    that carries it is looked at. *)
Fixpoint preferredVolume (volumeNodes : list Node) (categories : list string) : option Q :=
  match categories with
  | [] => None
  | category :: rest =>
      match List.find (hasCategory category) volumeNodes with
      | Some node =>
          let volume := parseNumber (Some (textContent node)) in
          if Qltb 0 volume then Some volume else preferredVolume volumeNodes rest
      | None => preferredVolume volumeNodes rest
      end
  end.

(** A loop that returns the first strictly positive value it meets. *)
Definition firstPositive (values : list Q) : option Q :=
  List.find (Qltb 0) values.

Definition resolveLogVolume (logEl : Node) : Q :=
  let volumeNodes := elementsByTag (childNodes logEl) "LogVolume" in
  match preferredVolume volumeNodes preferredCategories with
  | Some volume => volume
  | None =>
      match firstPositive
              (List.map (fun node => parseNumber (Some (textContent node))) volumeNodes) with
      | Some volume => volume
      | None =>
          match firstPositive
                  (List.map (fun key => parseNumber (getAttribute logEl key))
                            volumeAttributes) with
          | Some vol => vol
          | None =>
              let dm3Volume :=
                parseNumber (match getAttribute logEl "VolumeDm3" with
                             | Some v => Some v
                             | None => getAttribute logEl "VolumeDM3"
                             end) in
              if Qltb 0 dm3Volume then (dm3Volume / 1000)%Q else 0%Q
          end
      end
  end.

(** [elementsByTag(element, tag)[0]?.textContent?.trim() ?? undefined] *)
Definition getFirstText (scope : list Node) (tag : string) : option string :=
  (fun node => trim (textContent node)) <$> head (elementsByTag scope tag).

(** One turn of the loop over the species definitions: [Map.set] replaces
    the name a key already has. *)
Definition addDefinition (speciesNameByKey : gmap string string) (definition : Node)
  : gmap string string :=
  match getFirstText (childNodes definition) "SpeciesGroupKey",
        getFirstText (childNodes definition) "SpeciesGroupName" with
  | Some key, Some name =>
      if isEmpty key || isEmpty name then speciesNameByKey
      else <[key := name]> speciesNameByKey
  | _, _ => speciesNameByKey
  end.

(** The decimal digits of an index, for the key [stem_<index>]. *)
Definition indexDigits (index : nat) : string :=
  NilEmpty.string_of_uint (Nat.to_uint index).

(** The diameter of a stem: the attribute, else the text of the first DBH
    element below the stem, when strictly positive. *)
Definition stemDbh (stemEl : Node) : option number :=
  let attrValue := parseNumber (getAttribute stemEl "DBH") in
  if Qltb 0 attrValue then Some (Finite attrValue)
  else
    let dbhElement :=
      match head (elementsByTag (childNodes stemEl) "DBH") with
      | Some node => Some node
      | None =>
          head (flat_map (fun node => elementsByTag (childNodes node) "DBH")
                         (elementsByTag (childNodes stemEl) "SingleTreeProcessedStem"))
      end in
    let textValue := parseNumber (textContent <$> dbhElement) in
    if Qltb 0 textValue then Some (Finite textValue) else None.

Definition stemVolumeCandidates (stemEl : Node) : list (option string) :=
  [getAttribute stemEl "StemVolume"; getAttribute stemEl "Volume";
   getAttribute stemEl "VolumeUnderBark"; getAttribute stemEl "VolumeOverBark"].

(** One turn of the loop over the Stem elements: the record pushed and the
    number of logs counted.  [clock] is the reading of the clock, as ISO
    text, at the turn of that index. *)
Definition readStem (clock : nat -> string) (speciesNameByKey : gmap string string)
    (index : nat) (stemEl : Node) : Stem * nat :=
  let stemKey :=
    default ("stem_" ++ indexDigits index)%string (getAttribute stemEl "StemKey") in
  let harvestDate := default (clock index) (getAttribute stemEl "HarvestDate") in
  let speciesGroupKey := getFirstText (childNodes stemEl) "SpeciesGroupKey" in
  let speciesName :=
    match speciesGroupKey with
    | Some key => if isEmpty key then None else speciesNameByKey !! key
    | None => None
    end in
  let speciesCategory := mapSpeciesNameToCategory speciesName in
  let stemVolume :=
    default 0%Q (firstPositive (List.map parseNumber (stemVolumeCandidates stemEl))) in
  let logElements := elementsByTag (childNodes stemEl) "Log" in
  let aggregatedLogVolume :=
    fold_left (fun sum logEl => (sum + resolveLogVolume logEl)%Q) logElements 0%Q in
  let finalStemVolume :=
    if Qltb 0 aggregatedLogVolume then aggregatedLogVolume else stemVolume in
  (mkStem stemKey harvestDate finalStemVolume (stemDbh stemEl) speciesGroupKey
          speciesName speciesCategory,
   length logElements).

(** [parseHPRFile], from the parsed document on: the records in the order
    of the Stem elements and the number of logs. *)
Definition parseHPRFile (clock : nat -> string) (xmlDoc : Document) : list Stem * nat :=
  let speciesNameByKey :=
    fold_left addDefinition (elementsByTag xmlDoc "SpeciesGroupDefinition") ∅ in
  let stemElements := elementsByTag xmlDoc "Stem" in
  fold_left (fun acc entry =>
               let '(stem, logs) := readStem clock speciesNameByKey entry.1 entry.2 in
               (acc.1 ++ [stem], (acc.2 + logs)%nat))
            (imap pair stemElements) ([], O).

(** ** Divisor table: storage and administration *)

(** A value as [JSON.parse] returns it. *)
#[local] Unset Elimination Schemes.
Inductive Json : Type :=
| JNull
| JBool (b : bool)
| JNumber (n : number)
| JString (s : string)
| JArray (items : list Json)
| JObject (members : list (string * Json)).
#[local] Set Elimination Schemes.

(** The property of an object under a key, [None] for [undefined]; of the
    members that [JSON.parse] reads under one key the last is kept. *)
Definition getProperty (input : Json) (key : string) : option Json :=
  match input with
  | JObject members =>
      snd <$> List.find (fun member => String.eqb member.1 key) (rev members)
  | _ => None
  end.

(** A value as [ensureDivisorArray] looks at it: an array or not, and of
    each item whether it is a number. *)
Definition asDivisorInput (value : option Json) : option (list (option number)) :=
  match value with
  | Some (JArray items) =>
      Some (List.map (fun item => match item with JNumber n => Some n | _ => None end) items)
  | _ => None
  end.

(** The key of the broadleaf species, with its o-umlaut. *)
Definition LovKey : string := String "L" (String "246" (String "v" EmptyString)).

Definition normaliseDivisors (DEFAULT_SPECIES_DIVISORS : BySpecies (list (option number)))
    (input : option Json) : SpeciesDivisors :=
  let fallback :=
    mkBySpecies (ensureDivisorArray (Some (ofTall DEFAULT_SPECIES_DIVISORS)))
                (ensureDivisorArray (Some (ofGran DEFAULT_SPECIES_DIVISORS)))
                (ensureDivisorArray (Some (ofLov DEFAULT_SPECIES_DIVISORS))) in
  match input with
  | Some (JObject _ as object) | Some (JArray _ as object) =>
      mkBySpecies (ensureDivisorArray (asDivisorInput (getProperty object "Tall")))
                  (ensureDivisorArray (asDivisorInput (getProperty object "Gran")))
                  (ensureDivisorArray (asDivisorInput (getProperty object LovKey)))
  | _ => fallback
  end.

(** [loadSpeciesDivisors]: [stored] is the item read from the storage,
    [None] when there is none or no storage; [JSONparse] is [None] where
    [JSON.parse] throws. *)
Definition loadSpeciesDivisors (DEFAULT_SPECIES_DIVISORS : BySpecies (list (option number)))
    (JSONparse : string -> option Json) (stored : option string) : SpeciesDivisors :=
  match stored with
  | None => normaliseDivisors DEFAULT_SPECIES_DIVISORS None
  | Some raw =>
      if isEmpty raw then normaliseDivisors DEFAULT_SPECIES_DIVISORS None
      else match JSONparse raw with
           | Some value => normaliseDivisors DEFAULT_SPECIES_DIVISORS (Some value)
           | None => normaliseDivisors DEFAULT_SPECIES_DIVISORS None
           end
  end.

(** [array[index] = x]: past the end the array grows, and the indices in
    between are holes. *)
Definition writeAt {A} (hole : A) (index : nat) (x : A) (array : list A) : list A :=
  if (index <? length array)%nat then <[index := x]> array
  else array ++ replicate (index - length array) hole ++ [x].


(** ** Displayed tables *)

(** [speciesPriceMatrix]: per species, the price at each class index; a
    hole of the array is [None]. *)
Definition speciesPriceMatrix (params : CalculationParams) (speciesDivisors : SpeciesDivisors)
  : BySpecies (list (option Q)) :=
  fold_left
    (fun result index =>
       fold_left
         (fun result species =>
            let divisor := getSpecies speciesDivisors species !! index ≫= id in
            let price := priceFor params divisor in
            setSpecies result species
                       (writeAt None index (Some price) (getSpecies result species)))
         SUPPORTED_SPECIES result)
    (seq 0 (length DBH_CLASSES)) (mkBySpecies [] [] []).

(** [resultsBySpecies]: the rows grouped by species, each group sorted by
    class. *)
Definition resultsBySpecies (results : list ResultRow.t) : BySpecies (list ResultRow.t) :=
  let grouped :=
    fold_left (fun grouped row =>
                 setSpecies grouped (ResultRow.species row)
                            (getSpecies grouped (ResultRow.species row) ++ [row]))
              results (mkBySpecies [] [] []) in
  fold_left (fun grouped species =>
               setSpecies grouped species
                          (sortBy (fun a b => ResultRow.dbhClass a - ResultRow.dbhClass b)
                                  (getSpecies grouped species)))
            SUPPORTED_SPECIES grouped.

Module SpeciesSummary.
Record t : Type := mk {
  stems : nat;
  volume : Q;
  totalPrice : Q
}.
End SpeciesSummary.



(** ** Legacy price table: edits by hand *)

(** The updater of a price field: the entry at the index gets the new
    price, every other entry stays. *)
Definition setLegacyPrice (index : nat) (newPrice : Q) (prev : list LegacyPriceEntry)
  : list LegacyPriceEntry :=
  imap (fun i pricing => if (i =? index)%nat then mkEntry (averageVolume pricing) newPrice
                         else pricing) prev.

(** [legacyPrices.filter((entry) => entry.price > 0).length], the number
    shown as base price entries set. *)
Definition pricedCount (legacyPrices : list LegacyPriceEntry) : nat :=
  length (List.filter (fun entry => Qltb 0 (price entry)) legacyPrices).

(** ** Dropped files *)

(** [/\.ext$/i.test(name)], for an extension given in lower case with its
    dot. *)
Definition hasExtension (extension name : string) : bool :=
  let n := String.length name in
  let e := String.length extension in
  (e <=? n)%nat && String.eqb (toLowerCase (substring (n - e) e name)) extension.

Definition acceptedName (name : string) : bool :=
  hasExtension ".hpr" name || hasExtension ".zip" name.

(** ** Export *)

(** [s.replace(/c/g, replacement)] for a pattern of one character. *)
Fixpoint replaceAll (c : ascii) (replacement : string) (s : string) : string :=
  match s with
  | String d r =>
      if Ascii.eqb d c then (replacement ++ replaceAll c replacement r)%string
      else String d (replaceAll c replacement r)
  | EmptyString => EmptyString
  end.

(** [escapeXml] of the export of the later revision: five replacements,
    one after the other, the ampersand first. *)
Definition escapeXml (value : string) : string :=
  replaceAll "'" "&apos;"
    (replaceAll "034" "&quot;"
       (replaceAll ">" "&gt;"
          (replaceAll "<" "&lt;"
             (replaceAll "&" "&amp;" value)))).

(** ** Uploads *)

(** The status line, by what it reports (the text shown is rendered from
    it). *)
Inductive StatusInfo : Type :=
| filesSelected (count : nat)
| parsed (stems logs : nat)
| noStems
| noStatus.

(** [l.length === 0] *)
Definition isNil {A} (l : list A) : bool :=
  match l with [] => true | _ => false end.

Section Uploads.

(** A file and its parse, [parseHPRFile], which goes through the browser's
    XML parser: the stems and the number of logs found in the file, or
    [None] when the parse throws.  [processFiles] uses nothing else of a
    file. *)
Variable File : Type.
Variable parseHPRFile : File -> option (list Stem * nat).

(** One turn of the loop over the files: a file whose parse throws is
    logged and passed over. *)
Definition addFile (acc : list Stem * nat) (file : File) : list Stem * nat :=
  match parseHPRFile file with
  | Some (fileStems, logCount) => (acc.1 ++ fileStems, (acc.2 + logCount)%nat)
  | None => acc
  end.

End Uploads.

Module Upload1.
(** The upload state of the earlier revision. *)
Record t : Type := mk {
  stems : list Stem;
  status : StatusInfo;
  hasUploaded : bool
}.
End Upload1.

Module Upload2.
(** The upload state of the later revision. *)
Record t : Type := mk {
  stems : list Stem;
  totalLogCount : nat;
  statusInfo : StatusInfo;
  hasUploaded : bool;
  shouldAppend : bool
}.
End Upload2.

(** ** The two revisions of the component *)

(** The earlier revision ([src/App.tsx]): the paste handler runs the import
    itself, and clears and closes whenever the text is not blank; every
    upload starts from an empty dataset. *)
Module V1.

Definition handleApplyBulkPricing (ui : Paste.t) : Paste.t :=
  if isEmpty (trim (Paste.bulkPriceText ui))
  then Paste.mk (Paste.legacyPrices ui) (Paste.bulkPriceText ui) false
  else
    let st := importLines (splitLines (Paste.bulkPriceText ui)) (Paste.legacyPrices ui) in
    Paste.mk (Pass.next st) EmptyString false.

Section ProcessFiles.

Variable File : Type.
Variable parseHPRFile : File -> option (list Stem * nat).

Definition processFiles (selectedFiles : list File) (st : Upload1.t) : Upload1.t :=
  let '(allStems, totalLogCount) :=
    fold_left (addFile File parseHPRFile) selectedFiles ([], O) in
  if isNil allStems
  then Upload1.mk allStems noStems false
  else Upload1.mk allStems (parsed (length allStems) totalLogCount) true.

(** The name of a file, which the drop handler filters on. *)
Variable fileName : File -> string.

Definition handleFileUpload (selectedFiles : list File) (st : Upload1.t) : Upload1.t :=
  processFiles selectedFiles st.

Definition handleFileDrop (files : list File) (st : Upload1.t) : Upload1.t :=
  let droppedFiles := List.filter (fun file => acceptedName (fileName file)) files in
  if isNil droppedFiles then st else processFiles droppedFiles st.

End ProcessFiles.

(** What [handleReset] leaves of the upload state (it also clears the
    results). *)
Definition handleReset (st : Upload1.t) : Upload1.t :=
  Upload1.mk [] noStatus false.

Definition DEFAULT_SPECIES_DIVISORS : BySpecies (list (option number)) :=
  let numbers := List.map (fun q : Q => Some (Finite q)) in
  mkBySpecies
    (numbers [2.5; 3.8; 6.2; 9.2; 12.7; 16.8; 21.1; 25.3; 29.6; 33.8; 38.1; 42; 46.6; 49.7;
              53.4; 55.4; 57.2; 56.9; 60.1; 57.6; 54.7; 57.8; 54.8; 54; 57; 57.8]%Q)
    (numbers [3.4; 5.1; 7.6; 10.7; 14.1; 17.8; 21.8; 25.7; 30.3; 34.7; 38.9; 43.2; 47; 49.5;
              51.8; 53.1; 54.1; 53.9; 54.2; 52.7; 52.6; 51.8; 50.4; 54.1; 48.4; 46.8]%Q)
    (numbers [2.8; 4.1; 6.1; 8.3; 11.1; 14; 16.7; 20.6; 23.2; 26.2; 28.3; 31; 33.9; 34.1;
              36.1; 38.9; 39.6; 38.3; 39; 42.4; 41]%Q
     ++ [None; None; None; None; None]).

End V1.

(** The later revision: [applyBulkPricing] reports whether it updated the
    table and its callers act on the report; an upload can be appended to
    the present dataset.

    [applyBulkPricing] sets its flag inside the updater it gives to
    [setLegacyPrices] and returns the flag right after the call.  React
    queues an updater and runs it when it next renders the component; when
    the component has no update pending it may run the updater at once,
    inside the call.  [eager] tells which of the two happens: only when the
    updater has run at once is the flag it sets the one that is returned.
    The table is the one in place once the update is applied, in both
    cases. *)
Module V2.

Definition applyBulkPricing (eager : bool) (text : string) (previous : list LegacyPriceEntry)
  : bool * list LegacyPriceEntry :=
  let trimmedText := trim text in
  if isEmpty trimmedText then (false, previous)
  else
    let st := importLines (splitLines trimmedText) previous in
    (eager && Pass.updated st, Pass.next st).

Definition handleApplyBulkPricing (eager : bool) (ui : Paste.t) : Paste.t :=
  let '(success, prices) :=
    applyBulkPricing eager (Paste.bulkPriceText ui) (Paste.legacyPrices ui) in
  if success then Paste.mk prices EmptyString false
  else Paste.mk prices (Paste.bulkPriceText ui) (Paste.showBulkPaste ui).


Section ProcessFiles.

Variable File : Type.
Variable parseHPRFile : File -> option (list Stem * nat).

(** Nothing for an empty selection; with [append] the dataset and the
    log count start from the present ones. *)
Definition processFiles (selectedFiles : list File) (append : option bool) (st : Upload2.t)
  : Upload2.t :=
  let append := default false append in
  if isNil selectedFiles then st
  else
    let '(combinedStems, combinedLogCount) :=
      fold_left (addFile File parseHPRFile) selectedFiles
                (if append then (Upload2.stems st, Upload2.totalLogCount st) else ([], O)) in
    if isNil combinedStems
    then Upload2.mk combinedStems combinedLogCount noStems false (Upload2.shouldAppend st)
    else Upload2.mk combinedStems combinedLogCount
                    (parsed (length combinedStems) combinedLogCount) true false.

(** The name of a file, which the drop handler filters on. *)
Variable fileName : File -> string.

Definition setShouldAppend (st : Upload2.t) (shouldAppend : bool) : Upload2.t :=
  Upload2.mk (Upload2.stems st) (Upload2.totalLogCount st) (Upload2.statusInfo st)
             (Upload2.hasUploaded st) shouldAppend.

Definition handleFileUpload (selectedFiles : list File) (st : Upload2.t) : Upload2.t :=
  setShouldAppend (processFiles selectedFiles (Some (Upload2.shouldAppend st)) st) false.

Definition handleFileDrop (files : list File) (st : Upload2.t) : Upload2.t :=
  let droppedFiles := List.filter (fun file => acceptedName (fileName file)) files in
  if isNil droppedFiles then st
  else setShouldAppend (processFiles droppedFiles (Some (Upload2.shouldAppend st)) st) false.

End ProcessFiles.

(** What [handleReset] leaves of the upload state (it also clears the
    results). *)
Definition handleReset (st : Upload2.t) : Upload2.t :=
  Upload2.mk [] 0 noStatus false false.

Definition handleAddMoreFiles (st : Upload2.t) : Upload2.t :=
  Upload2.mk (Upload2.stems st) (Upload2.totalLogCount st) (Upload2.statusInfo st) false true.

Definition DEFAULT_SPECIES_DIVISORS : BySpecies (list (option number)) :=
  let numbers := List.map (fun q : Q => Some (Finite q)) in
  mkBySpecies
    (numbers [2.5; 3.8; 6.2; 9.2; 12.7; 16.8; 21.1; 25.3; 29.6; 33.8; 38.1; 42; 46.6; 49.7;
              53.4; 55.4; 57.2; 56.9; 60.1; 57.6; 54.7; 57.8; 54.8; 54; 57; 57.8]%Q)
    (numbers [3.4; 5.1; 7.6; 10.7; 14.1; 17.8; 21.8; 25.7; 30.3; 34.7; 38.9; 43.2; 47; 49.5;
              51.8; 53.1; 54.1; 53.9; 54.2; 52.7; 52.6; 51.8; 50.4; 54.1; 48.4; 46.8]%Q)
    (numbers [2.8; 4.1; 6.1; 8.3; 11.1; 14; 16.7; 20.6; 23.2; 26.2; 28.3; 31; 33.9; 34.1;
              36.1; 38.9; 39.6; 38.3; 39; 42.4; 41; 41; 41; 41; 41; 41]%Q).

End V2.

(** ** Notions the properties are stated with *)

(** The diameter of the stem resolves to a class. *)
Definition resolvable (stem : Stem) : bool :=
  match resolveDbhClass (dbh stem) with Some _ => true | None => false end.

(** The stem belongs to the bin of [species] and [dbhClass]. *)
Definition inBin (species : SpeciesCategory) (dbhClass : Z) (stem : Stem) : bool :=
  bool_decide (speciesCategory stem = species /\ resolveDbhClass (dbh stem) = Some dbhClass).

(** The stems of a dataset that belong to a bin, in the order of the
    dataset. *)
Definition members (species : SpeciesCategory) (dbhClass : Z) (stems : list Stem) : list Stem :=
  List.filter (inBin species dbhClass) stems.

Definition sumQ (l : list Q) : Q := foldr Qplus 0%Q l.

Definition sumNat (l : list nat) : nat := foldr Nat.add O l.

(** The bin after one more stem has been accumulated into it. *)
Definition pushStem (perStemTime : Q) (bin : Bin.t) (stem : Stem) : Bin.t :=
  Bin.mk (Bin.stems bin ++ [stem])
         (Bin.totalTime bin + perStemTime)%Q
         (Bin.totalVolume bin + stem_volume stem)%Q.

(** The bin a list of member stems accumulates to: none for no member. *)
Definition binOf (perStemTime : Q) (l : list Stem) : option Bin.t :=
  match l with
  | [] => None
  | _ => Some (fold_left (pushStem perStemTime) l emptyBin)
  end.

(** The bins of an aggregate, each with its key. *)
Definition binsOf (aggregated : Aggregated) : list (SpeciesCategory * Z * Bin.t) :=
  flat_map (fun species =>
              List.map (fun '(dbhClass, bin) => (species, dbhClass, bin))
                       (map_to_list (getSpecies aggregated species)))
           SUPPORTED_SPECIES.

Definition rowKey (row : ResultRow.t) : SpeciesCategory * Z :=
  (ResultRow.species row, ResultRow.dbhClass row).


(** The numeric tokens of a pasted line. *)
Definition lineTokens (rawLine : string) : list string :=
  numericTokensForLine (trim rawLine).

(** A line that is placed by the cursor: it has tokens and none of them
    lies on a breakpoint. *)
Definition positional (rawLine : string) : Prop :=
  lineTokens rawLine <> [] /\ matchVolumeToken (lineTokens rawLine) = None.

(** The index the cursor gives to a positional line met in state [st]. *)
Definition cursorTarget (st : Pass.t) : nat :=
  let len := length (Pass.next st) in
  skipAssigned (len - Pass.fallbackIndex st) len (Pass.assigned st) (Pass.fallbackIndex st).





(** What holds of the pass at every line: the table keeps its length; the
    flag is set exactly when an index has been filled; a filled index holds
    its breakpoint with a strictly positive price parsed from a token; an
    index that is not filled holds what it held before the pass. *)
Definition passInvariant (previous : list LegacyPriceEntry) (st : Pass.t) : Prop :=
  length (Pass.next st) = length previous
  /\ (Pass.updated st = true <-> exists i, i ∈ Pass.assigned st)
  /\ (forall i, i ∈ Pass.assigned st ->
        exists e0 e token,
          previous !! i = Some e0 /\ Pass.next st !! i = Some e
          /\ averageVolume e = averageVolume e0
          /\ price e = parseNumber (Some token) /\ (0 < price e)%Q)
  /\ (forall i, i ∉ Pass.assigned st -> Pass.next st !! i = previous !! i).

(** The stems a file contributes: none when its parse throws. *)
Definition stemsOfFile {File : Type} (parseHPRFile : File -> option (list Stem * nat))
    (file : File) : list Stem :=
  match parseHPRFile file with
  | Some (fileStems, _) => fileStems
  | None => []
  end.

Definition rowBefore (a b : ResultRow.t) : Prop :=
  indexOfZ SUPPORTED_SPECIES (ResultRow.species a)
  < indexOfZ SUPPORTED_SPECIES (ResultRow.species b)
  \/ (ResultRow.species a = ResultRow.species b
      /\ ResultRow.dbhClass a < ResultRow.dbhClass b).

Definition speciesRows (species : SpeciesCategory) (rows : list ResultRow.t) : list ResultRow.t :=
  List.filter (fun row => bool_decide (ResultRow.species row = species)) rows.

(** Two states of the legacy table of which the second keeps every
    breakpoint of the first and every price that was set. *)
Definition extendsTable (previous next : list LegacyPriceEntry) : Prop :=
  List.map averageVolume next = List.map averageVolume previous
  /\ (pricedCount previous <= pricedCount next)%nat
  /\ forall i e0, previous !! i = Some e0 ->
       exists e, next !! i = Some e
                 /\ averageVolume e = averageVolume e0
                 /\ (price e = price e0 \/ (0 < price e)%Q).

(** A divisor table as the component holds it: one entry per class for
    each species, every divisor strictly positive. *)
Definition wellFormedDivisors (divisors : SpeciesDivisors) : Prop :=
  forall species,
    length (getSpecies divisors species) = length DBH_CLASSES
    /\ forall i d, getSpecies divisors species !! i = Some (Some d) -> (0 < d)%Q.

(** The key of a species in the stored table. *)
Definition speciesKey (species : SpeciesCategory) : string :=
  match species with
  | Tall => "Tall"
  | Gran => "Gran"
  | Lov => LovKey
  end.

(** The value [JSON.parse] reads back from what [JSON.stringify] writes
    for a table: an object with one array per species, [null] for an
    absent divisor. *)
Definition jsonOfTable (table : BySpecies (list (option number))) : Json :=
  let items := List.map (fun entry => match entry with
                                      | Some n => JNumber n
                                      | None => JNull
                                      end) in
  JObject [("Tall"%string, JArray (items (ofTall table)));
           ("Gran"%string, JArray (items (ofGran table)));
           (LovKey, JArray (items (ofLov table)))].

(** The divisors of a table as numbers. *)
Definition numbersOf (divisors : SpeciesDivisors) : BySpecies (list (option number)) :=
  let numbers := List.map (fun entry : option Q => Finite <$> entry) in
  mkBySpecies (numbers (ofTall divisors)) (numbers (ofGran divisors))
              (numbers (ofLov divisors)).

(** A value that is an object for [typeof]: an object or an array. *)
Definition isObject (value : Json) : bool :=
  match value with
  | JObject _ | JArray _ => true
  | _ => false
  end.

(** The value a volume node carries. *)
Definition nodeVolume (node : Node) : Q := parseNumber (Some (textContent node)).

(** The volume attribute of a log in cubic decimetres. *)
Definition dm3Volume (logEl : Node) : Q :=
  parseNumber (match getAttribute logEl "VolumeDm3" with
               | Some v => Some v
               | None => getAttribute logEl "VolumeDM3"
               end).

(** The stem has a diameter. *)
Definition hasDbh (dbh : option number) : bool :=
  match dbh with Some _ => true | None => false end.

(** The status line tells the truth about the dataset: it reports the
    number of stems held, or that none is held. *)
Definition statusMatches (status : StatusInfo) (stems : list Stem) (logs : option nat) : Prop :=
  match status with
  | parsed n l => n = length stems /\ stems <> [] /\ (forall k, logs = Some k -> l = k)
  | noStems | noStatus => stems = []
  | filesSelected _ => False
  end.


Definition consistent2 (st : Upload2.t) : Prop :=
  (Upload2.hasUploaded st = true ->
   Upload2.stems st <> [] /\ Upload2.shouldAppend st = false)
  /\ statusMatches (Upload2.statusInfo st) (Upload2.stems st) (Some (Upload2.totalLogCount st)).


(** The upload states the handlers of the later revision can lead to. *)
Inductive reachable2 {File : Type} (parseHPRFile : File -> option (list Stem * nat))
    (fileName : File -> string) : Upload2.t -> Prop :=
| reachable2_initial : reachable2 parseHPRFile fileName (Upload2.mk [] 0 noStatus false false)
| reachable2_upload st files :
    reachable2 parseHPRFile fileName st ->
    reachable2 parseHPRFile fileName (V2.handleFileUpload File parseHPRFile files st)
| reachable2_drop st files :
    reachable2 parseHPRFile fileName st ->
    reachable2 parseHPRFile fileName (V2.handleFileDrop File parseHPRFile fileName files st)
| reachable2_reset st :
    reachable2 parseHPRFile fileName st ->
    reachable2 parseHPRFile fileName (V2.handleReset st)
| reachable2_addMore st :
    reachable2 parseHPRFile fileName st ->
    reachable2 parseHPRFile fileName (V2.handleAddMoreFiles st).

(** A text with every CR LF pair replaced by LF. *)
Fixpoint crlfToLf (s : string) : string :=
  match s with
  | String c r =>
      if Ascii.eqb c "013" then
        match r with
        | String c' r' =>
            if Ascii.eqb c' "010" then String "010" (crlfToLf r') else String c (crlfToLf r)
        | EmptyString => String c EmptyString
        end
      else String c (crlfToLf r)
  | EmptyString => EmptyString
  end.

(** The number of line feeds of a text. *)
Definition lineFeeds (s : string) : nat :=
  length (List.filter (Ascii.eqb "010") (list_ascii_of_string s)).




(** What a character is written as in XML text: its entity for the five
    characters of the markup, itself otherwise. *)
Definition entityOf (c : ascii) : string :=
  if Ascii.eqb c "&" then "&amp;"
  else if Ascii.eqb c "<" then "&lt;"
  else if Ascii.eqb c ">" then "&gt;"
  else if Ascii.eqb c "034" then "&quot;"
  else if Ascii.eqb c "'" then "&apos;"
  else String c EmptyString.

(** ** Sample data *)

(** The settings the component starts with. *)
Definition initialParams : CalculationParams :=
  mkParams 600 1800 1500 300 280 1 0.73 11.45.

(** A square root to run examples with: exact to six decimals. *)
Definition sqrtApprox (q : Q) : Q :=
  Z.sqrt (Qnum q * Z.pos (Qden q) * 10 ^ 12) # (Qden q * 10 ^ 6).

(** A spruce of diameter 150 mm and volume 0.8 m3. *)
Definition spruce150 : Stem :=
  mkStem "stem_0" "2024-05-01" 0.8 (Some (Finite 150)) (Some "2"%string)
         (Some "Gran"%string) (mapSpeciesNameToCategory (Some "Gran"%string)).

(** A pine whose diameter is missing. *)
Definition pineNoDbh : Stem :=
  mkStem "stem_1" "2024-05-01" 0.5 None (Some "1"%string)
         (Some "Tall"%string) (mapSpeciesNameToCategory (Some "Tall"%string)).

(** A divisor table with the single entry 20 for spruce in the class 160. *)
Definition spruceOnlyDivisors : SpeciesDivisors :=
  mkBySpecies [] [None; None; None; None; Some 20%Q] [].

(** A legacy table whose prices tell the entries apart: 1000 times the
    breakpoint. *)
Definition pricedLegacyTable : list LegacyPriceEntry :=
  List.map (fun averageVolume => mkEntry averageVolume (1000 * averageVolume))
           LEGACY_AVERAGE_VOLUMES.

Definition tab : string := String "009" EmptyString.
Definition newline : string := String "010" EmptyString.


(** Two pasted lines with a breakpoint and a price each, tab-separated. *)
Definition twoColumns : string :=
  ("0.20" ++ tab ++ "110" ++ newline ++ "0.25" ++ tab ++ "115")%string.

(** A parse that finds the one stem [spruce150] and one log in any file. *)
Definition oneSpruce (file : unit) : option (list Stem * nat) :=
  Some ([spruce150], 1%nat).

(** A document with one species definition and two stems: a spruce with a
    diameter and one log whose volume is given over and under bark, and a
    stem of an undefined species without diameter or log. *)
Definition sampleDocument : Document :=
  [Element "HarvestedProduction" []
     [Element "SpeciesGroupDefinition" []
        [Element "SpeciesGroupKey" [] [Text "2"];
         Element "SpeciesGroupName" [] [Text "Gran"]];
      Element "Stem" [("StemKey", "7"); ("DBH", "150")]
        [Element "SpeciesGroupKey" [] [Text " 2 "];
         Element "Log" []
           [Element "LogVolume" [("logVolumeCategory", "m3sob")] [Text "0.9"];
            Element "LogVolume" [("logVolumeCategory", " M3SUB ")] [Text "0,8"]]];
      Element "Stem" [] [Element "SpeciesGroupKey" [] [Text "9"]]]]%string.

Definition sampleClock (index : nat) : string := "2024-05-01T00:00:00.000Z".

(** * Properties *)

(** ** Comparisons *)

Lemma Qltb_lt (a b : Q) : Qltb a b = true <-> (a < b)%Q.
Proof.
  unfold Qltb. rewrite Qlt_alt. destruct (a ?= b)%Q; split; congruence.
Qed.

Lemma Qltb_ge (a b : Q) : Qltb a b = false <-> (b <= a)%Q.
Proof.
  rewrite <- not_true_iff_false, Qltb_lt. split.
  - apply Qnot_lt_le.
  - apply Qle_not_lt.
Qed.

Lemma Qle_bool_false (a b : Q) : Qle_bool a b = false <-> (b < a)%Q.
Proof.
  rewrite <- not_true_iff_false, Qle_bool_iff. split.
  - apply Qnot_le_lt.
  - apply Qlt_not_le.
Qed.

(** ** Divisor table *)

(** A table that has passed through [ensureDivisorArray] has one entry per
    class and no divisor that is not strictly positive. *)
Lemma ensureDivisorArray_positive (input : option (list (option number))) :
  length (ensureDivisorArray input) = length DBH_CLASSES
  /\ forall i d, ensureDivisorArray input !! i = Some (Some d) -> (0 < d)%Q.
Proof.
  unfold ensureDivisorArray. split; [now rewrite length_map, length_seq|].
  intros i d Hd. apply list_elem_of_lookup_2, list_elem_of_In, in_map_iff in Hd.
  destruct Hd as (index & Hd & _).
  destruct (input ≫= _) as [[[candidate| | |]|]|]; try discriminate.
  destruct (Qltb 0 candidate) eqn:Hpos; [|discriminate].
  injection Hd as <-. now apply Qltb_lt.
Qed.

(** ** Scans *)

Lemma find_first {A} (p : A -> bool) (l : list A) (x : A) :
  List.find p l = Some x ->
  exists i, l !! i = Some x /\ p x = true
            /\ forall j y, (j < i)%nat -> l !! j = Some y -> p y = false.
Proof.
  induction l as [|a l IH]; simpl; [discriminate|].
  destruct (p a) eqn:Hpa.
  - intros [= ->]. exists O. repeat split; auto. intros j y Hj. lia.
  - intros Hfind. destruct (IH Hfind) as (i & Hi & Hpx & Hbefore).
    exists (S i). repeat split; auto.
    intros [|j] y Hj; simpl.
    + intros [= <-]. exact Hpa.
    + apply Hbefore. lia.
Qed.

Lemma find_nowhere {A} (p : A -> bool) (l : list A) :
  List.find p l = None -> forall y, y ∈ l -> p y = false.
Proof.
  intros Hfind y Hy. apply (List.find_none p l Hfind). now apply list_elem_of_In.
Qed.

(** ** Diameter Binner *)

Lemma resolveDbhClass_finite (q : Q) :
  (0 < q)%Q ->
  resolveDbhClass (Some (Finite q))
  = match List.find (fun threshold => Qle_bool q (inject_Z threshold)) DBH_CLASSES with
    | Some threshold => Some threshold
    | None => Some 580
    end.
Proof.
  intros Hq. unfold resolveDbhClass. simpl isFinite. simpl negb.
  replace (number_leb (Finite q) (ofZ 0)) with false.
  - reflexivity.
  - symmetry. apply Qle_bool_false. exact Hq.
Qed.

(** Every class the binner returns is one of the thresholds; none is 0. *)
Lemma resolveDbhClass_in_classes (dbh : option number) (c : Z) :
  resolveDbhClass dbh = Some c -> c ∈ DBH_CLASSES.
Proof.
  unfold resolveDbhClass. destruct dbh as [d|]; [|discriminate].
  destruct (negb (isFinite d) || number_leb d (ofZ 0)); [discriminate|].
  destruct (List.find _ DBH_CLASSES) as [t|] eqn:Hfind.
  - intros [= <-]. apply List.find_some in Hfind as [Hin _].
    now apply list_elem_of_In.
  - intros [= <-]. set_solver.
Qed.

Lemma resolveDbhClass_nonzero (dbh : option number) (c : Z) :
  resolveDbhClass dbh = Some c -> c <> 0.
Proof.
  intros H%resolveDbhClass_in_classes%list_elem_of_In ->.
  simpl in H. intuition discriminate.
Qed.

Lemma DBH_CLASSES_ascending : Sorted Z.lt DBH_CLASSES.
Proof. unfold DBH_CLASSES. repeat constructor. Qed.

(** C5.  For a finite, strictly positive diameter the binner returns the
    first threshold of [DBH_CLASSES], which is ascending
    ([DBH_CLASSES_ascending]), that is at least the diameter (every
    threshold before it is smaller than the diameter), and the largest
    threshold, 580, when the diameter exceeds every threshold.  The binner
    returns no class only for a diameter that is absent, not finite, or not
    positive. *)
Theorem resolveDbhClass_first_threshold (dbh : option number) :
  (resolveDbhClass dbh = None <->
     dbh = None
     \/ (exists d, dbh = Some d /\ isFinite d = false)
     \/ (exists q, dbh = Some (Finite q) /\ (q <= 0)%Q))
  /\ (forall q, dbh = Some (Finite q) -> (0 < q)%Q ->
        exists i t,
          DBH_CLASSES !! i = Some t
          /\ resolveDbhClass dbh = Some t
          /\ (forall j t', (j < i)%nat -> DBH_CLASSES !! j = Some t' -> (inject_Z t' < q)%Q)
          /\ ((q <= inject_Z t)%Q
              \/ (t = 580 /\ i = 25%nat /\ (inject_Z 580 < q)%Q))).
Proof.
  split.
  - split.
    + destruct dbh as [[q| | |]|]; auto.
      * destruct (Qlt_le_dec 0 q) as [Hpos|Hle].
        -- rewrite (resolveDbhClass_finite q Hpos).
           destruct (List.find _ _); discriminate.
        -- intros _. right. right. exists q. auto.
      * intros _. right. left. exists PosInfinity. auto.
      * intros _. right. left. exists NegInfinity. auto.
      * intros _. right. left. exists NaN. auto.
    + intros [->|[(d & -> & Hd)|(q & -> & Hq)]]; [reflexivity| |].
      * unfold resolveDbhClass. rewrite Hd. reflexivity.
      * apply Qle_bool_iff in Hq.
        unfold resolveDbhClass. cbn [isFinite negb orb number_leb ofZ].
        change (inject_Z 0) with 0%Q. rewrite Hq. reflexivity.
  - intros q -> Hq. rewrite (resolveDbhClass_finite q Hq).
    destruct (List.find _ DBH_CLASSES) as [t|] eqn:Hfind.
    + apply find_first in Hfind as (i & Hi & Ht & Hbefore).
      exists i, t. repeat split; auto.
      * intros j t' Hj Ht'. apply Qle_bool_false. eauto.
      * left. now apply Qle_bool_iff.
    + exists 25%nat, 580. repeat split; auto.
      * intros j t' _ Ht'. apply Qle_bool_false.
        apply (find_nowhere _ _ Hfind). eapply list_elem_of_lookup_2; eauto.
      * right. repeat split; auto. apply Qle_bool_false.
        apply (find_nowhere _ _ Hfind 580). set_solver.
Qed.

(** A diameter of 150 falls in the class 160 (index 4); one of 1000, beyond
    every threshold, in the class 580. *)
Lemma resolveDbhClass_first_threshold_witness :
  (exists i t, DBH_CLASSES !! i = Some t
               /\ resolveDbhClass (Some (Finite 150)) = Some t
               /\ (forall j t', (j < i)%nat -> DBH_CLASSES !! j = Some t' -> (inject_Z t' < 150)%Q)
               /\ ((150 <= inject_Z t)%Q
                   \/ (t = 580 /\ i = 25%nat /\ (inject_Z 580 < 150)%Q)))
  /\ resolveDbhClass (Some (Finite 1000)) = Some 580.
Proof.
  split.
  - apply (proj2 (resolveDbhClass_first_threshold (Some (Finite 150))) 150%Q eq_refl).
    reflexivity.
  - reflexivity.
Defined.

(** ** Sums and sorting *)

Lemma insertBy_Permutation {A} (cmp : A -> A -> Z) (x : A) (l : list A) :
  insertBy cmp x l ≡ₚ x :: l.
Proof.
  induction l as [|y l IH]; simpl; [reflexivity|].
  destruct (cmp x y <=? 0); [reflexivity|].
  rewrite IH. apply Permutation_swap.
Qed.

Lemma sortBy_Permutation {A} (cmp : A -> A -> Z) (l : list A) :
  sortBy cmp l ≡ₚ l.
Proof.
  induction l as [|x l IH]; simpl; [reflexivity|].
  rewrite insertBy_Permutation. now rewrite IH.
Qed.

Lemma sumNat_app (l1 l2 : list nat) : sumNat (l1 ++ l2) = (sumNat l1 + sumNat l2)%nat.
Proof. induction l1 as [|x l1 IH]; simpl; [reflexivity|]. rewrite IH. lia. Qed.

Lemma sumNat_Permutation (l1 l2 : list nat) : l1 ≡ₚ l2 -> sumNat l1 = sumNat l2.
Proof. induction 1; simpl; lia. Qed.

Lemma fold_left_sumNat {A} (f : A -> nat) (l : list A) (acc : nat) :
  fold_left (fun sum x => (sum + f x)%nat) l acc = (acc + sumNat (List.map f l))%nat.
Proof.
  revert acc. induction l as [|x l IH]; intros acc; simpl; [lia|].
  rewrite IH. lia.
Qed.

Lemma sumQ_app (l1 l2 : list Q) : (sumQ (l1 ++ l2) == sumQ l1 + sumQ l2)%Q.
Proof.
  induction l1 as [|x l1 IH]; simpl.
  - now rewrite Qplus_0_l.
  - rewrite IH. now rewrite Qplus_assoc.
Qed.

Lemma sumQ_Permutation (l1 l2 : list Q) : l1 ≡ₚ l2 -> (sumQ l1 == sumQ l2)%Q.
Proof.
  induction 1 as [|x l1 l2 _ IH|x y l|l1 l2 l3 _ IH1 _ IH2]; simpl.
  - reflexivity.
  - now rewrite IH.
  - rewrite !Qplus_assoc. now rewrite (Qplus_comm y x).
  - now rewrite IH1.
Qed.

Lemma fold_left_sumQ {A} (f : A -> Q) (l : list A) (acc : Q) :
  (fold_left (fun sum x => sum + f x) l acc == acc + sumQ (List.map f l))%Q.
Proof.
  revert acc. induction l as [|x l IH]; intros acc; simpl.
  - now rewrite Qplus_0_r.
  - rewrite IH. now rewrite Qplus_assoc.
Qed.

(** ** Aggregator *)

Lemma getSpecies_setSpecies {X} (r : BySpecies X) (sp sp' : SpeciesCategory) (x : X) :
  getSpecies (setSpecies r sp x) sp' = if decide (sp = sp') then x else getSpecies r sp'.
Proof. destruct sp, sp'; reflexivity. Qed.

Lemma inBin_true (sp : SpeciesCategory) (c : Z) (s : Stem) :
  inBin sp c s = true <-> speciesCategory s = sp /\ resolveDbhClass (dbh s) = Some c.
Proof. unfold inBin. now rewrite bool_decide_eq_true. Qed.

(** What one stem does to the bin of any key. *)
Lemma addStem_lookup (t : Q) (agg : Aggregated) (s : Stem) (sp : SpeciesCategory) (c : Z) :
  getSpecies (addStem t agg s) sp !! c
  = if inBin sp c s
    then Some (pushStem t (default emptyBin (getSpecies agg sp !! c)) s)
    else getSpecies agg sp !! c.
Proof.
  unfold addStem. destruct (resolveDbhClass (dbh s)) as [d|] eqn:Hd.
  - pose proof (resolveDbhClass_nonzero _ _ Hd) as Hnz.
    apply Z.eqb_neq in Hnz. rewrite Hnz.
    rewrite getSpecies_setSpecies. unfold inBin.
    destruct (decide (speciesCategory s = sp)) as [<-|Hsp].
    + destruct (decide (d = c)) as [<-|Hc].
      * rewrite lookup_insert_eq. rewrite bool_decide_eq_true_2 by auto. reflexivity.
      * rewrite lookup_insert_ne by auto.
        rewrite bool_decide_eq_false_2; [reflexivity|]. intros [_ Heq].
        apply Hc. congruence.
    + rewrite bool_decide_eq_false_2; [reflexivity|]. intros [Heq _]. auto.
  - unfold inBin. rewrite bool_decide_eq_false_2; [reflexivity|]. intros [_ Heq].
    congruence.
Qed.

Lemma binOf_snoc (t : Q) (l : list Stem) (s : Stem) :
  binOf t (l ++ [s]) = Some (pushStem t (default emptyBin (binOf t l)) s).
Proof.
  unfold binOf. destruct l as [|x l]; [reflexivity|].
  change ((x :: l) ++ [s]) with (x :: (l ++ [s])).
  cbn [default]. f_equal. cbn [fold_left]. now rewrite fold_left_app.
Qed.

(** The aggregate holds, under every key, exactly the bin its members
    accumulate to. *)
Lemma aggregate_lookup (t : Q) (stems : list Stem) (sp : SpeciesCategory) (c : Z) :
  getSpecies (fold_left (addStem t) stems emptyAggregated) sp !! c
  = binOf t (members sp c stems).
Proof.
  induction stems as [|s stems IH] using rev_ind.
  - destruct sp; reflexivity.
  - rewrite fold_left_app. cbn [fold_left]. rewrite addStem_lookup, IH.
    unfold members. rewrite List.filter_app. cbn [List.filter].
    destruct (inBin sp c s).
    + now rewrite binOf_snoc.
    + now rewrite app_nil_r.
Qed.

Lemma fold_pushStem (t : Q) (l : list Stem) (b : Bin.t) :
  let b' := fold_left (pushStem t) l b in
  Bin.stems b' = Bin.stems b ++ l
  /\ (Bin.totalTime b' == Bin.totalTime b + ofNat (length l) * t)%Q
  /\ (Bin.totalVolume b' == Bin.totalVolume b + sumQ (List.map stem_volume l))%Q.
Proof.
  revert b. induction l as [|s l IH]; intros b; cbn [fold_left].
  - cbn [length List.map]. change (ofNat 0) with 0%Q. change (sumQ []) with 0%Q.
    rewrite app_nil_r. split; [reflexivity|]. split; ring.
  - destruct (IH (pushStem t b s)) as (Hs & Ht & Hv). cbn zeta.
    rewrite Hs, Ht, Hv. cbn [pushStem Bin.stems Bin.totalTime Bin.totalVolume].
    rewrite <- app_assoc. split; [reflexivity|].
    split.
    + cbn [length]. unfold ofNat. rewrite Nat2Z.inj_succ, <- Z.add_1_r, inject_Z_plus. ring.
    + cbn [List.map sumQ foldr]. fold (sumQ (List.map stem_volume l)). ring.
Qed.

Lemma binOf_Some (t : Q) (l : list Stem) (b : Bin.t) :
  binOf t l = Some b ->
  Bin.stems b = l
  /\ (Bin.totalTime b == ofNat (length l) * t)%Q
  /\ (Bin.totalVolume b == sumQ (List.map stem_volume l))%Q.
Proof.
  intros Hb.
  assert (b = fold_left (pushStem t) l emptyBin) as ->.
  { unfold binOf in Hb. destruct l; [discriminate|]. congruence. }
  destruct (fold_pushStem t l emptyBin) as (Hs & Ht & Hv).
  cbn zeta in *. rewrite Hs, Ht, Hv. cbn [emptyBin Bin.stems Bin.totalTime Bin.totalVolume].
  split; [reflexivity|]. split; ring.
Qed.

(** The entries of a map before and after an insertion share everything
    but the entry of the key. *)
Lemma map_to_list_insert_split (m : gmap Z Bin.t) (c : Z) (b' : Bin.t) :
  exists rest,
    map_to_list (<[c := b']> m) ≡ₚ (c, b') :: rest
    /\ map_to_list m ≡ₚ match m !! c with Some b => [(c, b)] | None => [] end ++ rest.
Proof.
  exists (map_to_list (delete c m)). split.
  - rewrite <- insert_delete_eq. apply map_to_list_insert, lookup_delete_eq.
  - destruct (m !! c) as [b|] eqn:Hc.
    + symmetry. now apply map_to_list_delete.
    + now rewrite delete_id.
Qed.

Lemma binsOf_unfold (agg : Aggregated) :
  binsOf agg
  = List.map (fun '(c, b) => (Tall, c, b)) (map_to_list (ofTall agg))
    ++ List.map (fun '(c, b) => (Gran, c, b)) (map_to_list (ofGran agg))
    ++ List.map (fun '(c, b) => (Lov, c, b)) (map_to_list (ofLov agg)).
Proof. unfold binsOf. cbn. now rewrite app_nil_r. Qed.

(** A stem without a class leaves the bins as they are; a stem with a class
    replaces the bin of its key by that bin with the stem pushed, and leaves
    every other bin. *)
Lemma binsOf_addStem (t : Q) (agg : Aggregated) (s : Stem) :
  match resolveDbhClass (dbh s) with
  | None => addStem t agg s = agg
  | Some c =>
      let sp := speciesCategory s in
      let old := getSpecies agg sp !! c in
      exists rest,
        binsOf (addStem t agg s) ≡ₚ (sp, c, pushStem t (default emptyBin old) s) :: rest
        /\ binsOf agg ≡ₚ match old with Some b => [(sp, c, b)] | None => [] end ++ rest
  end.
Proof.
  unfold addStem. destruct (resolveDbhClass (dbh s)) as [c|] eqn:Hc; [|reflexivity].
  pose proof (resolveDbhClass_nonzero _ _ Hc) as Hnz.
  apply Z.eqb_neq in Hnz. rewrite Hnz. cbn zeta.
  set (b' := Bin.mk _ _ _).
  change b' with (pushStem t (default emptyBin (getSpecies agg (speciesCategory s) !! c)) s).
  clear b'. set (b' := pushStem _ _ _).
  destruct (map_to_list_insert_split (getSpecies agg (speciesCategory s)) c b')
    as (rest & Hnew & Hold).
  rewrite !binsOf_unfold.
  destruct (speciesCategory s); cbn [getSpecies setSpecies ofTall ofGran ofLov] in *.
  - exists (List.map (fun '(c, b) => (Tall, c, b)) rest
            ++ List.map (fun '(c, b) => (Gran, c, b)) (map_to_list (ofGran agg))
            ++ List.map (fun '(c, b) => (Lov, c, b)) (map_to_list (ofLov agg))).
    split.
    + rewrite Hnew. reflexivity.
    + rewrite Hold. rewrite List.map_app, <- app_assoc.
      destruct (ofTall agg !! c); reflexivity.
  - exists (List.map (fun '(c, b) => (Tall, c, b)) (map_to_list (ofTall agg))
            ++ List.map (fun '(c, b) => (Gran, c, b)) rest
            ++ List.map (fun '(c, b) => (Lov, c, b)) (map_to_list (ofLov agg))).
    split.
    + rewrite Hnew. cbn [List.map app]. now rewrite <- Permutation_middle.
    + rewrite Hold. rewrite List.map_app.
      destruct (ofGran agg !! c); cbn [List.map app]; [|reflexivity].
      now rewrite <- Permutation_middle.
  - exists (List.map (fun '(c, b) => (Tall, c, b)) (map_to_list (ofTall agg))
            ++ List.map (fun '(c, b) => (Gran, c, b)) (map_to_list (ofGran agg))
            ++ List.map (fun '(c, b) => (Lov, c, b)) rest).
    split.
    + rewrite Hnew. cbn [List.map app].
      rewrite (app_assoc _ _ (_ :: _)), <- Permutation_middle. now rewrite <- app_assoc.
    + rewrite Hold. rewrite List.map_app.
      destruct (ofLov agg !! c); cbn [List.map app]; [|reflexivity].
      rewrite (app_assoc _ _ (_ :: _)), <- Permutation_middle. now rewrite <- app_assoc.
Qed.

Lemma resolvable_true (s : Stem) :
  resolvable s = true <-> exists c, resolveDbhClass (dbh s) = Some c.
Proof.
  unfold resolvable. destruct (resolveDbhClass (dbh s)) as [c|]; split; eauto.
  - discriminate.
  - intros [c' Hc']. discriminate.
Qed.

(** The bins hold as many stems as the dataset has stems with a class, and
    their volumes add up to the volume of those stems. *)
Lemma aggregate_totals (t : Q) (stems : list Stem) :
  let agg := fold_left (addStem t) stems emptyAggregated in
  sumNat (List.map (fun x => length (Bin.stems x.2)) (binsOf agg))
  = length (List.filter resolvable stems)
  /\ (sumQ (List.map (fun x => Bin.totalVolume x.2) (binsOf agg))
      == sumQ (List.map stem_volume (List.filter resolvable stems)))%Q.
Proof.
  induction stems as [|s stems [IHn IHv]] using rev_ind; cbn zeta in *.
  - split; reflexivity.
  - rewrite fold_left_app. cbn [fold_left].
    set (agg := fold_left (addStem t) stems emptyAggregated) in *.
    rewrite List.filter_app, List.map_app, length_app, sumQ_app. cbn [List.filter].
    pose proof (binsOf_addStem t agg s) as Hstep. unfold resolvable at 2 4.
    destruct (resolveDbhClass (dbh s)) as [c|].
    + destruct Hstep as (rest & Hnew & Hold).
      rewrite <- IHn, <- IHv.
      rewrite (sumNat_Permutation _ _ (Permutation_map _ Hnew)).
      rewrite (sumNat_Permutation _ _ (Permutation_map _ Hold)).
      rewrite (sumQ_Permutation _ _ (Permutation_map _ Hnew)).
      rewrite (sumQ_Permutation _ _ (Permutation_map _ Hold)).
      rewrite !List.map_app, sumNat_app, sumQ_app.
      destruct (getSpecies agg (speciesCategory s) !! c) as [b|];
        unfold sumNat, sumQ, default, id;
        cbn [List.map foldr from_option snd pushStem emptyBin
             Bin.stems Bin.totalVolume length];
        rewrite ?length_app; cbn [length]; split; try lia; ring.
    + rewrite Hstep, IHn, IHv. cbn [List.map length]. unfold sumQ at 3. cbn [foldr].
      split; [lia|ring].
Qed.

Lemma elem_of_binsOf (agg : Aggregated) (sp : SpeciesCategory) (c : Z) (b : Bin.t) :
  In (sp, c, b) (binsOf agg) <-> getSpecies agg sp !! c = Some b.
Proof.
  unfold binsOf. rewrite in_flat_map. split.
  - intros (sp' & _ & Hin). apply in_map_iff in Hin as ([c' b'] & [= -> -> ->] & Hin).
    now apply list_elem_of_In, elem_of_map_to_list in Hin.
  - intros Hb. exists sp. split; [destruct sp; cbn; auto|].
    apply in_map_iff. exists (c, b). split; [reflexivity|].
    now apply list_elem_of_In, elem_of_map_to_list.
Qed.

Lemma NoDup_binsOf_keys (agg : Aggregated) :
  List.NoDup (List.map (fun x => (x.1.1, x.1.2)) (binsOf agg)).
Proof.
  assert (Hpart : forall sp (m : gmap Z Bin.t),
             List.map (fun x : SpeciesCategory * Z * Bin.t => (x.1.1, x.1.2))
                      (List.map (fun '(c, b) => (sp, c, b)) (map_to_list m))
             = List.map (pair sp) (keys m)).
  { intros sp m. rewrite List.map_map. unfold keys.
    change ((map_to_list m).*1) with (List.map fst (map_to_list m)).
    rewrite List.map_map. apply List.map_ext. now intros [c b]. }
  assert (Hnd : forall (sp : SpeciesCategory) (m : gmap Z Bin.t),
             NoDup (List.map (pair sp) (keys m))).
  { intros sp m. apply (NoDup_fmap_2 (pair sp)), NoDup_fst_map_to_list. }
  assert (Hin : forall (sp : SpeciesCategory) (m : gmap Z Bin.t) k,
             k ∈ List.map (pair sp) (keys m) -> k.1 = sp).
  { intros sp m k (c' & <- & _)%list_elem_of_In%in_map_iff. reflexivity. }
  rewrite binsOf_unfold, !List.map_app, !Hpart.
  apply NoDup_ListNoDup. rewrite !NoDup_app. repeat split; try apply Hnd.
  - intros k H1%Hin [H2%Hin|H2%Hin]%elem_of_app; congruence.
  - intros k H1%Hin H2%Hin. congruence.
Qed.

(** ** Pricing Engine *)

Section CalculationFacts.

Variable sqrt : Q -> Q.
Variable params : CalculationParams.
Variable speciesDivisors : SpeciesDivisors.
Variable legacyPrices : list LegacyPriceEntry.

Local Abbreviation rowOf' := (rowOf sqrt params speciesDivisors).
Local Abbreviation baseResults' := (baseResults sqrt params speciesDivisors).

Lemma rowsOfSpecies_Permutation (agg : Aggregated) (sp : SpeciesCategory) :
  rowsOfSpecies sqrt params speciesDivisors agg sp
  ≡ₚ List.map (fun '(c, b) => rowOf' sp c b) (map_to_list (getSpecies agg sp)).
Proof.
  unfold rowsOfSpecies. cbn zeta. rewrite sortBy_Permutation. unfold keys.
  assert (Hl : forall c b, (c, b) ∈ map_to_list (getSpecies agg sp) ->
                           getSpecies agg sp !! c = Some b).
  { intros c b. apply elem_of_map_to_list. }
  induction (map_to_list (getSpecies agg sp)) as [|[c b] l IH]; [reflexivity|].
  cbn [fmap list_fmap fst flat_map List.map].
  rewrite (Hl c b) by left. cbn [app]. apply Permutation_skip, IH.
  intros c' b' Hin. apply Hl. now right.
Qed.

Lemma baseResults_Permutation (agg : Aggregated) :
  baseResults' agg ≡ₚ List.map (fun x => rowOf' x.1.1 x.1.2 x.2) (binsOf agg).
Proof.
  unfold baseResults. rewrite sortBy_Permutation, binsOf_unfold.
  cbn [flat_map SUPPORTED_SPECIES]. rewrite app_nil_r, !List.map_app, !List.map_map.
  rewrite !rowsOfSpecies_Permutation. cbn [getSpecies].
  repeat apply Permutation_app; apply Permutation_refl'; apply List.map_ext;
    now intros [c b].
Qed.

Lemma elem_of_baseResults (agg : Aggregated) (row : ResultRow.t) :
  row ∈ baseResults' agg
  <-> exists sp c b, getSpecies agg sp !! c = Some b /\ row = rowOf' sp c b.
Proof.
  rewrite baseResults_Permutation, list_elem_of_In, in_map_iff. split.
  - intros ([[sp c] b] & <- & Hin%elem_of_binsOf). eauto.
  - intros (sp & c & b & Hb%elem_of_binsOf & ->). now exists (sp, c, b).
Qed.

Lemma calculateResults_rows (stems : list Stem) :
  producedRows sqrt params speciesDivisors legacyPrices stems
  = match stems with
    | [] => []
    | _ => baseResults' (fold_left (addStem (Qmin (maxPerTreeTime params) 30)) stems
                                   emptyAggregated)
    end.
Proof. destruct stems; reflexivity. Qed.

End CalculationFacts.

(** With the initial settings (stand removal 280, k1 = 1, k2 = 0.73,
    c11 = 11.45, forwarding rate 1500, skidding distance 300) the forwarding
    cost is about 47.87 per cubic metre. *)
Example forwarding_cost_initial :
  (47.86 < forwardingCost sqrtApprox initialParams
   /\ forwardingCost sqrtApprox initialParams < 47.87)%Q.
Proof. split; reflexivity. Qed.

Lemma members_resolvable (sp : SpeciesCategory) (c : Z) (stems : list Stem) (s : Stem) :
  s ∈ members sp c stems -> s ∈ stems /\ resolvable s = true.
Proof.
  unfold members. rewrite list_elem_of_In, List.filter_In, inBin_true, <- list_elem_of_In.
  intros [Hin [_ Hc]]. split; [exact Hin|]. apply resolvable_true. eauto.
Qed.

(** C2.  In every dataset the stem counts of the rows a run produces add up
    to the number of stems whose diameter resolves to a class.  The rows
    have distinct (species, class) keys; a row counts exactly the stems of
    the dataset that have its species and resolve to its class, and its bin
    holds exactly those; every stem with a class has its row.  So a stem
    with a class is counted once, in the one row of its species and class,
    and a stem without a class in none.  The totals of both models count
    the stems with a class and the volume of those stems only. *)
Theorem stems_counted_once (sqrt : Q -> Q) (params : CalculationParams)
    (speciesDivisors : SpeciesDivisors) (legacyPrices : list LegacyPriceEntry)
    (stems : list Stem) :
  let rows := producedRows sqrt params speciesDivisors legacyPrices stems in
  sumNat (List.map ResultRow.stems rows) = length (List.filter resolvable stems)
  /\ NoDup (List.map rowKey rows)
  /\ (forall row, row ∈ rows ->
        ResultRow.stems row
        = length (members (ResultRow.species row) (ResultRow.dbhClass row) stems))
  /\ (forall s, s ∈ stems -> resolvable s = true ->
        exists row, row ∈ rows
                    /\ ResultRow.species row = speciesCategory s
                    /\ resolveDbhClass (dbh s) = Some (ResultRow.dbhClass row))
  /\ (forall agg sp c b,
        aggregateBySpeciesAndDbh params stems = Some agg ->
        getSpecies agg sp !! c = Some b ->
        Bin.stems b = members sp c stems)
  /\ match calculateResults sqrt params speciesDivisors legacyPrices stems with
     | Some out =>
         let new := CalculationOutput.newTotals out in
         let old := CalculationOutput.oldModelSummary out in
         NewTotals.totalStems new = length (List.filter resolvable stems)
         /\ LegacyTotals.totalStems old = length (List.filter resolvable stems)
         /\ (NewTotals.totalVolume new
             == sumQ (List.map stem_volume (List.filter resolvable stems)))%Q
         /\ (LegacyTotals.totalVolume old
             == sumQ (List.map stem_volume (List.filter resolvable stems)))%Q
     | None => stems = []
     end.
Proof.
  cbn zeta. rewrite calculateResults_rows.
  destruct stems as [|s0 stems0] eqn:Hstems.
  { cbn. repeat split; try constructor.
    - intros row Hrow. inversion Hrow.
    - intros s Hs. inversion Hs.
    - discriminate. }
  rewrite <- Hstems. set (t := Qmin (maxPerTreeTime params) 30).
  set (agg := fold_left (addStem t) stems emptyAggregated).
  assert (Hagg : aggregateBySpeciesAndDbh params stems = Some agg) by (now subst stems).
  destruct (aggregate_totals t stems) as [Hn Hv]. cbn zeta in Hn, Hv. fold agg in Hn, Hv.
  pose proof (baseResults_Permutation sqrt params speciesDivisors agg) as Hperm.
  assert (Hsum : sumNat (List.map ResultRow.stems (baseResults sqrt params speciesDivisors agg))
                 = length (List.filter resolvable stems)).
  { rewrite (sumNat_Permutation _ _ (Permutation_map _ Hperm)).
    rewrite List.map_map. exact Hn. }
  assert (Hvol : (sumQ (List.map ResultRow.totalVolume
                                 (baseResults sqrt params speciesDivisors agg))
                  == sumQ (List.map stem_volume (List.filter resolvable stems)))%Q).
  { rewrite (sumQ_Permutation _ _ (Permutation_map _ Hperm)).
    rewrite List.map_map. exact Hv. }
  split; [exact Hsum|]. split; [|split; [|split; [|split]]].
  - rewrite (Permutation_map rowKey Hperm), List.map_map.
    apply NoDup_ListNoDup, NoDup_binsOf_keys.
  - intros row (sp & c & b & Hb & ->)%elem_of_baseResults.
    subst agg. rewrite aggregate_lookup in Hb.
    apply binOf_Some in Hb as (Hs & _). cbn. now rewrite Hs.
  - intros s Hs (c & Hc)%resolvable_true.
    assert (Hmem : In s (members (speciesCategory s) c stems)).
    { apply List.filter_In. split; [now apply list_elem_of_In|]. now apply inBin_true. }
    destruct (binOf t (members (speciesCategory s) c stems)) as [b|] eqn:Hb.
    + exists (rowOf sqrt params speciesDivisors (speciesCategory s) c b).
      split; [|split; [reflexivity|exact Hc]].
      apply elem_of_baseResults. exists (speciesCategory s), c, b.
      split; [|reflexivity]. subst agg. now rewrite aggregate_lookup.
    + unfold binOf in Hb. destruct (members _ _ _); [destruct Hmem|discriminate].
  - intros agg' sp c b Hagg' Hb.
    assert (agg' = agg) as -> by congruence.
    subst agg. rewrite aggregate_lookup in Hb. now apply binOf_Some in Hb as (Hs & _).
  - unfold calculateResults. rewrite Hagg. cbn zeta.
    cbn [CalculationOutput.newTotals CalculationOutput.oldModelSummary
         NewTotals.totalStems LegacyTotals.totalStems
         NewTotals.totalVolume LegacyTotals.totalVolume].
    rewrite fold_left_sumNat, fold_left_sumQ, Hsum, Hvol.
    repeat split; try reflexivity; ring.
Qed.

(** Two spruces of 150 mm and a pine without diameter: one row, for the
    two spruces; the pine is counted nowhere. *)
Lemma stems_counted_once_witness :
  sumNat (List.map ResultRow.stems
                   (producedRows sqrtApprox initialParams spruceOnlyDivisors
                                 initialLegacyPrices [spruce150; pineNoDbh; spruce150]))
  = 2%nat
  /\ List.map rowKey
              (producedRows sqrtApprox initialParams spruceOnlyDivisors
                            initialLegacyPrices [spruce150; pineNoDbh; spruce150])
     = [(Gran, 160)].
Proof.
  split; [|reflexivity].
  exact (proj1 (stems_counted_once sqrtApprox initialParams spruceOnlyDivisors
                  initialLegacyPrices [spruce150; pineNoDbh; spruce150])).
Defined.

(** The rows of a run are the rows of the bins of its aggregate. *)
Lemma producedRows_inv (sqrt : Q -> Q) (params : CalculationParams)
    (speciesDivisors : SpeciesDivisors) (legacyPrices : list LegacyPriceEntry)
    (stems : list Stem) (row : ResultRow.t) :
  row ∈ producedRows sqrt params speciesDivisors legacyPrices stems ->
  exists sp c b,
    binOf (Qmin (maxPerTreeTime params) 30) (members sp c stems) = Some b
    /\ row = rowOf sqrt params speciesDivisors sp c b.
Proof.
  rewrite calculateResults_rows. destruct stems as [|s0 stems0] eqn:Hstems.
  - intros Hrow. inversion Hrow.
  - rewrite <- Hstems. intros (sp & c & b & Hb & ->)%elem_of_baseResults.
    rewrite aggregate_lookup in Hb. eauto.
Qed.



Lemma indexOf_lookup {A} `{EqDecision A} (l : list A) (x : A) (i : nat) :
  indexOf l x = Some i -> l !! i = Some x.
Proof.
  revert i. induction l as [|y l IH]; intros i; cbn; [discriminate|].
  destruct (decide (y = x)) as [->|_].
  - now intros [= <-].
  - destruct (indexOf l x) as [j|]; [|discriminate].
    intros [= <-]. now apply IH.
Qed.



Lemma resolveDbhClass_Qeq (d d' : Q) :
  (d == d')%Q -> resolveDbhClass (Some (Finite d)) = resolveDbhClass (Some (Finite d')).
Proof.
  intros Heq. unfold resolveDbhClass. cbn [isFinite negb orb number_leb ofZ].
  rewrite Heq. destruct (Qle_bool d' (inject_Z 0)); [reflexivity|].
  replace (List.find (fun threshold => Qle_bool d (inject_Z threshold)) DBH_CLASSES)
    with (List.find (fun threshold => Qle_bool d' (inject_Z threshold)) DBH_CLASSES);
    [reflexivity|].
  induction DBH_CLASSES as [|t l IH]; [reflexivity|].
  cbn [List.find]. now rewrite IH, Heq.
Qed.

(** C1.  A dataset of one stem of diameter 150 mm and volume 0.8 m3, whose
    species name maps to the spruce category, with the divisor 20 for
    spruce in the class 160 (index 4) and a harvesting cost rate of 1800:
    the run produces one row, for spruce and the class 160, with price per
    cubic metre 90 and total price 72. *)
Theorem spruce_scenario (sqrt : Q -> Q) (params : CalculationParams)
    (speciesDivisors : SpeciesDivisors) (legacyPrices : list LegacyPriceEntry)
    (stem : Stem) (diameter divisor : Q) :
  speciesCategory stem = mapSpeciesNameToCategory (speciesName stem) ->
  mapSpeciesNameToCategory (speciesName stem) = Gran ->
  dbh stem = Some (Finite diameter) ->
  (diameter == 150)%Q ->
  (stem_volume stem == 0.8)%Q ->
  getSpecies speciesDivisors Gran !! 4%nat = Some (Some divisor) ->
  (divisor == 20)%Q ->
  (harvestingCostRate params == 1800)%Q ->
  exists row,
    producedRows sqrt params speciesDivisors legacyPrices [stem] = [row]
    /\ ResultRow.species row = Gran
    /\ ResultRow.dbhClass row = 160
    /\ ResultRow.stems row = 1%nat
    /\ (ResultRow.totalVolume row == 0.8)%Q
    /\ (ResultRow.pricePerCubicMeter row == 90)%Q
    /\ (ResultRow.totalPrice row == 72)%Q.
Proof.
  intros Hcat Hgran Hdbh Hd Hvol Hdiv Hdivisor Hrate.
  rewrite Hgran in Hcat.
  assert (Hclass : resolveDbhClass (dbh stem) = Some 160).
  { rewrite Hdbh, (resolveDbhClass_Qeq _ _ Hd). reflexivity. }
  set (t := Qmin (maxPerTreeTime params) 30).
  set (b := Bin.mk [stem] (0 + t)%Q (0 + stem_volume stem)%Q).
  assert (Hagg : fold_left (addStem t) [stem] emptyAggregated
                 = mkBySpecies ∅ {[160 := b]} ∅).
  { cbn [fold_left]. unfold addStem. rewrite Hclass, Hcat. reflexivity. }
  assert (Hrows : producedRows sqrt params speciesDivisors legacyPrices [stem]
                  = [rowOf sqrt params speciesDivisors Gran 160 b]).
  { rewrite calculateResults_rows. fold t. rewrite Hagg.
    unfold baseResults, rowsOfSpecies, keys.
    cbn [flat_map SUPPORTED_SPECIES getSpecies ofTall ofGran ofLov].
    rewrite map_to_list_empty, map_to_list_singleton.
    cbn [fmap list_fmap fst sortBy foldr insertBy flat_map app].
    rewrite lookup_singleton_eq. reflexivity. }
  exists (rowOf sqrt params speciesDivisors Gran 160 b).
  split; [exact Hrows|].
  cbn [rowOf ResultRow.species ResultRow.dbhClass ResultRow.stems ResultRow.totalVolume
       ResultRow.pricePerCubicMeter ResultRow.totalPrice b Bin.stems Bin.totalVolume length].
  assert (Hprice : (priceFor params (divisorFor speciesDivisors Gran 160) == 90)%Q).
  { unfold divisorFor. change (indexOf DBH_CLASSES 160) with (Some 4%nat).
    cbv beta iota. rewrite Hdiv. cbn [mbind option_bind id priceFor].
    replace (Qltb 0 divisor) with true.
    - rewrite Hrate, Hdivisor. reflexivity.
    - symmetry. apply Qltb_lt. rewrite Hdivisor. reflexivity. }
  repeat split; try reflexivity.
  - rewrite Hvol. ring.
  - exact Hprice.
  - rewrite Hprice, Hvol. reflexivity.
Qed.

(** The scenario on concrete data: the stem [spruce150], whose name is
    "Gran", the default settings and the divisor table with the single
    entry 20. *)
Lemma spruce_scenario_witness :
  exists row,
    producedRows sqrtApprox initialParams spruceOnlyDivisors initialLegacyPrices
                 [spruce150] = [row]
    /\ ResultRow.species row = Gran
    /\ ResultRow.dbhClass row = 160
    /\ ResultRow.stems row = 1%nat
    /\ (ResultRow.totalVolume row == 0.8)%Q
    /\ (ResultRow.pricePerCubicMeter row == 90)%Q
    /\ (ResultRow.totalPrice row == 72)%Q.
Proof.
  apply (spruce_scenario sqrtApprox initialParams spruceOnlyDivisors initialLegacyPrices
           spruce150 150 20); reflexivity.
Defined.

(** ** Legacy nearest-volume lookup *)




(** ** Legacy Price Table Importer *)

(** An attempt either leaves the state alone or writes one positive price
    at the index and marks it. *)
Lemma attemptAssign_cases (st : Pass.t) (i : nat) (tok : option string) :
  attemptAssign st i tok = st
  \/ exists e t,
       Pass.next st !! i = Some e /\ tok = Some t
       /\ (0 < parseNumber (Some t))%Q
       /\ attemptAssign st i tok
          = Pass.mk (<[i := mkEntry (averageVolume e) (parseNumber (Some t))]> (Pass.next st))
                    ({[i]} ∪ Pass.assigned st) (Pass.fallbackIndex st) true.
Proof.
  unfold attemptAssign. destruct (Pass.next st !! i) as [e|]; [|now left].
  destruct tok as [[|a t]|]; [now left| |now left].
  destruct (Qltb 0 (parseNumber (Some (String a t)))) eqn:Hpos; [|now left].
  right. exists e, (String a t). apply Qltb_lt in Hpos. auto.
Qed.

Lemma attemptAssign_cursor (st : Pass.t) (i : nat) (tok : option string) :
  Pass.fallbackIndex (attemptAssign st i tok) = Pass.fallbackIndex st.
Proof.
  destruct (attemptAssign_cases st i tok) as [->|(e & t & _ & _ & _ & ->)]; reflexivity.
Qed.

Lemma attemptAssign_other (st : Pass.t) (i k : nat) (tok : option string) :
  k <> i ->
  Pass.next (attemptAssign st i tok) !! k = Pass.next st !! k
  /\ (k ∈ Pass.assigned (attemptAssign st i tok) <-> k ∈ Pass.assigned st).
Proof.
  intros Hk.
  destruct (attemptAssign_cases st i tok) as [->|(e & t & _ & _ & _ & ->)]; [easy|].
  cbn. split.
  - now apply list_lookup_insert_ne.
  - rewrite elem_of_union, elem_of_singleton. tauto.
Qed.

Lemma attemptAssign_nonpositive (st : Pass.t) (i : nat) (t : string) :
  (parseNumber (Some t) <= 0)%Q -> attemptAssign st i (Some t) = st.
Proof.
  intros Hle. unfold attemptAssign. destruct (Pass.next st !! i); [|reflexivity].
  destruct t; [reflexivity|]. apply Qltb_ge in Hle. now rewrite Hle.
Qed.

(** The loop over the filled indices stops at the first index, from the
    cursor on, that is outside the table or not filled. *)
Lemma skipAssigned_spec (fuel len : nat) (assigned : gset nat) (i : nat) :
  (len - i <= fuel)%nat ->
  let i' := skipAssigned fuel len assigned i in
  (i <= i')%nat
  /\ ((len <= i')%nat \/ i' ∉ assigned)
  /\ (forall k, (i <= k < i')%nat -> k ∈ assigned /\ (k < len)%nat).
Proof.
  revert i. induction fuel as [|fuel IH]; intros i Hfuel; cbn zeta in *; cbn [skipAssigned].
  - split; [lia|]. split; [left; lia|]. intros k Hk. lia.
  - destruct (i <? len)%nat eqn:Hlt; cbn [andb].
    + apply Nat.ltb_lt in Hlt. destruct (bool_decide (i ∈ assigned)) eqn:Hin.
      * apply bool_decide_eq_true in Hin.
        destruct (IH (S i)) as (Hle & Hstop & Hskip); [lia|].
        split; [lia|]. split; [exact Hstop|].
        intros k Hk. destruct (decide (k = i)) as [->|]; [auto|]. apply Hskip. lia.
      * apply bool_decide_eq_false in Hin.
        split; [lia|]. split; [now right|]. intros k Hk. lia.
    + apply Nat.ltb_ge in Hlt. split; [lia|]. split; [now left|]. intros k Hk. lia.
Qed.

Lemma cursorTarget_spec (st : Pass.t) :
  (Pass.fallbackIndex st <= cursorTarget st)%nat
  /\ ((cursorTarget st < length (Pass.next st))%nat -> cursorTarget st ∉ Pass.assigned st).
Proof.
  unfold cursorTarget.
  destruct (skipAssigned_spec (length (Pass.next st) - Pass.fallbackIndex st)
              (length (Pass.next st)) (Pass.assigned st) (Pass.fallbackIndex st))
    as (Hle & Hstop & _); [lia|]. cbn zeta in *.
  split; [exact Hle|]. intros Hlt. destruct Hstop as [Hge|Hnot]; [lia|exact Hnot].
Qed.


Lemma trim_empty_tokens (rawLine : string) :
  isEmpty (trim rawLine) = true -> lineTokens rawLine = [].
Proof.
  unfold lineTokens. destruct (trim rawLine); [reflexivity|discriminate].
Qed.

(** What the loop does with a positional line. *)
Lemma processLine_positional (st : Pass.t) (rawLine : string) :
  positional rawLine ->
  processLine st rawLine
  = if (length (Pass.next st) <=? cursorTarget st)%nat
    then setFallbackIndex st (cursorTarget st)
    else attemptAssign (setFallbackIndex st (S (cursorTarget st))) (cursorTarget st)
                       (last (lineTokens rawLine)).
Proof.
  intros [Htokens Hmatch]. unfold processLine. fold (lineTokens rawLine).
  destruct (isEmpty (trim rawLine)) eqn:Hempty.
  { apply trim_empty_tokens in Hempty. congruence. }
  rewrite Hmatch. destruct (lineTokens rawLine) as [|t ts] eqn:Hts; [congruence|].
  fold (cursorTarget st).
  destruct (length (Pass.next st) <=? cursorTarget st)%nat eqn:Hlen; [reflexivity|].
  apply Nat.leb_gt in Hlen. unfold finishLine.
  rewrite bool_decide_eq_false_2; [reflexivity|].
  cbn [setFallbackIndex Pass.assigned]. now apply cursorTarget_spec.
Qed.

Lemma processLine_cursor_mono (st : Pass.t) (rawLine : string) :
  (Pass.fallbackIndex st <= Pass.fallbackIndex (processLine st rawLine))%nat.
Proof.
  unfold processLine. destruct (isEmpty (trim rawLine)); [lia|].
  destruct (numericTokensForLine (trim rawLine)) as [|t ts]; [lia|].
  destruct (matchVolumeToken (t :: ts)) as [[i v]|].
  - unfold finishLine. rewrite attemptAssign_cursor. lia.
  - fold (cursorTarget st). pose proof (cursorTarget_spec st) as [Hle _].
    destruct (length (Pass.next st) <=? cursorTarget st)%nat; [exact Hle|].
    unfold finishLine. rewrite attemptAssign_cursor. cbn. lia.
Qed.

Lemma importLines_cursor_mono (lines : list string) (st : Pass.t) :
  (Pass.fallbackIndex st <= Pass.fallbackIndex (fold_left processLine lines st))%nat.
Proof.
  revert st. induction lines as [|l lines IH]; intros st; cbn [fold_left]; [lia|].
  etransitivity; [apply (processLine_cursor_mono st l)|apply IH].
Qed.

(** A positional line leaves every index below the cursor as it is. *)
Lemma positional_below_cursor (st : Pass.t) (rawLine : string) (k : nat) :
  positional rawLine ->
  (k < Pass.fallbackIndex st)%nat ->
  Pass.next (processLine st rawLine) !! k = Pass.next st !! k
  /\ (k ∈ Pass.assigned (processLine st rawLine) <-> k ∈ Pass.assigned st).
Proof.
  intros Hpos Hk. rewrite (processLine_positional st rawLine Hpos).
  pose proof (cursorTarget_spec st) as [Hle _].
  destruct (length (Pass.next st) <=? cursorTarget st)%nat; [easy|].
  apply (attemptAssign_other (setFallbackIndex st (S (cursorTarget st)))). lia.
Qed.

(** C10.  A positional line (tokens, none on a breakpoint) that the cursor
    places at an index of the table, and whose last token parses to a value
    that is not positive: nothing is committed (table, filled indices and
    flag stay as they were, and the index is not among the filled ones),
    yet the cursor has moved past the index.  Whatever lines follow in the
    pass, the cursor stays past the index, and no positional line among
    them changes the entry at the index or marks it as filled. *)
Theorem nonpositive_positional_line_skips (st : Pass.t) (rawLine : string) (token : string) :
  positional rawLine ->
  last (lineTokens rawLine) = Some token ->
  (parseNumber (Some token) <= 0)%Q ->
  (cursorTarget st < length (Pass.next st))%nat ->
  let index := cursorTarget st in
  let st' := processLine st rawLine in
  Pass.next st' = Pass.next st
  /\ Pass.assigned st' = Pass.assigned st
  /\ Pass.updated st' = Pass.updated st
  /\ (index ∉ Pass.assigned st')
  /\ Pass.fallbackIndex st' = S index
  /\ forall (later : list string) (line : string),
       let before := fold_left processLine later st' in
       (index < Pass.fallbackIndex before)%nat
       /\ (positional line ->
           Pass.next (processLine before line) !! index = Pass.next before !! index
           /\ (index ∈ Pass.assigned (processLine before line)
               <-> index ∈ Pass.assigned before)).
Proof.
  intros Hpos Hlast Hval Hlen index st'.
  assert (Hst' : st' = setFallbackIndex st (S index)).
  { subst st' index. rewrite (processLine_positional st rawLine Hpos).
    apply Nat.leb_gt in Hlen. rewrite Hlen, Hlast.
    now apply attemptAssign_nonpositive. }
  rewrite Hst'. cbn [setFallbackIndex Pass.next Pass.assigned Pass.updated Pass.fallbackIndex].
  repeat split.
  - now apply cursorTarget_spec.
  - pose proof (importLines_cursor_mono later (setFallbackIndex st (S index))) as Hmono.
    cbn [setFallbackIndex Pass.fallbackIndex] in Hmono. lia.
  - apply positional_below_cursor; [assumption|].
    pose proof (importLines_cursor_mono later (setFallbackIndex st (S index))) as Hmono.
    cbn [setFallbackIndex Pass.fallbackIndex] in Hmono. lia.
  - apply positional_below_cursor; [assumption|].
    pose proof (importLines_cursor_mono later (setFallbackIndex st (S index))) as Hmono.
    cbn [setFallbackIndex Pass.fallbackIndex] in Hmono. lia.
  - apply positional_below_cursor; [assumption|].
    pose proof (importLines_cursor_mono later (setFallbackIndex st (S index))) as Hmono.
    cbn [setFallbackIndex Pass.fallbackIndex] in Hmono. lia.
Qed.

(** After the line "110" has filled index 0, the line "0" is placed at
    index 1 and commits nothing; the cursor moves to 2, and a following
    line "115" lands at index 2. *)
Lemma nonpositive_positional_line_skips_witness :
  Pass.next (processLine (importLines ["110"%string] initialLegacyPrices) "0")
  = Pass.next (importLines ["110"%string] initialLegacyPrices)
  /\ Pass.fallbackIndex (processLine (importLines ["110"%string] initialLegacyPrices) "0")
     = 2%nat
  /\ (price <$> Pass.next (importLines ["110"; "0"; "115"]%string initialLegacyPrices) !! 1%nat)
     = Some 0%Q
  /\ (1 ∈ Pass.assigned (importLines ["110"; "0"; "115"]%string initialLegacyPrices)
      <-> 1 ∈ Pass.assigned (importLines ["110"; "0"]%string initialLegacyPrices))%nat.
Proof.
  assert (Hpos : positional "0") by (split; [discriminate|reflexivity]).
  assert (Hpos' : positional "115") by (split; [discriminate|reflexivity]).
  assert (Hlen : (cursorTarget (importLines ["110"%string] initialLegacyPrices)
                  < length (Pass.next (importLines ["110"%string] initialLegacyPrices)))%nat)
    by (vm_compute; lia).
  destruct (nonpositive_positional_line_skips
              (importLines ["110"%string] initialLegacyPrices) "0" "0"
              Hpos eq_refl ltac:(discriminate) Hlen)
    as (Hnext & _ & _ & _ & Hcursor & Hlater).
  split; [exact Hnext|]. split; [exact Hcursor|]. split; [reflexivity|].
  exact (proj2 (proj2 (Hlater [] "115"%string) Hpos')).
Defined.


Lemma attemptAssign_commit (st : Pass.t) (i : nat) (e : LegacyPriceEntry) (t : string) :
  Pass.next st !! i = Some e ->
  (0 < parseNumber (Some t))%Q ->
  attemptAssign st i (Some t)
  = Pass.mk (<[i := mkEntry (averageVolume e) (parseNumber (Some t))]> (Pass.next st))
            ({[i]} ∪ Pass.assigned st) (Pass.fallbackIndex st) true.
Proof.
  intros He Hpos. unfold attemptAssign. rewrite He.
  destruct t as [|a t]; [discriminate Hpos|].
  apply Qltb_lt in Hpos. now rewrite Hpos.
Qed.




(** *** Blank text *)








(** The breakpoints are listed in ascending order. *)
Lemma LEGACY_AVERAGE_VOLUMES_ascending (j k : nat) (bj bk : Q) :
  (j < k)%nat ->
  LEGACY_AVERAGE_VOLUMES !! j = Some bj -> LEGACY_AVERAGE_VOLUMES !! k = Some bk ->
  (bj < bk)%Q.
Proof.
  intros Hjk Hj Hk.
  assert (Hk15 : (k < 15)%nat) by (apply lookup_lt_Some in Hk; exact Hk).
  do 15 (destruct k as [|k]; [
    do 15 (destruct j as [|j]; [try lia; injection Hj as <-; injection Hk as <-; reflexivity|]);
    lia|]).
  lia.
Qed.




(** *** The report of the import *)

Lemma passInvariant_start (previous : list LegacyPriceEntry) :
  passInvariant previous (Pass.start previous).
Proof.
  unfold passInvariant, Pass.start. cbn. split; [reflexivity|]. split; [|split].
  - split; [discriminate|]. intros [i Hi]. now apply not_elem_of_empty in Hi.
  - intros i Hi. now apply not_elem_of_empty in Hi.
  - reflexivity.
Qed.

Lemma passInvariant_setFallbackIndex (previous : list LegacyPriceEntry) (st : Pass.t) (i : nat) :
  passInvariant previous st -> passInvariant previous (setFallbackIndex st i).
Proof. intros H. exact H. Qed.

Lemma passInvariant_attemptAssign (previous : list LegacyPriceEntry) (st : Pass.t)
    (i : nat) (tok : option string) :
  passInvariant previous st -> passInvariant previous (attemptAssign st i tok).
Proof.
  intros (Hlen & Hupd & Hfilled & Hrest).
  destruct (attemptAssign_cases st i tok) as [->|(e & t & He & -> & Hpos & ->)].
  { repeat split; auto; apply Hupd. }
  assert (Hi : (i < length (Pass.next st))%nat) by now apply lookup_lt_Some in He.
  assert (He0 : exists e0, previous !! i = Some e0 /\ averageVolume e = averageVolume e0).
  { destruct (decide (i ∈ Pass.assigned st)) as [Hin|Hnot].
    - destruct (Hfilled i Hin) as (e0 & e' & _ & Hp & Hn & Hv & _). exists e0.
      split; [exact Hp|]. congruence.
    - exists e. split; [|reflexivity]. now rewrite <- (Hrest i Hnot). }
  unfold passInvariant. cbn [Pass.next Pass.assigned Pass.updated].
  split; [now rewrite length_insert|]. split; [|split].
  - split; [|reflexivity]. intros _. exists i. apply elem_of_union. left.
    now apply elem_of_singleton.
  - intros k [->%elem_of_singleton|Hk]%elem_of_union.
    + destruct He0 as (e0 & Hp & Hv).
      exists e0, (mkEntry (averageVolume e) (parseNumber (Some t))), t.
      rewrite list_lookup_insert_eq by exact Hi. auto.
    + destruct (decide (k = i)) as [->|Hne].
      * destruct He0 as (e0 & Hp & Hv).
        exists e0, (mkEntry (averageVolume e) (parseNumber (Some t))), t.
        rewrite list_lookup_insert_eq by exact Hi. auto.
      * rewrite list_lookup_insert_ne by auto. now apply Hfilled.
  - intros k Hk. rewrite elem_of_union, elem_of_singleton in Hk.
    rewrite list_lookup_insert_ne by (intros ->; tauto). apply Hrest. tauto.
Qed.

(** A line leaves the state, moves the cursor, or moves the cursor and
    attempts one assignment. *)
Lemma processLine_shape (st : Pass.t) (rawLine : string) :
  exists fb,
    processLine st rawLine = setFallbackIndex st fb
    \/ exists i tok, processLine st rawLine = attemptAssign (setFallbackIndex st fb) i tok.
Proof.
  assert (Hsame : setFallbackIndex st (Pass.fallbackIndex st) = st) by now destruct st.
  unfold processLine. destruct (isEmpty (trim rawLine)).
  { exists (Pass.fallbackIndex st). now left. }
  destruct (numericTokensForLine (trim rawLine)) as [|t ts].
  { exists (Pass.fallbackIndex st). now left. }
  destruct (matchVolumeToken (t :: ts)) as [[i v]|].
  - exists (Pass.fallbackIndex st). right. rewrite Hsame. unfold finishLine. eauto.
  - fold (cursorTarget st).
    destruct (length (Pass.next st) <=? cursorTarget st)%nat.
    + exists (cursorTarget st). now left.
    + exists (S (cursorTarget st)). right. unfold finishLine. eauto.
Qed.

Lemma passInvariant_importLines (lines : list string) (previous : list LegacyPriceEntry) :
  passInvariant previous (importLines lines previous).
Proof.
  unfold importLines.
  assert (Hfold : forall st, passInvariant previous st ->
                             passInvariant previous (fold_left processLine lines st)).
  { induction lines as [|l lines IH]; intros st Hst; cbn [fold_left]; [exact Hst|].
    apply IH. destruct (processLine_shape st l) as (fb & [->|(i & tok & ->)]).
    - now apply passInvariant_setFallbackIndex.
    - now apply passInvariant_attemptAssign, passInvariant_setFallbackIndex. }
  apply Hfold, passInvariant_start.
Qed.

(** A pass that fills no index returns the table it was given. *)
Lemma nothing_committed_same_table (previous : list LegacyPriceEntry) (st : Pass.t) :
  passInvariant previous st -> Pass.updated st = false -> Pass.next st = previous.
Proof.
  intros (Hlen & Hupd & _ & Hrest) Hflag. apply list_eq. intros i. apply Hrest.
  intros Hi. assert (Pass.updated st = true) by (apply Hupd; eauto). congruence.
Qed.


(** When the import has reported failure with the updater run at once, the
    Apply handler changes nothing. *)
Lemma failed_apply_changes_nothing (ui : Paste.t) :
  (V2.applyBulkPricing true (Paste.bulkPriceText ui) (Paste.legacyPrices ui)).1 = false ->
  V2.handleApplyBulkPricing true ui = ui.
Proof.
  unfold V2.handleApplyBulkPricing, V2.applyBulkPricing.
  destruct (isEmpty (trim (Paste.bulkPriceText ui))); cbn [fst andb].
  - intros _. now destruct ui.
  - intros Hflag. rewrite Hflag.
    rewrite (nothing_committed_same_table (Paste.legacyPrices ui) _
               (passInvariant_importLines _ _) Hflag).
    now destruct ui.
Qed.

(** When React leaves the updater in its queue, the flag is returned before
    the updater has set it: failure is reported whatever the pass does.
    The pasted price 110 is written to the first entry, and the import
    reports failure. *)
Lemma queued_updater_reports_failure (text : string) (previous : list LegacyPriceEntry) :
  (V2.applyBulkPricing false text previous).1 = false
  /\ (V2.applyBulkPricing false "110" initialLegacyPrices).1 = false
  /\ (price <$> (V2.applyBulkPricing false "110" initialLegacyPrices).2 !! 0%nat)
     = Some (parseNumber (Some "110"%string)).
Proof.
  split; [|split; reflexivity].
  unfold V2.applyBulkPricing. now destruct (isEmpty (trim text)).
Qed.


(** The two-column paste sets the price of the breakpoint 0.20 to 110 and
    that of 0.25 to 115, leaves the other prices at 0, and reports
    success. *)
Example paste_two_columns :
  (V2.applyBulkPricing true twoColumns initialLegacyPrices).1 = true
  /\ List.map (fun e => Qred (price e))
              (V2.applyBulkPricing true twoColumns initialLegacyPrices).2
     = [110; 115; 0; 0; 0; 0; 0; 0; 0; 0; 0; 0; 0; 0; 0]%Q.
Proof. split; reflexivity. Qed.

(** The tokens of a line: signs, decimal commas and points, and what the
    pattern leaves out. *)
Example tokens_of_line :
  numericTokensForLine "0,20 kr -3 x1.2.3 4." = ["0,20"; "-3"; "1.2"; "3"; "4"]%string.
Proof. reflexivity. Qed.

(** ** Uploads *)

Lemma fold_addFile {File : Type} (parseHPRFile : File -> option (list Stem * nat))
    (files : list File) (base : list Stem) (logs : nat) :
  (fold_left (addFile File parseHPRFile) files (base, logs)).1
  = base ++ flat_map (stemsOfFile parseHPRFile) files.
Proof.
  revert base logs. induction files as [|f files IH]; intros base logs; cbn [fold_left flat_map].
  - now rewrite app_nil_r.
  - unfold addFile at 2, stemsOfFile at 1. destruct (parseHPRFile f) as [[fileStems logCount]|].
    + cbn [fst snd]. now rewrite IH, app_assoc.
    + now rewrite IH.
Qed.

Lemma V1_processFiles_stems {File : Type} (parseHPRFile : File -> option (list Stem * nat))
    (files : list File) (st : Upload1.t) :
  Upload1.stems (V1.processFiles File parseHPRFile files st)
  = flat_map (stemsOfFile parseHPRFile) files.
Proof.
  unfold V1.processFiles.
  pose proof (fold_addFile parseHPRFile files [] O) as Hfold.
  destruct (fold_left _ files ([], O)) as [allStems totalLogCount].
  cbn [fst app] in Hfold. subst allStems.
  now destruct (isNil _).
Qed.

Lemma V2_processFiles_stems {File : Type} (parseHPRFile : File -> option (list Stem * nat))
    (files : list File) (append : option bool) (st : Upload2.t) :
  files <> [] ->
  Upload2.stems (V2.processFiles File parseHPRFile files append st)
  = (if default false append then Upload2.stems st else [])
    ++ flat_map (stemsOfFile parseHPRFile) files.
Proof.
  intros Hfiles. unfold V2.processFiles.
  destruct files as [|f files]; [congruence|]. cbn [isNil].
  set (base := if default false append
               then (Upload2.stems st, Upload2.totalLogCount st) else ([], O)).
  pose proof (fold_addFile parseHPRFile (f :: files) base.1 base.2) as Hfold.
  rewrite <- surjective_pairing in Hfold.
  destruct (fold_left _ (f :: files) base) as [combinedStems combinedLogCount].
  cbn [fst] in Hfold. subst combinedStems base.
  destruct (isNil _); cbn [Upload2.stems]; now destruct (default false append).
Qed.

(** C9, amended.  One call of [processFiles] concatenates the stems of its
    files, in order, with nothing removed, so a file that occurs twice
    among them contributes its stems twice.  In the later revision a call
    with [append] starts from the present dataset, so uploading again a
    file whose stems make up the dataset doubles them; a call without
    [append] (and every call of the earlier revision) starts from the empty
    dataset, so the upload replaces what was there. *)
Theorem uploads_concatenate {File : Type} (parseHPRFile : File -> option (list Stem * nat))
    (files : list File) (file : File) (append : option bool)
    (st1 : Upload1.t) (st2 : Upload2.t) :
  let stemsOf := stemsOfFile parseHPRFile in
  Upload1.stems (V1.processFiles File parseHPRFile files st1) = flat_map stemsOf files
  /\ (files <> [] ->
      Upload2.stems (V2.processFiles File parseHPRFile files append st2)
      = (if default false append then Upload2.stems st2 else []) ++ flat_map stemsOf files)
  /\ V2.processFiles File parseHPRFile [] append st2 = st2
  /\ Upload1.stems (V1.processFiles File parseHPRFile [file; file] st1)
     = stemsOf file ++ stemsOf file
  /\ Upload2.stems (V2.processFiles File parseHPRFile [file; file] None st2)
     = stemsOf file ++ stemsOf file
  /\ (Upload2.stems st2 = stemsOf file ->
      Upload2.stems (V2.processFiles File parseHPRFile [file] (Some true) st2)
      = stemsOf file ++ stemsOf file)
  /\ Upload2.stems (V2.processFiles File parseHPRFile [file] None st2) = stemsOf file
  /\ Upload1.stems (V1.processFiles File parseHPRFile [file] st1) = stemsOf file.
Proof.
  cbn zeta. rewrite !V1_processFiles_stems.
  split; [reflexivity|]. split; [apply V2_processFiles_stems|]. split; [reflexivity|].
  split; [cbn; now rewrite app_nil_r|].
  rewrite !V2_processFiles_stems by discriminate. cbn [default from_option id flat_map app].
  rewrite !app_nil_r. repeat split. intros ->. reflexivity.
Qed.

(** C9, the claim as stated fails: after a file with one stem has been
    uploaded, uploading the same file again without [append] leaves one
    stem in the dataset, not two, in the earlier revision and in the later
    one. *)
Lemma reupload_without_append_replaces :
  Upload1.stems (V1.processFiles unit oneSpruce [tt] (Upload1.mk [] noStatus false))
  = [spruce150]
  /\ Upload1.stems
       (V1.processFiles unit oneSpruce [tt]
          (V1.processFiles unit oneSpruce [tt] (Upload1.mk [] noStatus false)))
     = [spruce150]
  /\ Upload2.stems
       (V2.processFiles unit oneSpruce [tt] None
          (V2.processFiles unit oneSpruce [tt] None (Upload2.mk [] 0 noStatus false false)))
     = [spruce150]
  /\ Upload2.stems
       (V2.processFiles unit oneSpruce [tt] (Some true)
          (V2.processFiles unit oneSpruce [tt] None (Upload2.mk [] 0 noStatus false false)))
     = [spruce150; spruce150].
Proof. repeat split. Qed.

(** * Further properties *)

(** ** Result rows: order, groups and the price table *)

(** Inserting into a sorted list gives a sorted list, for a comparator
    that is total and transitive. *)
Lemma insertBy_sorted {A} (cmp : A -> A -> Z) (x : A) (l : list A) :
  (forall a b, cmp a b <= 0 \/ cmp b a <= 0) ->
  (forall a b c, cmp a b <= 0 -> cmp b c <= 0 -> cmp a c <= 0) ->
  StronglySorted (fun a b => cmp a b <= 0) l ->
  StronglySorted (fun a b => cmp a b <= 0) (insertBy cmp x l).
Proof.
  intros Htot Htrans. induction l as [|y l IH]; intros Hs; cbn [insertBy].
  - repeat constructor.
  - apply StronglySorted_inv in Hs as [Hs Hy].
    destruct (cmp x y <=? 0) eqn:Hc.
    + apply Z.leb_le in Hc. constructor.
      * constructor; assumption.
      * constructor; [assumption|].
        eapply Forall_impl; [exact Hy|]. intros z Hz. cbn beta in *. eauto.
    + apply Z.leb_gt in Hc. constructor; [auto|].
      rewrite (insertBy_Permutation cmp x l). constructor; [|assumption].
      destruct (Htot x y); lia.
Qed.

Lemma sortBy_sorted {A} (cmp : A -> A -> Z) (l : list A) :
  (forall a b, cmp a b <= 0 \/ cmp b a <= 0) ->
  (forall a b c, cmp a b <= 0 -> cmp b c <= 0 -> cmp a c <= 0) ->
  StronglySorted (fun a b => cmp a b <= 0) (sortBy cmp l).
Proof.
  intros Htot Htrans. induction l as [|x l IH]; cbn.
  - constructor.
  - apply insertBy_sorted; assumption.
Qed.

(** Sorting a list that is sorted already moves nothing. *)
Lemma sortBy_sorted_id {A} (cmp : A -> A -> Z) (l : list A) :
  StronglySorted (fun a b => cmp a b <= 0) l -> sortBy cmp l = l.
Proof.
  induction 1 as [|x l Hs IH Hx]; [reflexivity|].
  change (sortBy cmp (x :: l)) with (insertBy cmp x (sortBy cmp l)). rewrite IH.
  destruct l as [|y l]; [reflexivity|]. cbn [insertBy].
  apply Forall_cons in Hx as [Hxy _]. apply Z.leb_le in Hxy. rewrite Hxy. reflexivity.
Qed.

Lemma indexOfZ_species (sp : SpeciesCategory) :
  indexOfZ SUPPORTED_SPECIES sp = match sp with Tall => 0 | Gran => 1 | Lov => 2 end.
Proof. destruct sp; reflexivity. Qed.

(** The comparator of the final sort, by cases: the difference of the
    classes for one species, else the difference of the species' positions,
    which is not 0. *)
Lemma compareRows_cases (a b : ResultRow.t) :
  (ResultRow.species a = ResultRow.species b
   /\ compareRows a b = ResultRow.dbhClass a - ResultRow.dbhClass b)
  \/ (ResultRow.species a <> ResultRow.species b
      /\ compareRows a b
         = indexOfZ SUPPORTED_SPECIES (ResultRow.species a)
           - indexOfZ SUPPORTED_SPECIES (ResultRow.species b)
      /\ compareRows a b <> 0).
Proof.
  unfold compareRows. destruct (decide _) as [e|n]; [left; auto|right].
  split; [assumption|]. split; [reflexivity|].
  rewrite !indexOfZ_species.
  destruct (ResultRow.species a), (ResultRow.species b); congruence || lia.
Qed.

Lemma compareRows_total (a b : ResultRow.t) : compareRows a b <= 0 \/ compareRows b a <= 0.
Proof.
  destruct (compareRows_cases a b) as [[e ->]|[n [-> _]]],
           (compareRows_cases b a) as [[e' ->]|[n' [-> _]]]; try congruence; lia.
Qed.

Lemma compareRows_trans (a b c : ResultRow.t) :
  compareRows a b <= 0 -> compareRows b c <= 0 -> compareRows a c <= 0.
Proof.
  destruct (compareRows_cases a b) as [[e1 ->]|[n1 [-> H1]]],
           (compareRows_cases b c) as [[e2 ->]|[n2 [-> H2]]],
           (compareRows_cases a c) as [[e3 ->]|[n3 [-> H3]]];
    rewrite ?indexOfZ_species in *;
    destruct (ResultRow.species a), (ResultRow.species b), (ResultRow.species c);
    try congruence; lia.
Qed.

Lemma compareRows_before (a b : ResultRow.t) :
  compareRows a b <= 0 -> rowKey a <> rowKey b -> rowBefore a b.
Proof.
  unfold rowBefore, rowKey.
  destruct (compareRows_cases a b) as [[e ->]|[n [-> H]]]; intros Hc Hk.
  - right. split; [assumption|].
    destruct (decide (ResultRow.dbhClass a = ResultRow.dbhClass b)) as [e'|]; [|lia].
    exfalso. apply Hk. congruence.
  - left. lia.
Qed.

(** A sorted list whose keys are distinct is sorted strictly. *)
Lemma sorted_strict {A B} (R S : A -> A -> Prop) (key : A -> B) (l : list A) :
  (forall a b, R a b -> key a <> key b -> S a b) ->
  StronglySorted R l -> NoDup (List.map key l) -> StronglySorted S l.
Proof.
  intros HRS. induction 1 as [|x l Hs IH Hx]; intros Hnd; [constructor|].
  cbn [List.map] in Hnd. apply NoDup_cons in Hnd as [Hnot Hnd].
  constructor; [auto|].
  rewrite Forall_forall in Hx |- *. intros y Hy. apply HRS; [auto|].
  intros Heq. apply Hnot. rewrite Heq. apply list_elem_of_In, in_map, list_elem_of_In, Hy.
Qed.

(** The rows of a run have distinct keys. *)
Lemma producedRows_NoDup (sqrt : Q -> Q) (params : CalculationParams)
    (speciesDivisors : SpeciesDivisors) (legacyPrices : list LegacyPriceEntry)
    (stems : list Stem) :
  NoDup (List.map rowKey (producedRows sqrt params speciesDivisors legacyPrices stems)).
Proof.
  rewrite calculateResults_rows. destruct stems as [|s stems]; [constructor|].
  set (agg := fold_left _ _ _).
  rewrite (baseResults_Permutation sqrt params speciesDivisors agg).
  rewrite List.map_map. cbn [rowKey rowOf ResultRow.species ResultRow.dbhClass].
  apply NoDup_ListNoDup, NoDup_binsOf_keys.
Qed.

(** The rows of a run are sorted by species, then class. *)
Lemma producedRows_sorted (sqrt : Q -> Q) (params : CalculationParams)
    (speciesDivisors : SpeciesDivisors) (legacyPrices : list LegacyPriceEntry)
    (stems : list Stem) :
  StronglySorted rowBefore (producedRows sqrt params speciesDivisors legacyPrices stems).
Proof.
  eapply (sorted_strict (fun a b => compareRows a b <= 0) rowBefore rowKey).
  - apply compareRows_before.
  - rewrite calculateResults_rows. destruct stems as [|s stems]; [constructor|].
    apply sortBy_sorted; [apply compareRows_total | apply compareRows_trans].
  - apply producedRows_NoDup.
Qed.

(** The loop that groups the rows appends, to each species, its rows in
    order. *)
Lemma grouping_fold (rows : list ResultRow.t) (grouped : BySpecies (list ResultRow.t))
    (sp : SpeciesCategory) :
  getSpecies
    (fold_left (fun grouped row =>
                  setSpecies grouped (ResultRow.species row)
                             (getSpecies grouped (ResultRow.species row) ++ [row]))
               rows grouped) sp
  = getSpecies grouped sp ++ speciesRows sp rows.
Proof.
  revert grouped. induction rows as [|row rows IH]; intros grouped; cbn [fold_left].
  - unfold speciesRows. cbn. rewrite app_nil_r. reflexivity.
  - rewrite IH, getSpecies_setSpecies. unfold speciesRows. cbn [List.filter].
    destruct (decide (ResultRow.species row = sp)) as [e|n].
    + rewrite bool_decide_true by assumption. subst sp. rewrite <- app_assoc. reflexivity.
    + rewrite bool_decide_false by assumption. reflexivity.
Qed.

Lemma resultsBySpecies_get (rows : list ResultRow.t) (sp : SpeciesCategory) :
  getSpecies (resultsBySpecies rows) sp
  = sortBy (fun a b => ResultRow.dbhClass a - ResultRow.dbhClass b) (speciesRows sp rows).
Proof.
  unfold resultsBySpecies. cbn [fold_left SUPPORTED_SPECIES].
  rewrite !getSpecies_setSpecies.
  destruct sp; cbn [decide]; repeat (destruct (decide _); try congruence);
    rewrite ?getSpecies_setSpecies; repeat (destruct (decide _); try congruence);
    rewrite grouping_fold; reflexivity.
Qed.





Lemma StronglySorted_filter_impl {A} (R S : A -> A -> Prop) (p : A -> bool) (l : list A) :
  (forall a b, p a = true -> p b = true -> R a b -> S a b) ->
  StronglySorted R l -> StronglySorted S (List.filter p l).
Proof.
  intros HRS. induction 1 as [|x l Hs IH Hx]; cbn [List.filter]; [constructor|].
  destruct (p x) eqn:Hp; [|assumption].
  constructor; [assumption|].
  rewrite Forall_forall in Hx |- *. intros y Hy.
  apply list_elem_of_In, filter_In in Hy as [Hy Hpy].
  apply HRS; auto. apply Hx, list_elem_of_In, Hy.
Qed.

Lemma StronglySorted_weaken {A} (R S : A -> A -> Prop) (l : list A) :
  (forall a b, R a b -> S a b) -> StronglySorted R l -> StronglySorted S l.
Proof.
  intros HRS. induction 1 as [|x l Hs IH Hx]; constructor; [assumption|].
  eapply Forall_impl; [exact Hx|]. auto.
Qed.

Lemma speciesRows_sorted (sqrt : Q -> Q) (params : CalculationParams)
    (speciesDivisors : SpeciesDivisors) (legacyPrices : list LegacyPriceEntry)
    (stems : list Stem) (species : SpeciesCategory) :
  StronglySorted (fun a b => ResultRow.dbhClass a < ResultRow.dbhClass b)
    (speciesRows species (producedRows sqrt params speciesDivisors legacyPrices stems)).
Proof.
  unfold speciesRows.
  eapply StronglySorted_filter_impl; [|apply producedRows_sorted].
  intros a b Ha Hb [Hlt|[_ Hlt]]; [|assumption].
  apply bool_decide_eq_true in Ha, Hb. rewrite Ha, Hb in Hlt. lia.
Qed.

(** X1.  The rows of a run are in display order: species in the order
    Tall, Gran, Löv and, within a species, strictly ascending class.  A row
    that comes earlier is before every later one in that order, and no two
    rows share a (species, class) key. *)
Theorem rows_in_display_order (sqrt : Q -> Q) (params : CalculationParams)
    (speciesDivisors : SpeciesDivisors) (legacyPrices : list LegacyPriceEntry)
    (stems : list Stem) :
  let rows := producedRows sqrt params speciesDivisors legacyPrices stems in
  StronglySorted rowBefore rows
  /\ (forall i j a b, (i < j)%nat -> rows !! i = Some a -> rows !! j = Some b ->
        rowBefore a b /\ rowKey a <> rowKey b).
Proof.
  intros rows.
  pose proof (producedRows_sorted sqrt params speciesDivisors legacyPrices stems) as Hs.
  fold rows in Hs. split; [assumption|].
  intros i j a b Hij Ha Hb.
  assert (Hab : rowBefore a b).
  { clear -Hs Hij Ha Hb. revert i j Hij Ha Hb.
    induction Hs as [|x l Hs IH Hx]; intros i j Hij Ha Hb; [discriminate|].
    destruct j as [|j]; [lia|]. cbn in Hb. destruct i as [|i].
    - cbn in Ha. injection Ha as ->. rewrite Forall_forall in Hx.
      apply Hx. eapply list_elem_of_lookup_2, Hb.
    - cbn in Ha. apply (IH i j); [lia|assumption..]. }
  split; [assumption|].
  unfold rowBefore, rowKey in *. intros Hk. injection Hk as Hsp Hc.
  rewrite Hsp, Hc in Hab. lia.
Qed.

(** X2.  [resultsBySpecies] on the rows of a run: the group of a species
    is exactly the rows of that species in the order they have in the
    result; they are already strictly ascending in class, so the sort of
    each group moves nothing.  A row is in the result exactly when it is in
    the group of some species. *)
Theorem species_groups_keep_order (sqrt : Q -> Q) (params : CalculationParams)
    (speciesDivisors : SpeciesDivisors) (legacyPrices : list LegacyPriceEntry)
    (stems : list Stem) (species : SpeciesCategory) :
  let rows := producedRows sqrt params speciesDivisors legacyPrices stems in
  getSpecies (resultsBySpecies rows) species = speciesRows species rows
  /\ StronglySorted (fun a b => ResultRow.dbhClass a < ResultRow.dbhClass b)
                    (speciesRows species rows)
  /\ (forall row, row ∈ rows <-> exists sp, row ∈ getSpecies (resultsBySpecies rows) sp).
Proof.
  intros rows.
  assert (Hget : forall sp, getSpecies (resultsBySpecies rows) sp = speciesRows sp rows).
  { intros sp. rewrite resultsBySpecies_get. apply sortBy_sorted_id.
    eapply StronglySorted_weaken; [|apply speciesRows_sorted]. cbn beta. intros; lia. }
  split; [apply Hget|]. split; [apply speciesRows_sorted|].
  intros row. split.
  - intros Hin. exists (ResultRow.species row). rewrite Hget. unfold speciesRows.
    apply list_elem_of_In, filter_In. split; [apply list_elem_of_In, Hin|].
    apply bool_decide_eq_true. reflexivity.
  - intros [sp Hin]. rewrite Hget in Hin. unfold speciesRows in Hin.
    apply list_elem_of_In, filter_In in Hin as [Hin _]. apply list_elem_of_In, Hin.
Qed.





Lemma writeAt_end {A} (hole x : A) (l : list A) : writeAt hole (length l) x l = l ++ [x].
Proof.
  unfold writeAt. rewrite (proj2 (Nat.ltb_ge _ _)) by lia.
  rewrite Nat.sub_diag. reflexivity.
Qed.

(** After the turns for the indices below [n], the table holds the
    prices of those indices, in order, for every species. *)
Lemma speciesPriceMatrix_fold (params : CalculationParams) (speciesDivisors : SpeciesDivisors)
    (n : nat) (sp : SpeciesCategory) :
  getSpecies
    (fold_left
       (fun result index =>
          fold_left
            (fun result species =>
               let divisor := getSpecies speciesDivisors species !! index ≫= id in
               let price := priceFor params divisor in
               setSpecies result species
                          (writeAt None index (Some price) (getSpecies result species)))
            SUPPORTED_SPECIES result)
       (seq 0 n) (mkBySpecies [] [] [])) sp
  = List.map (fun index => Some (priceFor params (getSpecies speciesDivisors sp !! index ≫= id)))
             (seq 0 n).
Proof.
  revert sp. induction n as [|n IH]; intros sp; [destruct sp; reflexivity|].
  rewrite seq_S, fold_left_app, List.map_app.
  set (r := fold_left _ (seq 0 n) _) in *.
  assert (Hlen : forall sp', length (getSpecies r sp') = n).
  { intros sp'. rewrite IH, List.length_map, length_seq. reflexivity. }
  rewrite <- IH.
  cbn [fold_left SUPPORTED_SPECIES List.map Nat.add]. cbn zeta.
  rewrite !getSpecies_setSpecies.
  destruct sp; repeat (destruct (decide _); try congruence);
    rewrite ?getSpecies_setSpecies; repeat (destruct (decide _); try congruence);
    match goal with
    | |- writeAt None ?i ?x ?l = _ =>
        replace i with (length l) at 1 by apply Hlen; apply writeAt_end
    end.
Qed.

Lemma speciesPriceMatrix_lookup (params : CalculationParams) (speciesDivisors : SpeciesDivisors)
    (sp : SpeciesCategory) (index : nat) :
  (index < length DBH_CLASSES)%nat ->
  getSpecies (speciesPriceMatrix params speciesDivisors) sp !! index
  = Some (Some (priceFor params (getSpecies speciesDivisors sp !! index ≫= id))).
Proof.
  intros Hi. unfold speciesPriceMatrix. rewrite speciesPriceMatrix_fold.
  change (List.map ?f ?l) with (f <$> l). rewrite list_lookup_fmap.
  rewrite lookup_seq_lt by assumption. reflexivity.
Qed.

Lemma indexOf_elem {A} `{EqDecision A} (l : list A) (x : A) :
  x ∈ l -> exists i, indexOf l x = Some i.
Proof.
  induction l as [|y l IH]; intros Hin; [inversion Hin|].
  cbn [indexOf]. destruct (decide (y = x)); [eauto|].
  apply elem_of_cons in Hin as [->|Hin]; [congruence|].
  destruct (IH Hin) as [i ->]. eauto.
Qed.

(** The class of a row of a run is one of the classes, and the price of
    the row is the price of the divisor at the index of its class. *)
Lemma producedRows_class (sqrt : Q -> Q) (params : CalculationParams)
    (speciesDivisors : SpeciesDivisors) (legacyPrices : list LegacyPriceEntry)
    (stems : list Stem) (row : ResultRow.t) :
  row ∈ producedRows sqrt params speciesDivisors legacyPrices stems ->
  exists index,
    indexOf DBH_CLASSES (ResultRow.dbhClass row) = Some index
    /\ DBH_CLASSES !! index = Some (ResultRow.dbhClass row)
    /\ ResultRow.pricePerCubicMeter row
       = priceFor params (getSpecies speciesDivisors (ResultRow.species row) !! index ≫= id).
Proof.
  intros Hrow. apply producedRows_inv in Hrow as (sp & c & b & Hb & ->).
  cbn [rowOf ResultRow.dbhClass ResultRow.species ResultRow.pricePerCubicMeter].
  destruct (members sp c stems) as [|s l] eqn:Hm; [discriminate|].
  assert (Hs : s ∈ members sp c stems) by (rewrite Hm; left).
  unfold members in Hs. apply list_elem_of_In, filter_In in Hs as [_ Hs].
  apply inBin_true in Hs as [_ Hs].
  apply resolveDbhClass_in_classes in Hs.
  destruct (indexOf_elem DBH_CLASSES c Hs) as [i Hi].
  exists i. split; [assumption|]. split; [apply indexOf_lookup, Hi|].
  unfold divisorFor. rewrite Hi. reflexivity.
Qed.

(** X4.  The displayed price table [speciesPriceMatrix] has one entry
    per class and species and no hole; an entry is 0 or the hourly rate
    divided by a strictly positive divisor of the table; and every row of a
    run carries, as its price per cubic metre, the entry the table shows at
    the row's species and class. *)
Theorem price_table_agrees_with_rows (sqrt : Q -> Q) (params : CalculationParams)
    (speciesDivisors : SpeciesDivisors) (legacyPrices : list LegacyPriceEntry)
    (stems : list Stem) :
  let matrix := speciesPriceMatrix params speciesDivisors in
  (forall species, length (getSpecies matrix species) = length DBH_CLASSES)
  /\ (forall species index, (index < length DBH_CLASSES)%nat ->
        exists price,
          getSpecies matrix species !! index = Some (Some price)
          /\ ((price == 0)%Q
              \/ exists divisor,
                   getSpecies speciesDivisors species !! index = Some (Some divisor)
                   /\ (0 < divisor)%Q
                   /\ price = (harvestingCostRate params / divisor)%Q))
  /\ (forall row,
        row ∈ producedRows sqrt params speciesDivisors legacyPrices stems ->
        exists index,
          DBH_CLASSES !! index = Some (ResultRow.dbhClass row)
          /\ getSpecies matrix (ResultRow.species row) !! index
             = Some (Some (ResultRow.pricePerCubicMeter row))).
Proof.
  intros matrix. split; [|split].
  - intros sp. unfold matrix, speciesPriceMatrix. rewrite speciesPriceMatrix_fold.
    rewrite List.length_map, length_seq. reflexivity.
  - intros sp index Hi. eexists. split; [apply speciesPriceMatrix_lookup, Hi|].
    destruct (getSpecies speciesDivisors sp !! index) as [[d|]|] eqn:Hd; cbn;
      try (left; reflexivity).
    destruct (Qltb 0 d) eqn:Hpos; [|left; reflexivity].
    right. exists d. split; [reflexivity|]. split; [apply Qltb_lt, Hpos|reflexivity].
  - intros row Hrow.
    destruct (producedRows_class _ _ _ _ _ _ Hrow) as (i & Hi & Hl & Hp).
    exists i. split; [assumption|]. rewrite Hp.
    apply speciesPriceMatrix_lookup. eapply lookup_lt_Some, Hl.
Qed.




(** Stems without a class leave the aggregate as it is. *)
Lemma fold_addStem_unresolvable (t : Q) (stems : list Stem) (agg : Aggregated) :
  (forall s, s ∈ stems -> resolveDbhClass (dbh s) = None) ->
  fold_left (addStem t) stems agg = agg.
Proof.
  revert agg. induction stems as [|s stems IH]; intros agg Hall; [reflexivity|].
  cbn [fold_left]. unfold addStem at 2. rewrite (Hall s) by left.
  apply IH. intros s' Hs'. apply Hall. right. assumption.
Qed.

(** X6.  A dataset that is not empty but in which no stem has a diameter
    that resolves to a class still completes a run: no row, every total of
    the new model zero, and a legacy average volume, price and total of
    zero. *)
Theorem no_diameter_no_rows (sqrt : Q -> Q) (params : CalculationParams)
    (speciesDivisors : SpeciesDivisors) (legacyPrices : list LegacyPriceEntry)
    (stems : list Stem) :
  stems <> [] ->
  (forall s, s ∈ stems -> resolveDbhClass (dbh s) = None) ->
  exists out,
    calculateResults sqrt params speciesDivisors legacyPrices stems = Some out
    /\ CalculationOutput.results out = []
    /\ NewTotals.totalStems (CalculationOutput.newTotals out) = 0%nat
    /\ NewTotals.totalVolume (CalculationOutput.newTotals out) = 0%Q
    /\ NewTotals.totalPrice (CalculationOutput.newTotals out) = 0%Q
    /\ NewTotals.averagePrice (CalculationOutput.newTotals out) = 0%Q
    /\ (NewTotals.totalForwardingCost (CalculationOutput.newTotals out) == 0)%Q
    /\ (NewTotals.combinedTotal (CalculationOutput.newTotals out) == 0)%Q
    /\ LegacyTotals.averageVolume (CalculationOutput.oldModelSummary out) = 0%Q
    /\ LegacyTotals.averagePrice (CalculationOutput.oldModelSummary out) = 0%Q
    /\ (LegacyTotals.totalPrice (CalculationOutput.oldModelSummary out) == 0)%Q.
Proof.
  intros Hne Hall. unfold calculateResults, aggregateBySpeciesAndDbh.
  destruct stems as [|s stems]; [congruence|].
  rewrite fold_addStem_unresolvable by assumption.
  assert (Hb : baseResults sqrt params speciesDivisors emptyAggregated = [])
    by reflexivity.
  rewrite Hb. eexists. split; [reflexivity|].
  cbn. repeat split; try reflexivity; ring.
Qed.

Lemma no_diameter_no_rows_witness :
  exists out,
    calculateResults sqrtApprox initialParams spruceOnlyDivisors pricedLegacyTable [pineNoDbh]
    = Some out
    /\ CalculationOutput.results out = []
    /\ LegacyTotals.averagePrice (CalculationOutput.oldModelSummary out) = 0%Q.
Proof.
  destruct (no_diameter_no_rows sqrtApprox initialParams spruceOnlyDivisors pricedLegacyTable
              [pineNoDbh]) as (out & H1 & H2 & _ & _ & _ & _ & _ & _ & _ & H9 & _).
  - discriminate.
  - intros s Hs. apply list_elem_of_In in Hs. destruct Hs as [<-|[]]. reflexivity.
  - exists out. auto.
Defined.

(** In an ascending list the first threshold that a smaller diameter does
    not exceed is not larger than the one for a larger diameter. *)
Lemma find_mono (d1 d2 : Q) (l : list Z) (t2 : Z) :
  (d1 <= d2)%Q ->
  Sorted Z.lt l ->
  List.find (fun threshold => Qle_bool d2 (inject_Z threshold)) l = Some t2 ->
  exists t1, List.find (fun threshold => Qle_bool d1 (inject_Z threshold)) l = Some t1
             /\ t1 <= t2.
Proof.
  intros Hd Hs. induction l as [|t l IH]; cbn [List.find]; [discriminate|].
  apply Sorted_StronglySorted in Hs; [|intros ? ? ? ? ?; lia].
  apply StronglySorted_inv in Hs as [Hs Ht].
  destruct (Qle_bool d2 (inject_Z t)) eqn:H2.
  - intros [= <-]. apply Qle_bool_iff in H2.
    assert (H1 : Qle_bool d1 (inject_Z t) = true) by (apply Qle_bool_iff; lra).
    rewrite H1. exists t. split; [reflexivity|lia].
  - intros Hf. destruct (Qle_bool d1 (inject_Z t)) eqn:H1.
    + exists t. split; [reflexivity|].
      apply find_some in Hf as [Hin _]. rewrite Forall_forall in Ht.
      apply list_elem_of_In, Ht in Hin. lia.
    + apply IH; [apply StronglySorted_Sorted, Hs|assumption].
Qed.

(** X7.  Diameter classification is monotonic: of two diameters that
    both resolve, the larger never gets the smaller class. *)
Theorem resolveDbhClass_monotone (d1 d2 : Q) (c1 c2 : Z) :
  (d1 <= d2)%Q ->
  resolveDbhClass (Some (Finite d1)) = Some c1 ->
  resolveDbhClass (Some (Finite d2)) = Some c2 ->
  c1 <= c2.
Proof.
  intros Hd H1 H2.
  assert (P1 : (0 < d1)%Q).
  { destruct (Qlt_le_dec 0 d1) as [|Hle]; [assumption|].
    exfalso. unfold resolveDbhClass in H1. cbn [isFinite negb orb number_leb ofZ] in H1.
    change (inject_Z 0) with 0%Q in H1.
    rewrite (proj2 (Qle_bool_iff d1 0) Hle) in H1. discriminate. }
  assert (P2 : (0 < d2)%Q) by lra.
  rewrite resolveDbhClass_finite in H1, H2 by assumption.
  destruct (List.find (fun threshold => Qle_bool d2 (inject_Z threshold)) DBH_CLASSES)
    as [t2|] eqn:F2.
  - injection H2 as <-.
    destruct (find_mono d1 d2 DBH_CLASSES t2 Hd DBH_CLASSES_ascending F2) as (t1 & F1 & Hle).
    rewrite F1 in H1. injection H1 as <-. assumption.
  - injection H2 as <-.
    assert (Hin : c1 ∈ DBH_CLASSES).
    { destruct (List.find _ DBH_CLASSES) as [t1|] eqn:F1 in H1; injection H1 as <-.
      - apply find_some in F1 as [Hin _]. apply list_elem_of_In, Hin.
      - apply list_elem_of_In. cbn. tauto. }
    apply list_elem_of_In in Hin. cbn in Hin. lia.
Qed.

Lemma resolveDbhClass_monotone_witness :
  resolveDbhClass (Some (Finite 150)) = Some 160
  /\ resolveDbhClass (Some (Finite 170)) = Some 180
  /\ 160 <= 180.
Proof.
  split; [reflexivity|]. split; [reflexivity|].
  apply (resolveDbhClass_monotone 150 170 160 180); [discriminate|reflexivity..].
Defined.

(** ** Species names and the text of numbers *)

Lemma append_cons (c : ascii) (a b : string) :
  (String c a ++ b)%string = String c (a ++ b).
Proof. reflexivity. Qed.

Lemma append_assoc (a b c : string) : (a ++ b ++ c = (a ++ b) ++ c)%string.
Proof.
  induction a as [|x a IH]; [reflexivity|]. rewrite !append_cons, IH. reflexivity.
Qed.


Lemma flatMapString_app (f : ascii -> string) (a b : string) :
  flatMapString f (a ++ b) = (flatMapString f a ++ flatMapString f b)%string.
Proof.
  induction a as [|c a IH]; [reflexivity|].
  change (flatMapString f (String c a ++ b))
    with (f c ++ flatMapString f (a ++ b))%string.
  change (flatMapString f (String c a)) with (f c ++ flatMapString f a)%string.
  rewrite IH. apply append_assoc.
Qed.

Lemma normalizeSpeciesIdentifier_app (a b : string) :
  normalizeSpeciesIdentifier (a ++ b)
  = (normalizeSpeciesIdentifier a ++ normalizeSpeciesIdentifier b)%string.
Proof. unfold normalizeSpeciesIdentifier. rewrite !flatMapString_app. reflexivity. Qed.

Lemma prefix_empty (s : string) : String.prefix EmptyString s = true.
Proof. destruct s; reflexivity. Qed.

Lemma prefix_app (w b c : string) :
  String.prefix w b = true -> String.prefix w (b ++ c) = true.
Proof.
  revert w. induction b as [|y b IH]; intros w.
  - destruct w; [intros _; apply prefix_empty|discriminate].
  - rewrite append_cons. destruct w as [|x w]; [reflexivity|]. cbn [String.prefix].
    destruct (ascii_dec x y); [apply IH|discriminate].
Qed.

Lemma includes_app_r (w b c : string) :
  includes w b = true -> includes w (b ++ c) = true.
Proof.
  induction b as [|y b IH].
  - cbn [includes]. rewrite orb_false_r. intros H.
    destruct w; [|discriminate]. change (EmptyString ++ c)%string with c.
    destruct c; cbn [includes]; rewrite prefix_empty; reflexivity.
  - rewrite append_cons. cbn [includes]. intros H. apply orb_true_iff in H as [H|H].
    + rewrite <- append_cons. rewrite (prefix_app _ _ _ H). reflexivity.
    + rewrite (IH H). apply orb_true_r.
Qed.

Lemma includes_app_l (w a b : string) :
  includes w b = true -> includes w (a ++ b) = true.
Proof.
  intros H. induction a as [|x a IH]; [assumption|].
  rewrite append_cons. cbn [includes]. rewrite IH. apply orb_true_r.
Qed.

Lemma testAny_app (ws : list string) (a b c : string) :
  testAny ws b = true -> testAny ws (a ++ b ++ c) = true.
Proof.
  unfold testAny. rewrite !existsb_exists. intros (w & Hw & Hi).
  exists w. split; [assumption|]. apply includes_app_l, includes_app_r, Hi.
Qed.

(** The category, from the normalised name alone; the third test of the
    source decides nothing, both of its branches being broadleaf. *)
Lemma mapSpeciesNameToCategory_normalized (name : string) :
  mapSpeciesNameToCategory (Some name)
  = let normalized := normalizeSpeciesIdentifier name in
    if testAny ["TALL"; "PINE"; "LARK"]%string normalized then Tall
    else if testAny ["GRAN"; "SPRUCE"; "BARKBORRE"]%string normalized then Gran
    else Lov.
Proof.
  destruct name as [|c r]; [reflexivity|].
  unfold mapSpeciesNameToCategory. cbn zeta.
  repeat (destruct (testAny _ _)); reflexivity.
Qed.

(** X8.  Classification by keyword is not undone by context: a name
    classified as pine stays pine whatever text is put before or after it
    (so a pine keyword wins over any spruce keyword in the same name), a
    name classified as spruce never becomes broadleaf, and a longer name
    that is broadleaf has only broadleaf parts.  An absent or empty name is
    broadleaf. *)
Theorem species_keyword_survives_context (name before after : string) :
  let longer := (before ++ name ++ after)%string in
  (mapSpeciesNameToCategory (Some name) = Tall ->
   mapSpeciesNameToCategory (Some longer) = Tall)
  /\ (mapSpeciesNameToCategory (Some name) = Gran ->
      mapSpeciesNameToCategory (Some longer) <> Lov)
  /\ (mapSpeciesNameToCategory (Some longer) = Lov ->
      mapSpeciesNameToCategory (Some name) = Lov)
  /\ mapSpeciesNameToCategory None = Lov
  /\ mapSpeciesNameToCategory (Some EmptyString) = Lov.
Proof.
  intros longer. unfold longer.
  rewrite !mapSpeciesNameToCategory_normalized. cbn zeta.
  rewrite !normalizeSpeciesIdentifier_app.
  set (n := normalizeSpeciesIdentifier name).
  set (a := normalizeSpeciesIdentifier before). set (c := normalizeSpeciesIdentifier after).
  pose proof (testAny_app ["TALL"; "PINE"; "LARK"]%string a n c) as HT.
  pose proof (testAny_app ["GRAN"; "SPRUCE"; "BARKBORRE"]%string a n c) as HG.
  destruct (testAny ["TALL"; "PINE"; "LARK"]%string n);
    [rewrite HT by reflexivity; repeat split; congruence|].
  destruct (testAny ["GRAN"; "SPRUCE"; "BARKBORRE"]%string n);
    [rewrite HG by reflexivity|];
    destruct (testAny ["TALL"; "PINE"; "LARK"]%string (a ++ n ++ c));
    try destruct (testAny ["GRAN"; "SPRUCE"; "BARKBORRE"]%string (a ++ n ++ c));
    repeat split; congruence.
Qed.







Lemma removeWhitespace_trimStart (s : string) :
  removeWhitespace (trimStart s) = removeWhitespace s.
Proof.
  induction s as [|c s IH]; [reflexivity|]. cbn [trimStart removeWhitespace].
  destruct (isWhiteSpace c) eqn:Hc; [assumption|]. cbn [removeWhitespace]. rewrite Hc.
  reflexivity.
Qed.

Lemma removeWhitespace_list (l : list ascii) :
  removeWhitespace (string_of_list_ascii l)
  = string_of_list_ascii (List.filter (fun c => negb (isWhiteSpace c)) l).
Proof.
  induction l as [|c l IH]; [reflexivity|].
  cbn [string_of_list_ascii removeWhitespace List.filter].
  destruct (isWhiteSpace c); cbn [negb string_of_list_ascii]; rewrite IH; reflexivity.
Qed.

Lemma removeWhitespace_reverse (s : string) :
  removeWhitespace (reverse s) = reverse (removeWhitespace s).
Proof.
  unfold reverse. rewrite removeWhitespace_list.
  rewrite <- (string_of_list_ascii_of_string s) at 2.
  rewrite removeWhitespace_list, list_ascii_of_string_of_list_ascii.
  rewrite filter_rev. reflexivity.
Qed.

Lemma reverse_involutive (s : string) : reverse (reverse s) = s.
Proof.
  unfold reverse. rewrite list_ascii_of_string_of_list_ascii, rev_involutive.
  apply string_of_list_ascii_of_string.
Qed.

(** Trimming before the removal of all white space changes nothing. *)
Lemma removeWhitespace_trim (s : string) : removeWhitespace (trim s) = removeWhitespace s.
Proof.
  unfold trim.
  rewrite removeWhitespace_reverse, removeWhitespace_trimStart, removeWhitespace_reverse,
    reverse_involutive, removeWhitespace_trimStart.
  reflexivity.
Qed.

Lemma removeWhitespace_idem (s : string) :
  removeWhitespace (removeWhitespace s) = removeWhitespace s.
Proof.
  induction s as [|c s IH]; [reflexivity|]. cbn [removeWhitespace].
  destruct (isWhiteSpace c) eqn:Hc; [assumption|]. cbn [removeWhitespace]. rewrite Hc, IH.
  reflexivity.
Qed.

Lemma removeWhitespace_app (a b : string) :
  removeWhitespace (a ++ b) = (removeWhitespace a ++ removeWhitespace b)%string.
Proof.
  induction a as [|c a IH]; [reflexivity|]. rewrite append_cons. cbn [removeWhitespace].
  destruct (isWhiteSpace c); rewrite IH; reflexivity.
Qed.

(** [parseNumber], without its [trim]. *)
Lemma parseNumber_removeWhitespace (s : string) :
  parseNumber (Some s)
  = match jsNumber (replaceFirstComma (removeWhitespace s)) with
    | Some value => value
    | None => 0%Q
    end.
Proof. unfold parseNumber. cbn zeta. rewrite removeWhitespace_trim. reflexivity. Qed.

Lemma replaceFirstComma_without (s : string) :
  ","%char ∉ list_ascii_of_string s -> replaceFirstComma s = s.
Proof.
  induction s as [|c s IH]; [reflexivity|]. cbn [list_ascii_of_string replaceFirstComma].
  intros Hn. destruct (Ascii.eqb c ",") eqn:Hc.
  - apply Ascii.eqb_eq in Hc. subst c. exfalso. apply Hn. left.
  - rewrite IH; [reflexivity|]. intros Hin. apply Hn. right. assumption.
Qed.

Lemma replaceFirstComma_app (a b : string) :
  ","%char ∉ list_ascii_of_string a ->
  replaceFirstComma (a ++ b) = (a ++ replaceFirstComma b)%string.
Proof.
  induction a as [|c a IH]; [reflexivity|]. rewrite !append_cons.
  cbn [list_ascii_of_string replaceFirstComma]. intros Hn.
  destruct (Ascii.eqb c ",") eqn:Hc.
  - apply Ascii.eqb_eq in Hc. subst c. exfalso. apply Hn. left.
  - rewrite IH; [reflexivity|]. intros Hin. apply Hn. right. assumption.
Qed.

Lemma removeWhitespace_without (c : ascii) (s : string) :
  c ∉ list_ascii_of_string s -> c ∉ list_ascii_of_string (removeWhitespace s).
Proof.
  induction s as [|d s IH]; [auto|]. cbn [list_ascii_of_string removeWhitespace].
  intros Hn. assert (Hs : c ∉ list_ascii_of_string s) by (intros H; apply Hn; right; exact H).
  destruct (isWhiteSpace d); [auto|]. cbn [list_ascii_of_string].
  intros Hin. apply elem_of_cons in Hin as [->|Hin]; [apply Hn; left|exact (IH Hs Hin)].
Qed.

(** X10.  [parseNumber] ignores white space wherever it stands (removing
    all of it, trimming, or inserting one white-space character changes
    nothing) and reads one decimal comma as a decimal point: a text with a
    single comma parses as the same text with a point in its place. *)
Theorem parseNumber_ignores_layout (s : string) :
  parseNumber (Some (removeWhitespace s)) = parseNumber (Some s)
  /\ parseNumber (Some (trim s)) = parseNumber (Some s)
  /\ (forall (a b : string) (c : ascii),
        isWhiteSpace c = true ->
        parseNumber (Some (a ++ String c b)%string) = parseNumber (Some (a ++ b)%string))
  /\ (forall a b : string,
        ","%char ∉ list_ascii_of_string a -> ","%char ∉ list_ascii_of_string b ->
        parseNumber (Some (a ++ String "," b)%string)
        = parseNumber (Some (a ++ String "." b)%string)).
Proof.
  split; [|split; [|split]].
  - rewrite !parseNumber_removeWhitespace, removeWhitespace_idem. reflexivity.
  - rewrite !parseNumber_removeWhitespace, removeWhitespace_trim. reflexivity.
  - intros a b c Hc. rewrite !parseNumber_removeWhitespace, !removeWhitespace_app.
    cbn [removeWhitespace]. rewrite Hc. reflexivity.
  - intros a b Ha Hb. rewrite !parseNumber_removeWhitespace, !removeWhitespace_app.
    cbn [removeWhitespace]. change (isWhiteSpace ",") with false.
    change (isWhiteSpace ".") with false. cbv iota.
    apply (removeWhitespace_without _ _) in Ha, Hb.
    rewrite !replaceFirstComma_app by assumption.
    cbn [replaceFirstComma]. change (Ascii.eqb "," ",") with true.
    change (Ascii.eqb "." ",") with false. cbv iota.
    rewrite (replaceFirstComma_without _ Hb). reflexivity.
Qed.

(** ** Legacy table: what every writer keeps *)

(** Of two lists of one length, the second has at least as many
    elements that pass a test when, index by index, it passes where the first
    does. *)
Lemma filter_length_mono {A} (p : A -> bool) (l1 l2 : list A) :
  length l1 = length l2 ->
  (forall i a b, l1 !! i = Some a -> l2 !! i = Some b -> p a = true -> p b = true) ->
  (length (List.filter p l1) <= length (List.filter p l2))%nat.
Proof.
  revert l2. induction l1 as [|a l1 IH]; intros [|b l2] Hlen Hp; try discriminate;
    [cbn; lia|].
  cbn [List.filter]. injection Hlen as Hlen.
  specialize (IH l2 Hlen (fun i => Hp (S i))).
  pose proof (Hp O a b eq_refl eq_refl) as H0.
  destruct (p a); [rewrite H0 by reflexivity|destruct (p b)]; cbn [length]; lia.
Qed.

(** A pass over pasted lines extends the table it started from. *)
Lemma passInvariant_extends (previous : list LegacyPriceEntry) (st : Pass.t) :
  passInvariant previous st -> extendsTable previous (Pass.next st).
Proof.
  intros (Hlen & _ & Hset & Hrest).
  assert (Hpoint : forall i e0, previous !! i = Some e0 ->
             exists e, Pass.next st !! i = Some e
                       /\ averageVolume e = averageVolume e0
                       /\ (price e = price e0 \/ (0 < price e)%Q)).
  { intros i e0 H0. destruct (decide (i ∈ Pass.assigned st)) as [Hi|Hi].
    - destruct (Hset i Hi) as (e0' & e & token & H0' & He & Hv & _ & Hpos).
      exists e. rewrite H0 in H0'. injection H0' as <-. auto.
    - exists e0. rewrite (Hrest i Hi). auto. }
  split; [|split; [|assumption]].
  - apply list_eq. intros i. change (List.map ?f ?l) with (f <$> l).
    rewrite !list_lookup_fmap.
    destruct (previous !! i) as [e0|] eqn:H0.
    + destruct (Hpoint i e0 H0) as (e & -> & Hv & _). cbn. congruence.
    + apply lookup_ge_None in H0. rewrite lookup_ge_None_2 by lia. reflexivity.
  - unfold pricedCount. apply filter_length_mono; [lia|].
    intros i a b Ha Hb Hp. destruct (Hpoint i a Ha) as (e & He & _ & Hprice).
    rewrite Hb in He. injection He as <-. apply Qltb_lt. apply Qltb_lt in Hp.
    destruct Hprice as [->|]; assumption.
Qed.

Lemma extendsTable_refl (previous : list LegacyPriceEntry) : extendsTable previous previous.
Proof.
  split; [reflexivity|]. split; [lia|]. intros i e0 H0. exists e0. auto.
Qed.

Lemma setLegacyPrice_lookup (index : nat) (newPrice : Q) (prev : list LegacyPriceEntry)
    (i : nat) :
  setLegacyPrice index newPrice prev !! i
  = (fun pricing => if (i =? index)%nat then mkEntry (averageVolume pricing) newPrice
                    else pricing) <$> prev !! i.
Proof. unfold setLegacyPrice. apply list_lookup_imap. Qed.

(** X11.  Every writer of the legacy table keeps its breakpoints: an
    import (the loop over the lines, [applyBulkPricing], the paste handler
    of the earlier revision) leaves the list of average volumes as it was,
    changes a price only to a strictly positive one and so never lowers the
    number of priced entries; an edit by hand changes the price at its
    index and nothing else; the initial table holds
    [LEGACY_AVERAGE_VOLUMES]. *)
Theorem legacy_table_keeps_breakpoints (previous : list LegacyPriceEntry) :
  (forall lines, extendsTable previous (Pass.next (importLines lines previous)))
  /\ (forall eager text, extendsTable previous (V2.applyBulkPricing eager text previous).2)
  /\ (forall text showBulkPaste,
        extendsTable previous
          (Paste.legacyPrices
             (V1.handleApplyBulkPricing (Paste.mk previous text showBulkPaste))))
  /\ (forall index newPrice,
        List.map averageVolume (setLegacyPrice index newPrice previous)
        = List.map averageVolume previous
        /\ (forall i, i <> index ->
              setLegacyPrice index newPrice previous !! i = previous !! i)
        /\ (forall e0, previous !! index = Some e0 ->
              setLegacyPrice index newPrice previous !! index
              = Some (mkEntry (averageVolume e0) newPrice)))
  /\ List.map averageVolume initialLegacyPrices = LEGACY_AVERAGE_VOLUMES.
Proof.
  split; [|split; [|split; [|split]]].
  - intros lines. apply passInvariant_extends, passInvariant_importLines.
  - intros eager text. unfold V2.applyBulkPricing. cbn zeta.
    destruct (isEmpty (trim text)); cbn [snd].
    + apply extendsTable_refl.
    + apply passInvariant_extends, passInvariant_importLines.
  - intros text showBulkPaste. unfold V1.handleApplyBulkPricing.
    cbn [Paste.bulkPriceText Paste.legacyPrices].
    destruct (isEmpty (trim text)); cbn [Paste.legacyPrices].
    + apply extendsTable_refl.
    + apply passInvariant_extends, passInvariant_importLines.
  - intros index newPrice. split; [|split].
    + apply list_eq. intros i. change (List.map ?f ?l) with (f <$> l).
      rewrite !list_lookup_fmap, setLegacyPrice_lookup.
      destruct (previous !! i) as [e0|]; [|reflexivity]. cbn.
      destruct (i =? index)%nat; reflexivity.
    + intros i Hi. rewrite setLegacyPrice_lookup.
      destruct (previous !! i) as [e0|]; [|reflexivity]. cbn.
      rewrite (proj2 (Nat.eqb_neq _ _) Hi). reflexivity.
    + intros e0 H0. rewrite setLegacyPrice_lookup, H0. cbn.
      rewrite Nat.eqb_refl. reflexivity.
  - reflexivity.
Qed.

Lemma findIndexFrom_Some {A} (p : A -> bool) (start : nat) (l : list A) (i : nat) :
  findIndexFrom p start l = Some i ->
  exists x, l !! (i - start)%nat = Some x /\ p x = true /\ (start <= i)%nat.
Proof.
  revert start. induction l as [|x l IH]; intros start; cbn [findIndexFrom]; [discriminate|].
  destruct (p x) eqn:Hp.
  - intros [= <-]. exists x. rewrite Nat.sub_diag. auto.
  - intros Hf. destruct (IH _ Hf) as (y & Hy & Hpy & Hle).
    exists y. replace (i - start)%nat with (S (i - S start)) by lia. cbn. split; [assumption|].
    split; [assumption|lia].
Qed.

(** The volume a line is matched on: the value of a token of the line,
    strictly positive, within the tolerance of the breakpoint at the index. *)
Lemma matchVolumeToken_Some (tokens : list string) (index : nat) (volume : Q) :
  matchVolumeToken tokens = Some (index, volume) ->
  exists token breakpoint,
    token ∈ tokens
    /\ volume = parseNumber (Some token)
    /\ (0 < volume)%Q
    /\ LEGACY_AVERAGE_VOLUMES !! index = Some breakpoint
    /\ (Qabs (breakpoint - volume) < tolerance)%Q.
Proof.
  induction tokens as [|t tokens IH]; cbn [matchVolumeToken]; [discriminate|]. cbn zeta.
  destruct (Qle_bool (parseNumber (Some t)) 0) eqn:Hle.
  - intros H. destruct (IH H) as (token & b & Hin & Hrest). exists token, b.
    split; [right; assumption|assumption].
  - destruct (volumeIndexOf (parseNumber (Some t))) as [i|] eqn:Hi.
    + intros [= <- <-]. unfold volumeIndexOf in Hi.
      apply findIndexFrom_Some in Hi as (b & Hb & Hp & _). rewrite Nat.sub_0_r in Hb.
      exists t, b. split; [left|]. split; [reflexivity|].
      split; [apply Qle_bool_false, Hle|]. split; [assumption|apply Qltb_lt, Hp].
    + intros H. destruct (IH H) as (token & b & Hin & Hrest). exists token, b.
      split; [right; assumption|assumption].
Qed.

Lemma find_conj_first {A} (p q : A -> bool) (l : list A) (x : A) :
  List.find p l = Some x -> q x = true ->
  List.find (fun y => q y && p y) l = Some x.
Proof.
  induction l as [|y l IH]; cbn [List.find]; [discriminate|].
  destruct (p y) eqn:Hp.
  - intros [= ->] Hq. rewrite Hq. reflexivity.
  - intros Hf Hq. rewrite andb_false_r. auto.
Qed.

(** X12.  A pasted line that names a breakpoint sets that breakpoint's
    price: when a token of the line lies on the breakpoint at [index] and
    the first token away from that volume is a strictly positive price, the
    entry at [index] gets that price (also when the index was filled earlier
    in the pass), the index is marked, the flag is set and the positional
    cursor stays where it was.  The volume is positive and within the
    tolerance of the breakpoint. *)
Theorem breakpoint_line_sets_its_entry (st : Pass.t) (rawLine : string) (index : nat)
    (volume : Q) (token : string) (entry : LegacyPriceEntry) :
  matchVolumeToken (lineTokens rawLine) = Some (index, volume) ->
  List.find (farFrom volume) (lineTokens rawLine) = Some token ->
  (0 < parseNumber (Some token))%Q ->
  Pass.next st !! index = Some entry ->
  let st' := processLine st rawLine in
  Pass.next st'
  = <[index := mkEntry (averageVolume entry) (parseNumber (Some token))]> (Pass.next st)
  /\ Pass.assigned st' = {[index]} ∪ Pass.assigned st
  /\ Pass.fallbackIndex st' = Pass.fallbackIndex st
  /\ Pass.updated st' = true
  /\ exists breakpoint,
       LEGACY_AVERAGE_VOLUMES !! index = Some breakpoint
       /\ (Qabs (breakpoint - volume) < tolerance)%Q
       /\ (0 < volume)%Q.
Proof.
  intros Hmatch Hfind Hpos Hentry st'.
  assert (Hst : st' = Pass.mk
                        (<[index := mkEntry (averageVolume entry) (parseNumber (Some token))]>
                           (Pass.next st))
                        ({[index]} ∪ Pass.assigned st) (Pass.fallbackIndex st) true).
  { unfold st', processLine. fold (lineTokens rawLine).
    destruct (isEmpty (trim rawLine)) eqn:Hempty.
    { apply trim_empty_tokens in Hempty. rewrite Hempty in Hmatch. discriminate. }
    rewrite Hmatch.
    destruct (lineTokens rawLine) as [|t ts] eqn:Hts; [discriminate|].
    rewrite Hfind. unfold finishLine.
    assert (Hfirst : List.find
                       (fun token0 =>
                          Qltb 0 (parseNumber (Some token0))
                          && (noVolume (Some volume) || farFrom volume token0)) (t :: ts)
                     = Some token).
    { destruct (matchVolumeToken_Some _ _ _ Hmatch) as (_ & _ & _ & _ & Hv & _).
      assert (Hnv : noVolume (Some volume) = false).
      { cbn [noVolume]. destruct (Qeq_bool volume 0) eqn:Hz; [|reflexivity].
        apply Qeq_bool_iff in Hz. lra. }
      rewrite Hnv. cbn [orb].
      apply (find_conj_first (farFrom volume) (fun y => Qltb 0 (parseNumber (Some y))));
        [assumption|apply Qltb_lt, Hpos]. }
    rewrite Hfirst.
    destruct (bool_decide (index ∈ Pass.assigned st)); apply attemptAssign_commit; assumption. }
  rewrite Hst. cbn [Pass.next Pass.assigned Pass.fallbackIndex Pass.updated].
  repeat (split; [reflexivity|]).
  destruct (matchVolumeToken_Some _ _ _ Hmatch) as (_ & b & _ & _ & Hv & Hb & Hd).
  exists b. auto.
Qed.

Lemma breakpoint_line_sets_its_entry_witness :
  let st := processLine (Pass.start initialLegacyPrices) ("0.25" ++ tab ++ "115")%string in
  (price <$> Pass.next st !! 1%nat) = Some (parseNumber (Some "115"%string))
  /\ Pass.fallbackIndex st = 0%nat.
Proof.
  destruct (breakpoint_line_sets_its_entry (Pass.start initialLegacyPrices)
              ("0.25" ++ tab ++ "115")%string 1%nat (parseNumber (Some "0.25"%string))
              "115"%string (mkEntry 0.25 0)) as (Hn & _ & Hc & _).
  - reflexivity.
  - reflexivity.
  - reflexivity.
  - reflexivity.
  - cbn zeta in *. rewrite Hn, Hc. split; reflexivity.
Defined.

(** ** Divisor table: storage and administration *)

(** The entries of a species in the normalised table. *)
Lemma normaliseDivisors_get (D : BySpecies (list (option number))) (input : option Json)
    (sp : SpeciesCategory) :
  getSpecies (normaliseDivisors D input) sp
  = match input with
    | Some value =>
        if isObject value
        then ensureDivisorArray (asDivisorInput (getProperty value (speciesKey sp)))
        else ensureDivisorArray (Some (getSpecies D sp))
    | None => ensureDivisorArray (Some (getSpecies D sp))
    end.
Proof. destruct input as [[]|], sp; reflexivity. Qed.

Lemma normaliseDivisors_wellFormed (D : BySpecies (list (option number)))
    (input : option Json) :
  wellFormedDivisors (normaliseDivisors D input).
Proof.
  intros sp. rewrite normaliseDivisors_get.
  destruct input as [value|]; [destruct (isObject value)|]; apply ensureDivisorArray_positive.
Qed.

(** The entry of [ensureDivisorArray] at an index below the number of
    classes. *)
Lemma ensureDivisorArray_lookup (input : option (list (option number))) (i : nat) :
  (i < length DBH_CLASSES)%nat ->
  ensureDivisorArray input !! i
  = Some (match input ≫= (fun array => array !! i) with
          | Some (Some (Finite candidate)) =>
              if Qltb 0 candidate then Some candidate else None
          | _ => None
          end).
Proof.
  intros Hi. unfold ensureDivisorArray. change (List.map ?f ?l) with (f <$> l).
  rewrite list_lookup_fmap, lookup_seq_lt by assumption. reflexivity.
Qed.

Lemma ensureDivisorArray_absent (i : nat) :
  (i < length DBH_CLASSES)%nat -> ensureDivisorArray None !! i = Some None.
Proof. intros Hi. rewrite ensureDivisorArray_lookup by assumption. reflexivity. Qed.

(** X13.  Whatever is stored, [normaliseDivisors] and
    [loadSpeciesDivisors] return a well-formed table: one entry per class
    for each species, every divisor strictly positive.  A stored value that
    is no object, text that does not parse, an empty or absent item all give
    the default table; a stored object (or array) that lacks the key of a
    species leaves that species without any divisor, not with its
    defaults. *)
Theorem divisor_table_always_normalised (D : BySpecies (list (option number)))
    (JSONparse : string -> option Json) (stored : option string) (input : option Json) :
  wellFormedDivisors (normaliseDivisors D input)
  /\ wellFormedDivisors (loadSpeciesDivisors D JSONparse stored)
  /\ (forall value, isObject value = false ->
        normaliseDivisors D (Some value) = normaliseDivisors D None)
  /\ (forall raw, JSONparse raw = None ->
        loadSpeciesDivisors D JSONparse (Some raw) = normaliseDivisors D None)
  /\ loadSpeciesDivisors D JSONparse None = normaliseDivisors D None
  /\ loadSpeciesDivisors D JSONparse (Some EmptyString) = normaliseDivisors D None
  /\ (forall value species i,
        isObject value = true ->
        getProperty value (speciesKey species) = None ->
        (i < length DBH_CLASSES)%nat ->
        getSpecies (normaliseDivisors D (Some value)) species !! i = Some None).
Proof.
  split; [apply normaliseDivisors_wellFormed|].
  split.
  { unfold loadSpeciesDivisors. destruct stored as [raw|];
      [destruct (isEmpty raw); [|destruct (JSONparse raw)]|];
      apply normaliseDivisors_wellFormed. }
  split; [intros [] Hv; try discriminate; reflexivity|].
  split.
  { intros raw Hraw. unfold loadSpeciesDivisors. rewrite Hraw.
    destruct (isEmpty raw); reflexivity. }
  split; [reflexivity|]. split; [reflexivity|].
  intros value sp i Hobj Hprop Hi. rewrite normaliseDivisors_get, Hobj, Hprop.
  apply ensureDivisorArray_absent, Hi.
Qed.

Lemma asDivisorInput_items (l : list (option number)) :
  asDivisorInput
    (Some (JArray (List.map (fun entry => match entry with
                                          | Some n => JNumber n
                                          | None => JNull
                                          end) l)))
  = Some l.
Proof.
  cbn [asDivisorInput]. f_equal. rewrite List.map_map.
  induction l as [|[n|] l IH]; cbn [List.map]; [reflexivity|..]; rewrite IH; reflexivity.
Qed.

Lemma getProperty_jsonOfTable (table : BySpecies (list (option number)))
    (sp : SpeciesCategory) :
  asDivisorInput (getProperty (jsonOfTable table) (speciesKey sp))
  = Some (getSpecies table sp).
Proof. destruct sp; apply asDivisorInput_items. Qed.

(** [ensureDivisorArray] returns a list of one entry per class, all
    strictly positive, as it is. *)
Lemma ensureDivisorArray_numbers (l : list (option Q)) :
  length l = length DBH_CLASSES ->
  (forall i d, l !! i = Some (Some d) -> (0 < d)%Q) ->
  ensureDivisorArray (Some (List.map (fun entry : option Q => Finite <$> entry) l)) = l.
Proof.
  intros Hlen Hpos. apply list_eq. intros i.
  destruct (decide (i < length DBH_CLASSES)%nat) as [Hi|Hi].
  - rewrite ensureDivisorArray_lookup by assumption. cbn [mbind option_bind].
    change (List.map ?f ?l) with (f <$> l). rewrite list_lookup_fmap.
    destruct (l !! i) as [[d|]|] eqn:Hl; cbn.
    + rewrite (proj2 (Qltb_lt _ _) (Hpos _ _ Hl)). reflexivity.
    + reflexivity.
    + apply lookup_ge_None in Hl. lia.
  - rewrite !lookup_ge_None_2; [reflexivity|lia|].
    destruct (ensureDivisorArray_positive
                (Some (List.map (fun entry : option Q => Finite <$> entry) l))) as [-> _].
    lia.
Qed.

(** X14.  A well-formed table that has been written to the storage is
    read back unchanged by [loadSpeciesDivisors]; and normalising the
    default table itself, as the reset of the admin page does, gives the
    table of a first start. *)
Theorem stored_table_is_read_back (D : BySpecies (list (option number)))
    (JSONparse : string -> option Json) (raw : string) (divisors : SpeciesDivisors) :
  wellFormedDivisors divisors ->
  isEmpty raw = false ->
  JSONparse raw = Some (jsonOfTable (numbersOf divisors)) ->
  (forall species,
     getSpecies (loadSpeciesDivisors D JSONparse (Some raw)) species
     = getSpecies divisors species)
  /\ (forall species,
        getSpecies (normaliseDivisors D (Some (jsonOfTable D))) species
        = getSpecies (normaliseDivisors D None) species).
Proof.
  intros Hwf Hraw Hparse. split.
  - intros sp. unfold loadSpeciesDivisors. rewrite Hraw, Hparse.
    rewrite normaliseDivisors_get. cbn [isObject jsonOfTable].
    rewrite getProperty_jsonOfTable.
    destruct (Hwf sp) as [Hlen Hpos].
    destruct sp; cbn [getSpecies numbersOf ofTall ofGran ofLov] in *;
      apply ensureDivisorArray_numbers; assumption.
  - intros sp. rewrite !normaliseDivisors_get. cbn [isObject jsonOfTable].
    rewrite getProperty_jsonOfTable. reflexivity.
Qed.

Lemma stored_table_is_read_back_witness :
  let divisors := normaliseDivisors V2.DEFAULT_SPECIES_DIVISORS None in
  let JSONparse := fun _ : string => Some (jsonOfTable (numbersOf divisors)) in
  getSpecies (loadSpeciesDivisors V1.DEFAULT_SPECIES_DIVISORS JSONparse (Some "{}"%string)) Lov
  = getSpecies divisors Lov.
Proof.
  intros divisors JSONparse.
  apply (stored_table_is_read_back V1.DEFAULT_SPECIES_DIVISORS JSONparse "{}" divisors).
  - apply normaliseDivisors_wellFormed.
  - reflexivity.
  - reflexivity.
Defined.





(** X16.  With the default divisors and a positive hourly rate, the
    later revision prices every class of every species; the table of the
    earlier revision agrees with it except for broadleaf from class index
    21 (500 mm) on, which it leaves unpriced where the later revision uses
    the divisor 41. *)
Theorem default_tables_coverage (params : CalculationParams) (species : SpeciesCategory)
    (index : nat) :
  (0 < harvestingCostRate params)%Q ->
  (index < length DBH_CLASSES)%nat ->
  let matrix1 := speciesPriceMatrix params (normaliseDivisors V1.DEFAULT_SPECIES_DIVISORS None) in
  let matrix2 := speciesPriceMatrix params (normaliseDivisors V2.DEFAULT_SPECIES_DIVISORS None) in
  (exists price, getSpecies matrix2 species !! index = Some (Some price) /\ (0 < price)%Q)
  /\ (species <> Lov \/ (index <= 20)%nat ->
      getSpecies matrix1 species !! index = getSpecies matrix2 species !! index)
  /\ (species = Lov -> (21 <= index)%nat ->
      getSpecies matrix1 species !! index = Some (Some 0%Q)
      /\ exists price, getSpecies matrix2 species !! index = Some (Some price)
                       /\ (price == harvestingCostRate params / 41)%Q).
Proof.
  intros Hrate Hi matrix1 matrix2. unfold matrix1, matrix2.
  rewrite !speciesPriceMatrix_lookup by assumption.
  cbn [length DBH_CLASSES] in Hi.
  assert (Hdiv : forall d, (0 < d)%Q -> (0 < harvestingCostRate params / d)%Q).
  { intros d Hd. apply Qlt_shift_div_l; [assumption|]. lra. }
  do 26 (destruct index as [|index]; [
    destruct species; cbn;
    (split; [eexists; split; [reflexivity|apply Hdiv; reflexivity]|]);
    (split; [intros [?|?]; (congruence || lia || reflexivity)|]);
    intros ? ?; try congruence; try lia;
    (split; [reflexivity|eexists; split; [reflexivity|reflexivity]]) |]).
  lia.
Qed.

Lemma default_tables_coverage_witness :
  getSpecies (speciesPriceMatrix initialParams
                (normaliseDivisors V1.DEFAULT_SPECIES_DIVISORS None)) Lov !! 21%nat
  = Some (Some 0%Q)
  /\ exists price,
       getSpecies (speciesPriceMatrix initialParams
                     (normaliseDivisors V2.DEFAULT_SPECIES_DIVISORS None)) Lov !! 21%nat
       = Some (Some price)
       /\ (price == harvestingCostRate initialParams / 41)%Q.
Proof.
  apply (default_tables_coverage initialParams Lov 21); [reflexivity|cbn; lia|reflexivity|lia].
Defined.

(** ** Record Extractor *)

(** Induction on a node, with the property at hand for every child. *)
Lemma Node_nested_ind (P : Node -> Prop) :
  (forall data, P (Text data)) ->
  (forall name attributes children,
     Forall P children -> P (Element name attributes children)) ->
  forall node, P node.
Proof.
  intros HT HE. fix IH 1. intros [name attributes children|data]; [|apply HT].
  apply HE. induction children as [|c cs IHc]; constructor; [apply IH|apply IHc].
Qed.

(** What lies below an element below a node lies below the node. *)
Lemma elementsOf_trans (node x y : Node) :
  In x (elementsOf node) -> In y (elementsOf x) -> In y (elementsOf node).
Proof.
  revert x y. induction node as [data|name attributes children IH] using Node_nested_ind;
    intros x y Hx Hy; [destruct Hx|].
  cbn [elementsOf] in Hx |- *. destruct Hx as [<-|Hx]; [exact Hy|].
  right. apply in_flat_map in Hx as (child & Hc & Hx). apply in_flat_map.
  exists child. split; [assumption|].
  rewrite Forall_forall in IH. apply (IH child (proj2 (list_elem_of_In _ _) Hc) x y); assumption.
Qed.

Lemma elementsOf_children (x y : Node) :
  In y (flat_map elementsOf (childNodes x)) -> In y (elementsOf x).
Proof. destruct x as [name attributes children|data]; [right; assumption|intros []]. Qed.

Lemma descendants_trans (scope : list Node) (x y : Node) :
  In x (flat_map elementsOf scope) ->
  In y (flat_map elementsOf (childNodes x)) ->
  In y (flat_map elementsOf scope).
Proof.
  intros Hx Hy. apply in_flat_map in Hx as (top & Ht & Hx). apply in_flat_map.
  exists top. split; [assumption|].
  eapply elementsOf_trans; [exact Hx|]. apply elementsOf_children, Hy.
Qed.

Lemma elementsByTag_nested (scope : list Node) (tag tag' : string) (x y : Node) :
  In x (elementsByTag scope tag) ->
  In y (elementsByTag (childNodes x) tag') ->
  In y (elementsByTag scope tag').
Proof.
  unfold elementsByTag. rewrite !filter_In. intros [Hx _] [Hy Hn]. split; [|assumption].
  eapply descendants_trans; eassumption.
Qed.

(** A diameter that is present is strictly positive. *)
Lemma stemDbh_cases (stemEl : Node) :
  stemDbh stemEl = None \/ exists d, stemDbh stemEl = Some (Finite d) /\ (0 < d)%Q.
Proof.
  unfold stemDbh. cbn zeta.
  destruct (Qltb 0 (parseNumber (getAttribute stemEl "DBH"))) eqn:Ha.
  { right. eexists. split; [reflexivity|apply Qltb_lt, Ha]. }
  destruct (Qltb 0 (parseNumber (textContent <$> _))) eqn:Ht; [|left; reflexivity].
  right. eexists. split; [reflexivity|apply Qltb_lt, Ht].
Qed.

(** X17.  The diameter of a stem is its DBH attribute when strictly
    positive, else the text of the first DBH element below the stem when
    strictly positive, else absent: the second lookup, under
    SingleTreeProcessedStem elements, never supplies an element, since
    whatever lies below an element below the stem is found by the first
    lookup.  A diameter that is present is strictly positive. *)
Theorem nested_dbh_lookup_is_idle (stemEl : Node) :
  stemDbh stemEl
  = (let attrValue := parseNumber (getAttribute stemEl "DBH") in
     if Qltb 0 attrValue then Some (Finite attrValue)
     else
       let textValue :=
         parseNumber (textContent <$> head (elementsByTag (childNodes stemEl) "DBH")) in
       if Qltb 0 textValue then Some (Finite textValue) else None)
  /\ (forall tag node inner,
        In node (elementsByTag (childNodes stemEl) tag) ->
        In inner (elementsByTag (childNodes node) "DBH") ->
        In inner (elementsByTag (childNodes stemEl) "DBH"))
  /\ (stemDbh stemEl = None
      \/ exists d, stemDbh stemEl = Some (Finite d) /\ (0 < d)%Q).
Proof.
  assert (Hidle : head (elementsByTag (childNodes stemEl) "DBH") = None ->
                  head (flat_map (fun node => elementsByTag (childNodes node) "DBH")
                                 (elementsByTag (childNodes stemEl) "SingleTreeProcessedStem"))
                  = None).
  { intros Hnone.
    destruct (flat_map _ _) as [|inner rest] eqn:Hf; [reflexivity|]. exfalso.
    assert (Hin : In inner (flat_map (fun node => elementsByTag (childNodes node) "DBH")
                              (elementsByTag (childNodes stemEl) "SingleTreeProcessedStem")))
      by (rewrite Hf; left; reflexivity).
    apply in_flat_map in Hin as (node & Hnode & Hinner).
    pose proof (elementsByTag_nested _ _ _ _ _ Hnode Hinner) as Hd.
    destruct (elementsByTag (childNodes stemEl) "DBH"); [destruct Hd|discriminate]. }
  assert (Heq : stemDbh stemEl
                = (let attrValue := parseNumber (getAttribute stemEl "DBH") in
                   if Qltb 0 attrValue then Some (Finite attrValue)
                   else
                     let textValue :=
                       parseNumber (textContent
                                      <$> head (elementsByTag (childNodes stemEl) "DBH")) in
                     if Qltb 0 textValue then Some (Finite textValue) else None)).
  { unfold stemDbh. cbn zeta.
    destruct (Qltb 0 (parseNumber (getAttribute stemEl "DBH"))); [reflexivity|].
    destruct (head (elementsByTag (childNodes stemEl) "DBH")) eqn:Hh; [reflexivity|].
    rewrite Hidle by reflexivity. reflexivity. }
  split; [exact Heq|]. split.
  - intros tag node inner. apply elementsByTag_nested.
  - apply stemDbh_cases.
Qed.

(** A volume found by category is strictly positive and is the value of
    a node. *)
Lemma preferredVolume_Some (volumeNodes : list Node) (categories : list string) (v : Q) :
  preferredVolume volumeNodes categories = Some v ->
  (0 < v)%Q /\ exists node, In node volumeNodes /\ v = nodeVolume node.
Proof.
  induction categories as [|category rest IH]; cbn [preferredVolume]; [discriminate|].
  destruct (List.find (hasCategory category) volumeNodes) as [node|] eqn:Hf; [|exact IH].
  cbn zeta. destruct (Qltb 0 (parseNumber (Some (textContent node)))) eqn:Hpos; [|exact IH].
  intros [= <-]. split; [apply Qltb_lt, Hpos|].
  exists node. split; [|reflexivity]. apply find_some in Hf as [Hin _]. exact Hin.
Qed.

Lemma firstPositive_Some (values : list Q) (v : Q) :
  firstPositive values = Some v -> (0 < v)%Q /\ In v values.
Proof.
  unfold firstPositive. intros Hf. apply find_some in Hf as [Hin Hpos].
  split; [apply Qltb_lt, Hpos|exact Hin].
Qed.

Lemma firstPositive_None (values : list Q) :
  firstPositive values = None <-> forall v, In v values -> (v <= 0)%Q.
Proof.
  unfold firstPositive. split.
  - intros Hf v Hin. apply Qltb_ge. exact (find_none _ _ Hf v Hin).
  - intros Hall. induction values as [|v values IH]; [reflexivity|]. cbn [List.find].
    rewrite (proj2 (Qltb_ge 0 v)) by (apply Hall; left; reflexivity).
    apply IH. intros w Hw. apply Hall. right. exact Hw.
Qed.

Lemma preferredVolume_None (volumeNodes : list Node) (categories : list string) :
  (forall node, In node volumeNodes -> (nodeVolume node <= 0)%Q) ->
  preferredVolume volumeNodes categories = None.
Proof.
  intros Hall. destruct (preferredVolume volumeNodes categories) as [v|] eqn:Hp; [|reflexivity].
  apply preferredVolume_Some in Hp as (Hpos & node & Hin & ->).
  specialize (Hall node Hin). lra.
Qed.

(** X18.  [resolveLogVolume] is never negative, and it is 0 exactly when
    no source is strictly positive (no LogVolume node, none of the four
    volume attributes, not the dm3 attribute).  The first node of category
    m3sub wins over document order when its value is positive; with no
    positive node or attribute, a positive dm3 attribute gives a thousandth
    of its value. *)
Theorem log_volume_sources (logEl : Node) :
  let volumeNodes := elementsByTag (childNodes logEl) "LogVolume" in
  (0 <= resolveLogVolume logEl)%Q
  /\ ((resolveLogVolume logEl == 0)%Q <->
        (forall node, In node volumeNodes -> (nodeVolume node <= 0)%Q)
        /\ (forall key, In key volumeAttributes ->
              (parseNumber (getAttribute logEl key) <= 0)%Q)
        /\ (dm3Volume logEl <= 0)%Q)
  /\ (forall node,
        List.find (hasCategory "m3sub") volumeNodes = Some node ->
        (0 < nodeVolume node)%Q ->
        resolveLogVolume logEl = nodeVolume node)
  /\ ((forall node, In node volumeNodes -> (nodeVolume node <= 0)%Q) ->
      (forall key, In key volumeAttributes ->
         (parseNumber (getAttribute logEl key) <= 0)%Q) ->
      (0 < dm3Volume logEl)%Q ->
      resolveLogVolume logEl = (dm3Volume logEl / 1000)%Q).
Proof.
  intros volumeNodes.
  assert (Hnodes : forall v, In v (List.map (fun node => parseNumber (Some (textContent node)))
                                            volumeNodes)
                             <-> exists node, In node volumeNodes /\ v = nodeVolume node).
  { intros v. rewrite in_map_iff. split; intros (node & H1 & H2); exists node; auto. }
  assert (Hattrs : forall v, In v (List.map (fun key => parseNumber (getAttribute logEl key))
                                            volumeAttributes)
                             <-> exists key, In key volumeAttributes
                                             /\ v = parseNumber (getAttribute logEl key)).
  { intros v. rewrite in_map_iff. split; intros (key & H1 & H2); exists key; auto. }
  assert (Hlow : (forall node, In node volumeNodes -> (nodeVolume node <= 0)%Q) ->
                 (forall key, In key volumeAttributes ->
                    (parseNumber (getAttribute logEl key) <= 0)%Q) ->
                 resolveLogVolume logEl
                 = if Qltb 0 (dm3Volume logEl) then (dm3Volume logEl / 1000)%Q else 0%Q).
  { intros Hn Ha. unfold resolveLogVolume. cbn zeta. fold volumeNodes.
    rewrite preferredVolume_None by assumption.
    rewrite (proj2 (firstPositive_None _));
      [|intros v Hv; apply Hnodes in Hv as (node & Hin & ->); auto].
    rewrite (proj2 (firstPositive_None _));
      [|intros v Hv; apply Hattrs in Hv as (key & Hin & ->); auto].
    reflexivity. }
  assert (Hcases : ((0 < resolveLogVolume logEl)%Q
                    /\ ((exists node, In node volumeNodes /\ (0 < nodeVolume node)%Q)
                        \/ (exists key, In key volumeAttributes
                                        /\ (0 < parseNumber (getAttribute logEl key))%Q)
                        \/ (0 < dm3Volume logEl)%Q))
                   \/ (resolveLogVolume logEl = 0%Q
                       /\ (forall node, In node volumeNodes -> (nodeVolume node <= 0)%Q)
                       /\ (forall key, In key volumeAttributes ->
                             (parseNumber (getAttribute logEl key) <= 0)%Q)
                       /\ (dm3Volume logEl <= 0)%Q)).
  { unfold resolveLogVolume. cbn zeta. fold volumeNodes. fold (dm3Volume logEl).
    destruct (preferredVolume volumeNodes preferredCategories) as [v|] eqn:H1.
    { apply preferredVolume_Some in H1 as (Hpos & node & Hin & ->).
      left. split; [assumption|]. left. eauto. }
    destruct (firstPositive (List.map _ volumeNodes)) as [v|] eqn:H2.
    { apply firstPositive_Some in H2 as (Hpos & Hin). apply Hnodes in Hin as (node & Hin & ->).
      left. split; [assumption|]. left. eauto. }
    destruct (firstPositive (List.map _ volumeAttributes)) as [v|] eqn:H3.
    { apply firstPositive_Some in H3 as (Hpos & Hin). apply Hattrs in Hin as (key & Hin & ->).
      left. split; [assumption|]. right. left. eauto. }
    destruct (Qltb 0 (dm3Volume logEl)) eqn:H4.
    { apply Qltb_lt in H4. left. split; [|auto].
      apply Qlt_shift_div_l; [reflexivity|lra]. }
    right. split; [reflexivity|].
    split; [intros node Hin; apply (proj1 (firstPositive_None _) H2), Hnodes; eauto|].
    split; [intros key Hin; apply (proj1 (firstPositive_None _) H3), Hattrs; eauto|].
    apply Qltb_ge, H4. }
  split; [|split; [|split]].
  - destruct Hcases as [[Hpos _]|[-> _]]; lra.
  - split.
    + intros Hz. destruct Hcases as [[Hpos _]|[_ Hall]]; [lra|exact Hall].
    + intros (Hn & Ha & Hd). rewrite (Hlow Hn Ha).
      rewrite (proj2 (Qltb_ge 0 (dm3Volume logEl)) Hd). reflexivity.
  - intros node Hfind Hpos. unfold resolveLogVolume. cbn zeta. fold volumeNodes.
    unfold preferredCategories. cbn [preferredVolume]. rewrite Hfind. cbn zeta.
    fold (nodeVolume node). rewrite (proj2 (Qltb_lt _ _) Hpos). reflexivity.
  - intros Hn Ha Hd. rewrite (Hlow Hn Ha). rewrite (proj2 (Qltb_lt _ _) Hd). reflexivity.
Qed.

Lemma parseHPRFile_fold (clock : nat -> string) (speciesNameByKey : gmap string string)
    (entries : list (nat * Node)) (acc : list Stem * nat) :
  fold_left (fun acc entry =>
               let '(stem, logs) := readStem clock speciesNameByKey entry.1 entry.2 in
               (acc.1 ++ [stem], (acc.2 + logs)%nat))
            entries acc
  = (acc.1 ++ List.map (fun entry => (readStem clock speciesNameByKey entry.1 entry.2).1)
                       entries,
     (acc.2 + sumNat (List.map (fun entry => length (elementsByTag (childNodes entry.2) "Log"))
                               entries))%nat).
Proof.
  revert acc. induction entries as [|entry entries IH]; intros acc; cbn [fold_left List.map].
  - unfold sumNat. cbn. rewrite app_nil_r, Nat.add_0_r. destruct acc; reflexivity.
  - rewrite IH.
    assert (Hlogs : (readStem clock speciesNameByKey entry.1 entry.2).2
                    = length (elementsByTag (childNodes entry.2) "Log")) by reflexivity.
    destruct (readStem clock speciesNameByKey entry.1 entry.2) as [stem logs].
    cbn [fst snd] in *. subst logs.
    unfold sumNat. cbn [foldr]. f_equal; [rewrite <- app_assoc; reflexivity|lia].
Qed.

(** The records and the log count of a document, without the loop. *)
Lemma parseHPRFile_unfold (clock : nat -> string) (xmlDoc : Document) :
  let speciesNameByKey :=
    fold_left addDefinition (elementsByTag xmlDoc "SpeciesGroupDefinition") ∅ in
  let stemElements := elementsByTag xmlDoc "Stem" in
  parseHPRFile clock xmlDoc
  = (imap (fun index stemEl => (readStem clock speciesNameByKey index stemEl).1) stemElements,
     sumNat (List.map (fun stemEl => length (elementsByTag (childNodes stemEl) "Log"))
                      stemElements)).
Proof.
  intros names stemElements. unfold parseHPRFile. fold names stemElements.
  rewrite parseHPRFile_fold. cbn [fst snd app Nat.add]. f_equal.
  - apply list_eq. intros k. change (List.map ?f ?l) with (f <$> l).
    rewrite list_lookup_fmap, !list_lookup_imap.
    destruct (stemElements !! k); reflexivity.
  - f_equal. apply list_eq. intros k. change (List.map ?f ?l) with (f <$> l).
    rewrite !list_lookup_fmap, list_lookup_imap.
    destruct (stemElements !! k); reflexivity.
Qed.

(** X19.  [parseHPRFile] produces one record per Stem element of the
    document, in document order, the k-th record taking its key (or
    stem_k), date, diameter and species key from the k-th element; the log
    count is the number of Log elements below the Stem elements; a document
    without Stem elements gives no record and no log. *)
Theorem one_record_per_stem_element (clock : nat -> string) (xmlDoc : Document) :
  let stemElements := elementsByTag xmlDoc "Stem" in
  let stems := (parseHPRFile clock xmlDoc).1 in
  length stems = length stemElements
  /\ (parseHPRFile clock xmlDoc).2
     = sumNat (List.map (fun stemEl => length (elementsByTag (childNodes stemEl) "Log"))
                        stemElements)
  /\ (forall k stemEl,
        stemElements !! k = Some stemEl ->
        exists stem,
          stems !! k = Some stem
          /\ stem_key stem
             = default ("stem_" ++ indexDigits k)%string (getAttribute stemEl "StemKey")
          /\ harvest_date stem = default (clock k) (getAttribute stemEl "HarvestDate")
          /\ dbh stem = stemDbh stemEl
          /\ speciesGroupKey stem = getFirstText (childNodes stemEl) "SpeciesGroupKey")
  /\ (stemElements = [] -> parseHPRFile clock xmlDoc = ([], 0%nat)).
Proof.
  intros stemElements stems. unfold stems. rewrite parseHPRFile_unfold. cbn zeta.
  fold stemElements. cbn [fst snd].
  split; [apply length_imap|]. split; [reflexivity|]. split.
  - intros k stemEl Hk. eexists. rewrite list_lookup_imap, Hk. cbn.
    split; [reflexivity|]. repeat split.
  - intros ->. reflexivity.
Qed.

(** A diameter that is absent or strictly positive resolves exactly when
    it is present. *)
Lemma hasDbh_resolvable (stem : Stem) :
  (dbh stem = None \/ exists d, dbh stem = Some (Finite d) /\ (0 < d)%Q) ->
  resolvable stem = hasDbh (dbh stem).
Proof.
  unfold resolvable. intros [->|(d & -> & Hd)]; [reflexivity|].
  rewrite resolveDbhClass_finite by assumption. cbn [hasDbh].
  destruct (List.find _ DBH_CLASSES); reflexivity.
Qed.

(** The species map holds no empty key and no empty name. *)
Lemma addDefinition_names (definitions : list Node) (names : gmap string string) :
  (forall key name, names !! key = Some name -> key <> EmptyString /\ name <> EmptyString) ->
  forall key name,
    fold_left addDefinition definitions names !! key = Some name ->
    key <> EmptyString /\ name <> EmptyString.
Proof.
  revert names. induction definitions as [|definition definitions IH]; intros names Hn;
    [exact Hn|].
  cbn [fold_left]. apply IH. unfold addDefinition.
  destruct (getFirstText (childNodes definition) "SpeciesGroupKey") as [k|]; [|exact Hn].
  destruct (getFirstText (childNodes definition) "SpeciesGroupName") as [n|]; [|exact Hn].
  destruct k as [|c k]; [exact Hn|]. destruct n as [|c' n]; [exact Hn|]. cbn [isEmpty orb].
  intros key name. destruct (decide (key = String c k)) as [->|Hne].
  - rewrite lookup_insert_eq. intros [= <-]. split; discriminate.
  - rewrite lookup_insert_ne by congruence. apply Hn.
Qed.

(** What holds of the record read from a Stem element. *)
Lemma readStem_sound (clock : nat -> string) (speciesNameByKey : gmap string string)
    (index : nat) (stemEl : Node) :
  let stem := (readStem clock speciesNameByKey index stemEl).1 in
  (dbh stem = None \/ exists d, dbh stem = Some (Finite d) /\ (0 < d)%Q)
  /\ (0 <= stem_volume stem)%Q
  /\ speciesCategory stem = mapSpeciesNameToCategory (speciesName stem)
  /\ (forall name, speciesName stem = Some name ->
        exists key, speciesGroupKey stem = Some key /\ key <> EmptyString
                    /\ speciesNameByKey !! key = Some name).
Proof.
  unfold readStem. cbn [fst dbh stem_volume speciesCategory speciesName speciesGroupKey].
  split; [apply stemDbh_cases|]. split; [|split; [reflexivity|]].
  - destruct (Qltb 0 (fold_left _ _ _)) eqn:Hagg; [apply Qlt_le_weak, Qltb_lt, Hagg|].
    destruct (firstPositive _) as [v|] eqn:Hv; unfold default; cbn [from_option id];
      [|apply Qle_refl].
    apply firstPositive_Some in Hv as [Hv _]. apply Qlt_le_weak, Hv.
  - intros name.
    destruct (getFirstText (childNodes stemEl) "SpeciesGroupKey") as [key|]; [|discriminate].
    destruct key as [|c key]; [discriminate|]. cbn [isEmpty].
    intros Hname. eexists. split; [reflexivity|]. split; [discriminate|assumption].
Qed.

Lemma elem_of_imap_inv {A B} (f : nat -> A -> B) (l : list A) (y : B) :
  y ∈ imap f l -> exists k x, l !! k = Some x /\ y = f k x.
Proof.
  intros Hy. apply list_elem_of_lookup in Hy as [k Hk].
  rewrite list_lookup_imap in Hk. destruct (l !! k) as [x|] eqn:Hx; [|discriminate].
  injection Hk as <-. eauto.
Qed.

(** X20.  Every record [parseHPRFile] produces has a diameter that is
    absent or strictly positive, hence resolves to a class exactly when it
    has one; a volume that is not negative; the category of its species
    name, which is broadleaf when the name is unknown; and a name, never
    empty, only when it carries a species key that is not empty. *)
Theorem extracted_records_are_sound (clock : nat -> string) (xmlDoc : Document) (stem : Stem) :
  stem ∈ (parseHPRFile clock xmlDoc).1 ->
  (dbh stem = None \/ exists d, dbh stem = Some (Finite d) /\ (0 < d)%Q)
  /\ resolvable stem = hasDbh (dbh stem)
  /\ (0 <= stem_volume stem)%Q
  /\ speciesCategory stem = mapSpeciesNameToCategory (speciesName stem)
  /\ (speciesName stem = None -> speciesCategory stem = Lov)
  /\ (forall name, speciesName stem = Some name ->
        name <> EmptyString
        /\ exists key, speciesGroupKey stem = Some key /\ key <> EmptyString).
Proof.
  rewrite parseHPRFile_unfold. cbn zeta. cbn [fst]. intros Hin.
  apply elem_of_imap_inv in Hin as (k & stemEl & _ & ->).
  set (names := fold_left addDefinition _ _).
  destruct (readStem_sound clock names k stemEl) as (Hd & Hv & Hc & Hn). cbn zeta in *.
  split; [exact Hd|]. split; [apply hasDbh_resolvable, Hd|]. split; [exact Hv|].
  split; [exact Hc|]. split; [intros Hnone; rewrite Hc, Hnone; reflexivity|].
  intros name Hname. destruct (Hn name Hname) as (key & Hk & Hne & Hl).
  split; [|eauto].
  eapply (addDefinition_names _ ∅); [|exact Hl].
  intros key' name'. rewrite lookup_empty. discriminate.
Qed.

(** The stems counted over the rows of a run are the stems with a
    class. *)
Lemma producedRows_count (sqrt : Q -> Q) (params : CalculationParams)
    (speciesDivisors : SpeciesDivisors) (legacyPrices : list LegacyPriceEntry)
    (stems : list Stem) :
  sumNat (List.map ResultRow.stems
                   (producedRows sqrt params speciesDivisors legacyPrices stems))
  = length (List.filter resolvable stems).
Proof.
  rewrite calculateResults_rows. destruct stems as [|s stems]; [reflexivity|].
  set (agg := fold_left _ _ _).
  rewrite (sumNat_Permutation _ _
             (Permutation_map _ (baseResults_Permutation sqrt params speciesDivisors agg))).
  rewrite List.map_map. cbn [rowOf ResultRow.stems].
  apply (aggregate_totals (Qmin (maxPerTreeTime params) 30) (s :: stems)).
Qed.

Lemma filter_imap_length {A B} (f : nat -> A -> B) (p : B -> bool) (q : A -> bool)
    (l : list A) :
  (forall k x, p (f k x) = q x) ->
  length (List.filter p (imap f l)) = length (List.filter q l).
Proof.
  revert f. induction l as [|x l IH]; intros f Hpq; [reflexivity|].
  cbn [imap List.filter]. rewrite Hpq.
  specialize (IH (f ∘ S) (fun k x => Hpq (S k) x)).
  destruct (q x); cbn [length]; rewrite IH; reflexivity.
Qed.

(** X21.  From document to result: the stems counted over the rows of a
    run on the records of a document are as many as the Stem elements that
    yield a diameter, and every row stands for at least one record with a
    diameter, of the row's species and class. *)
Theorem stems_with_diameter_are_counted (sqrt : Q -> Q) (params : CalculationParams)
    (speciesDivisors : SpeciesDivisors) (legacyPrices : list LegacyPriceEntry)
    (clock : nat -> string) (xmlDoc : Document) :
  let stems := (parseHPRFile clock xmlDoc).1 in
  let rows := producedRows sqrt params speciesDivisors legacyPrices stems in
  sumNat (List.map ResultRow.stems rows)
  = length (List.filter (fun stemEl => hasDbh (stemDbh stemEl)) (elementsByTag xmlDoc "Stem"))
  /\ (forall row, row ∈ rows ->
        exists stem, stem ∈ stems /\ hasDbh (dbh stem) = true
                     /\ speciesCategory stem = ResultRow.species row
                     /\ resolveDbhClass (dbh stem) = Some (ResultRow.dbhClass row)).
Proof.
  intros stems rows. split.
  - unfold rows. rewrite producedRows_count. unfold stems.
    rewrite parseHPRFile_unfold. cbn zeta. cbn [fst].
    apply filter_imap_length. intros k stemEl.
    set (names := fold_left addDefinition _ _).
    destruct (readStem_sound clock names k stemEl) as (Hd & _). cbn zeta in Hd.
    rewrite (hasDbh_resolvable _ Hd). reflexivity.
  - intros row Hrow. apply producedRows_inv in Hrow as (sp & c & b & Hb & ->).
    destruct (members sp c stems) as [|s l] eqn:Hm; [discriminate|].
    assert (Hs : s ∈ members sp c stems) by (rewrite Hm; left).
    destruct (members_resolvable _ _ _ _ Hs) as [Hin Hres].
    unfold members in Hs. apply list_elem_of_In, filter_In in Hs as [_ Hs].
    apply inBin_true in Hs as [Hsp Hc].
    exists s. split; [assumption|]. split; [|split; assumption].
    unfold stems in Hin. rewrite parseHPRFile_unfold in Hin. cbn zeta in Hin. cbn [fst] in Hin.
    apply elem_of_imap_inv in Hin as (k & stemEl & _ & ->).
    apply resolvable_true in Hres as [c' Hc']. cbn [readStem fst dbh] in *.
    destruct (stemDbh stemEl); [reflexivity|discriminate].
Qed.

Example sample_document_records :
  parseHPRFile sampleClock sampleDocument
  = ([mkStem "7" "2024-05-01T00:00:00.000Z" (parseNumber (Some "0,8"%string))
             (Some (Finite (parseNumber (Some "150"%string)))) (Some "2"%string)
             (Some "Gran"%string) Gran;
      mkStem "stem_1" "2024-05-01T00:00:00.000Z" 0 None (Some "9"%string) None Lov],
     1%nat).
Proof. vm_compute. reflexivity. Qed.

Lemma extracted_records_are_sound_witness :
  exists stem,
    (parseHPRFile sampleClock sampleDocument).1 !! 0%nat = Some stem
    /\ resolvable stem = hasDbh (dbh stem)
    /\ speciesCategory stem = mapSpeciesNameToCategory (speciesName stem).
Proof.
  eexists. split; [vm_compute; reflexivity|].
  refine (let H := extracted_records_are_sound sampleClock sampleDocument _ _ in
          conj (proj1 (proj2 H)) (proj1 (proj2 (proj2 (proj2 H))))).
  rewrite sample_document_records. left.
Defined.

(** ** Upload state *)


(** [processFiles] keeps a consistent state consistent. *)
Lemma V2_processFiles_consistent {File : Type} (parseHPRFile : File -> option (list Stem * nat))
    (files : list File) (append : option bool) (st : Upload2.t) :
  consistent2 st -> consistent2 (V2.processFiles File parseHPRFile files append st).
Proof.
  intros Hst. unfold V2.processFiles. cbn zeta.
  destruct (isNil files); [exact Hst|].
  destruct (fold_left _ files _) as [combinedStems combinedLogCount].
  destruct combinedStems as [|s combinedStems]; cbn [isNil].
  - split; [discriminate|reflexivity].
  - split; cbn.
    + intros _. split; [discriminate|reflexivity].
    + split; [reflexivity|]. split; [discriminate|]. intros k [= <-]. reflexivity.
Qed.

Lemma setShouldAppend_consistent (st : Upload2.t) :
  consistent2 st -> consistent2 (V2.setShouldAppend st false).
Proof.
  intros [H1 H2]. split; cbn; [|exact H2]. intros Hup. split; [apply H1, Hup|reflexivity].
Qed.

Lemma filter_none {A} (p : A -> bool) (l : list A) :
  (forall x, x ∈ l -> p x = false) -> List.filter p l = [].
Proof.
  induction l as [|x l IH]; intros Hall; [reflexivity|]. cbn [List.filter].
  rewrite (Hall x) by left. apply IH. intros y Hy. apply Hall. right. exact Hy.
Qed.



(** X23.  In the later revision every upload state the handlers (file
    input, drop, reset, add more files) can lead to is consistent:
    [hasUploaded] implies a dataset that is not empty and no pending
    append, the status line reports the stems and logs held, and an append
    is pending only while the upload card is shown.  A drop without an
    accepted file changes nothing; an upload appends exactly when an append
    was pending, and leaves none pending. *)
Theorem upload_state_consistent_v2 {File : Type}
    (parseHPRFile : File -> option (list Stem * nat)) (fileName : File -> string)
    (st : Upload2.t) :
  reachable2 parseHPRFile fileName st ->
  consistent2 st
  /\ (Upload2.shouldAppend st = true -> Upload2.hasUploaded st = false)
  /\ (forall files,
        (forall file, file ∈ files -> acceptedName (fileName file) = false) ->
        V2.handleFileDrop File parseHPRFile fileName files st = st)
  /\ (forall files, files <> [] ->
        Upload2.stems (V2.handleFileUpload File parseHPRFile files st)
        = (if Upload2.shouldAppend st then Upload2.stems st else [])
          ++ flat_map (stemsOfFile parseHPRFile) files)
  /\ (forall files,
        Upload2.shouldAppend (V2.handleFileUpload File parseHPRFile files st) = false).
Proof.
  intros Hreach.
  assert (Hc : consistent2 st).
  { induction Hreach as [|st files _ IH|st files _ IH|st _ _|st _ IH].
    - split; [discriminate|reflexivity].
    - apply setShouldAppend_consistent, V2_processFiles_consistent, IH.
    - unfold V2.handleFileDrop. cbn zeta. destruct (isNil _); [exact IH|].
      apply setShouldAppend_consistent, V2_processFiles_consistent, IH.
    - split; [discriminate|reflexivity].
    - destruct IH as [_ H2]. split; [discriminate|exact H2]. }
  split; [exact Hc|]. split; [|split; [|split]].
  - intros Happ. destruct (Upload2.hasUploaded st) eqn:Hup; [|reflexivity].
    destruct Hc as [H1 _]. destruct (H1 Hup) as [_ H]. congruence.
  - intros files Hnone. unfold V2.handleFileDrop. cbn zeta.
    rewrite filter_none by exact Hnone. reflexivity.
  - intros files Hne. unfold V2.handleFileUpload, V2.setShouldAppend. cbn [Upload2.stems].
    rewrite V2_processFiles_stems by assumption. reflexivity.
  - intros files. reflexivity.
Qed.

Lemma upload_state_consistent_v2_witness :
  let st := V2.handleFileUpload unit oneSpruce [tt]
              (V2.handleAddMoreFiles
                 (V2.handleFileUpload unit oneSpruce [tt] (Upload2.mk [] 0 noStatus false false))) in
  consistent2 st /\ Upload2.statusInfo st = parsed 2 2.
Proof.
  intros st. split; [|reflexivity].
  apply (upload_state_consistent_v2 oneSpruce (fun _ => "a.hpr"%string)).
  apply reachable2_upload, reachable2_addMore, reachable2_upload, reachable2_initial.
Defined.

(** ** Lines of a pasted text *)

Lemma concat_keep (c : ascii) (lines : list string) :
  lines <> [] ->
  String.concat newline (match lines with
                         | first :: rest => String c first :: rest
                         | [] => [String c EmptyString]
                         end)
  = String c (String.concat newline lines).
Proof.
  destruct lines as [|first [|second rest]]; [congruence|reflexivity..].
Qed.

(** A text has at least one line. *)
Lemma splitLines_cons (s : string) : exists first rest, splitLines s = first :: rest.
Proof.
  destruct s as [|c r]; cbn [splitLines]; [eauto|].
  destruct (Ascii.eqb c "010"); [eauto|].
  assert (Hkeep : exists first rest,
             match splitLines r with
             | first :: rest => String c first :: rest
             | [] => [String c EmptyString]
             end = first :: rest) by (destruct (splitLines r); eauto).
  destruct (Ascii.eqb c "013"); [|exact Hkeep].
  destruct r as [|c' r']; [exact Hkeep|]. destruct (Ascii.eqb c' "010"); [eauto|exact Hkeep].
Qed.

Lemma concat_newline_cons (lines : list string) :
  lines <> [] ->
  String.concat newline (EmptyString :: lines) = String "010" (String.concat newline lines).
Proof. destruct lines as [|first rest]; [congruence|reflexivity]. Qed.

Lemma splitLines_nonempty (s : string) : splitLines s <> [].
Proof. destruct (splitLines_cons s) as (first & rest & ->). discriminate. Qed.

(** X24.  Splitting a pasted text into lines loses only the line ends:
    joining the lines with LF gives the text with every CR LF pair replaced
    by LF; no line contains a LF; there is one line more than there are
    LFs. *)
Theorem splitLines_loses_only_line_ends (s : string) :
  String.concat newline (splitLines s) = crlfToLf s
  /\ (forall line, line ∈ splitLines s -> "010"%char ∉ list_ascii_of_string line)
  /\ length (splitLines s) = S (lineFeeds s).
Proof.
  remember (String.length s) as n eqn:Hn. revert s Hn.
  induction n as [n IH] using lt_wf_ind. intros s Hn.
  destruct s as [|c r].
  { split; [reflexivity|]. split; [|reflexivity].
    intros line ->%list_elem_of_singleton. cbn. apply not_elem_of_nil. }
  cbn [String.length] in Hn.
  destruct (IH (String.length r) ltac:(lia) r eq_refl) as (Hr1 & Hr2 & Hr3).
  assert (Hkeep : Ascii.eqb c "010" = false ->
             let lines := match splitLines r with
                          | first :: rest => String c first :: rest
                          | [] => [String c EmptyString]
                          end in
             String.concat newline lines = String c (crlfToLf r)
             /\ (forall line, line ∈ lines -> "010"%char ∉ list_ascii_of_string line)
             /\ length lines = S (lineFeeds r)).
  { intros Hc. cbn zeta. split; [|split].
    - rewrite concat_keep by apply splitLines_nonempty. rewrite Hr1. reflexivity.
    - destruct (splitLines_cons r) as (first & rest & Hs). rewrite Hs in Hr2 |- *.
      intros line [->|Hline]%elem_of_cons.
      + cbn [list_ascii_of_string]. intros [Heq|Hin]%elem_of_cons.
        * subst c. discriminate.
        * apply (Hr2 first); [left|exact Hin].
      + apply Hr2. right. exact Hline.
    - destruct (splitLines_cons r) as (first & rest & Hs). rewrite Hs in Hr3 |- *.
      exact Hr3. }
  assert (Hfeeds : Ascii.eqb c "010" = false -> lineFeeds (String c r) = lineFeeds r).
  { intros Hc. unfold lineFeeds. cbn [list_ascii_of_string List.filter].
    rewrite Ascii.eqb_sym, Hc. reflexivity. }
  cbn [splitLines]. destruct (Ascii.eqb c "010") eqn:Hlf.
  - apply Ascii.eqb_eq in Hlf. subst c. split; [|split].
    + rewrite concat_newline_cons by apply splitLines_nonempty. rewrite Hr1. reflexivity.
    + intros line [->|Hline]%elem_of_cons; [apply not_elem_of_nil|apply Hr2, Hline].
    + cbn [length]. rewrite Hr3. reflexivity.
  - destruct (Hkeep eq_refl) as (K1 & K2 & K3). cbn zeta in *.
    destruct (Ascii.eqb c "013") eqn:Hcr.
    + destruct r as [|c' r'].
      * cbn [crlfToLf]. rewrite Hcr. rewrite Hfeeds by reflexivity.
        split; [exact K1|]. split; [exact K2|exact K3].
      * destruct (Ascii.eqb c' "010") eqn:Hlf'.
        -- cbn [String.length] in Hn.
           destruct (IH (String.length r') ltac:(lia) r' eq_refl) as (H1 & H2 & H3).
           apply Ascii.eqb_eq in Hlf'. subst c'. split; [|split].
           ++ rewrite concat_newline_cons by apply splitLines_nonempty.
              rewrite H1. cbn [crlfToLf]. rewrite Hcr. reflexivity.
           ++ intros line [->|Hline]%elem_of_cons; [apply not_elem_of_nil|apply H2, Hline].
           ++ cbn [length]. rewrite H3. rewrite Hfeeds by reflexivity. reflexivity.
        -- rewrite Hfeeds by reflexivity. split; [|split; [exact K2|exact K3]].
           rewrite K1. cbn [crlfToLf]. rewrite Hcr, Hlf'. reflexivity.
    + rewrite Hfeeds by reflexivity. split; [|split; [exact K2|exact K3]].
      rewrite K1. cbn [crlfToLf]. rewrite Hcr. reflexivity.
Qed.

(** ** Numeric tokens *)














(** ** Totals and the order of the dataset *)

(** The lookup returns 0 or the price of an entry of the table. *)
Lemma getLegacyPriceForVolume_cases (legacyPrices : list LegacyPriceEntry) (volume : option Q) :
  getLegacyPriceForVolume legacyPrices volume = 0%Q
  \/ exists entry, entry ∈ legacyPrices
                   /\ getLegacyPriceForVolume legacyPrices volume = price entry.
Proof.
  unfold getLegacyPriceForVolume. destruct volume as [v|]; [|left; reflexivity].
  destruct (Qeq_bool v 0 || Qle_bool v 0); [left; reflexivity|].
  destruct (nearestEntry legacyPrices v) as [nearest|] eqn:Hn; [|left; reflexivity].
  right. exists nearest. split; [|reflexivity].
  unfold nearestEntry in Hn. destruct legacyPrices as [|first rest]; [discriminate|].
  remember (first, Qabs (averageVolume first - v)) as acc0 eqn:Hacc.
  injection Hn as <-.
  assert (G : forall l acc, (fold_left (nearerEntry v) l acc).1 = acc.1
                            \/ (fold_left (nearerEntry v) l acc).1 ∈ l).
  { induction l as [|e l IH]; intros acc; [left; reflexivity|]. cbn [fold_left].
    destruct (IH (nearerEntry v acc e)) as [H|H]; [|right; right; exact H].
    rewrite H. unfold nearerEntry. destruct (Qltb _ _); [right; left|left; reflexivity]. }
  destruct (G rest acc0) as [H|H].
  - rewrite H, Hacc. left.
  - right. exact H.
Qed.

(** X26.  The legacy lookup returns 0 for an absent volume, a volume
    that is not strictly positive, or an empty table; in every case its
    result is 0 or the price of an entry of the table, so it is not negative
    when no price of the table is. *)
Theorem legacy_lookup_edges (legacyPrices : list LegacyPriceEntry) (volume : option Q) :
  getLegacyPriceForVolume legacyPrices None = 0%Q
  /\ getLegacyPriceForVolume [] volume = 0%Q
  /\ (forall v, (v <= 0)%Q -> getLegacyPriceForVolume legacyPrices (Some v) = 0%Q)
  /\ (getLegacyPriceForVolume legacyPrices volume = 0%Q
      \/ exists entry, entry ∈ legacyPrices
                       /\ getLegacyPriceForVolume legacyPrices volume = price entry)
  /\ ((forall entry, entry ∈ legacyPrices -> (0 <= price entry)%Q) ->
      (0 <= getLegacyPriceForVolume legacyPrices volume)%Q).
Proof.
  split; [reflexivity|]. split.
  { destruct volume as [v|]; [|reflexivity]. cbn. destruct (_ || _); reflexivity. }
  split.
  { intros v Hv. unfold getLegacyPriceForVolume.
    rewrite (proj2 (Qle_bool_iff v 0) Hv), orb_true_r. reflexivity. }
  split; [apply getLegacyPriceForVolume_cases|].
  intros Hpos. destruct (getLegacyPriceForVolume_cases legacyPrices volume)
    as [->|(entry & Hin & ->)]; [apply Qle_refl|apply Hpos, Hin].
Qed.



(** X28.  The forwarding cost per cubic metre is one figure for the
    whole run: every row carries it, the totals carry it, and the total cost
    of a row is its harvesting cost plus the forwarding cost minus its
    price.  When the stand removal is not strictly positive the division is
    not made: the cost is the skidding term alone and the square root is
    not consulted. *)
Theorem forwarding_cost_shared (sqrt : Q -> Q) (params : CalculationParams)
    (speciesDivisors : SpeciesDivisors) (legacyPrices : list LegacyPriceEntry)
    (stems : list Stem) :
  ((standRemovalUT params <= 0)%Q ->
   (forwardingCost sqrt params == skiddingDistanceSA params / 100 * 4)%Q
   /\ forall sqrt' : Q -> Q, forwardingCost sqrt' params = forwardingCost sqrt params)
  /\ (forall row,
        row ∈ producedRows sqrt params speciesDivisors legacyPrices stems ->
        ResultRow.forwardingCostPerCubicMeter row = forwardingCost sqrt params
        /\ (ResultRow.totalCost row
            == ResultRow.harvestingCost row + forwardingCost sqrt params
               - ResultRow.pricePerCubicMeter row)%Q)
  /\ (forall out,
        calculateResults sqrt params speciesDivisors legacyPrices stems = Some out ->
        NewTotals.forwardingCostPerCubicMeter (CalculationOutput.newTotals out)
        = forwardingCost sqrt params
        /\ (NewTotals.totalForwardingCost (CalculationOutput.newTotals out)
            == forwardingCost sqrt params
               * NewTotals.totalVolume (CalculationOutput.newTotals out))%Q).
Proof.
  split; [|split].
  - intros HUT. unfold forwardingCost, forwardingTimeFactor. cbn zeta.
    rewrite (proj2 (Qltb_ge _ _) HUT). split; [field|]. intros sqrt'. reflexivity.
  - intros row Hrow. apply producedRows_inv in Hrow as (sp & c & b & _ & ->).
    cbn [rowOf ResultRow.forwardingCostPerCubicMeter ResultRow.totalCost
         ResultRow.harvestingCost ResultRow.pricePerCubicMeter].
    split; reflexivity.
  - intros out Hout. unfold calculateResults in Hout.
    destruct (aggregateBySpeciesAndDbh params stems) as [agg|]; [|discriminate].
    injection Hout as <-. split; reflexivity.
Qed.











(** ** Export *)

Lemma replaceAll_app (c : ascii) (replacement a b : string) :
  replaceAll c replacement (a ++ b)
  = (replaceAll c replacement a ++ replaceAll c replacement b)%string.
Proof.
  induction a as [|d a IH]; [reflexivity|]. rewrite append_cons. cbn [replaceAll].
  destruct (Ascii.eqb d c); rewrite IH; [apply append_assoc|reflexivity].
Qed.

(** A replacement of one character, after a rewriting of the characters,
    is a rewriting of the characters. *)
Lemma replaceAll_flatMap (c : ascii) (replacement : string) (f : ascii -> string)
    (s : string) :
  replaceAll c replacement (flatMapString f s)
  = flatMapString (fun d => replaceAll c replacement (f d)) s.
Proof.
  induction s as [|d s IH]; [reflexivity|]. cbn [flatMapString].
  rewrite replaceAll_app, IH. reflexivity.
Qed.

Lemma flatMapString_ext (f g : ascii -> string) (s : string) :
  (forall c, f c = g c) -> flatMapString f s = flatMapString g s.
Proof.
  intros Hfg. induction s as [|c s IH]; [reflexivity|]. cbn [flatMapString].
  rewrite Hfg, IH. reflexivity.
Qed.

Lemma flatMapString_id (s : string) :
  flatMapString (fun c => String c EmptyString) s = s.
Proof. induction s as [|c s IH]; [reflexivity|]. cbn [flatMapString]. rewrite IH. reflexivity. Qed.

(** The five replacements, one after the other, write each character of
    the text as its entity. *)
Lemma escapeXml_flatMap (value : string) :
  escapeXml value = flatMapString entityOf value.
Proof.
  unfold escapeXml. rewrite <- (flatMapString_id value) at 1.
  rewrite !replaceAll_flatMap. apply flatMapString_ext.
  intros c. destruct c as [[] [] [] [] [] [] [] []]; reflexivity.
Qed.

Lemma entityOf_cases (c : ascii) :
  (c = "&"%char /\ entityOf c = "&amp;"%string)
  \/ (c = "<"%char /\ entityOf c = "&lt;"%string)
  \/ (c = ">"%char /\ entityOf c = "&gt;"%string)
  \/ (c = "034"%char /\ entityOf c = "&quot;"%string)
  \/ (c = "'"%char /\ entityOf c = "&apos;"%string)
  \/ (c <> "&"%char /\ c <> "<"%char /\ c <> ">"%char /\ c <> "034"%char /\ c <> "'"%char
      /\ entityOf c = String c EmptyString).
Proof.
  destruct c as [[] [] [] [] [] [] [] []]; cbn;
    first [ left; split; reflexivity
          | right; left; split; reflexivity
          | right; right; left; split; reflexivity
          | right; right; right; left; split; reflexivity
          | right; right; right; right; left; split; reflexivity
          | right; right; right; right; right; repeat split; discriminate ].
Qed.

(** No entity starts another: what follows an entity is determined. *)
Lemma entityOf_prefix_free (c c' : ascii) (x y : string) :
  (entityOf c ++ x)%string = (entityOf c' ++ y)%string -> c = c' /\ x = y.
Proof.
  destruct (entityOf_cases c) as [[-> ->]|[[-> ->]|[[-> ->]|[[-> ->]|[[-> ->]|H]]]]],
           (entityOf_cases c') as [[-> ->]|[[-> ->]|[[-> ->]|[[-> ->]|[[-> ->]|H']]]]];
    try (intros [=]; subst; split; reflexivity);
    try (destruct H as (? & ? & ? & ? & ? & ->));
    try (destruct H' as (? & ? & ? & ? & ? & ->));
    rewrite ?append_cons; change (EmptyString ++ ?z)%string with z;
    intros [=]; subst; try congruence; split; reflexivity.
Qed.

(** X30.  [escapeXml] of the export writes every character as its XML
    form: the five characters of the markup as their entities, every other
    character as itself.  Its output holds no angle bracket and no quote;
    two texts that escape to the same text are the same text; a text
    without any of the five characters is left as it is. *)
Theorem escapeXml_is_clean_and_reversible (value value' : string) :
  escapeXml value = flatMapString entityOf value
  /\ (forall c, c ∈ list_ascii_of_string (escapeXml value) ->
        c <> "<"%char /\ c <> ">"%char /\ c <> "034"%char /\ c <> "'"%char)
  /\ (escapeXml value = escapeXml value' -> value = value')
  /\ ((forall c, c ∈ list_ascii_of_string value ->
         c <> "&"%char /\ c <> "<"%char /\ c <> ">"%char /\ c <> "034"%char /\ c <> "'"%char) ->
      escapeXml value = value).
Proof.
  rewrite !escapeXml_flatMap. split; [reflexivity|]. split; [|split].
  - induction value as [|d value IH]; [intros c Hc; inversion Hc|].
    cbn [flatMapString]. intros c Hc.
    assert (Hsplit : c ∈ list_ascii_of_string (entityOf d)
                     \/ c ∈ list_ascii_of_string (flatMapString entityOf value)).
    { revert Hc. generalize (entityOf d) as e. intros e.
      induction e as [|x e IHe]; [right; assumption|].
      rewrite append_cons. cbn [list_ascii_of_string].
      intros [->|Hc]%elem_of_cons; [left; left|].
      destruct (IHe Hc) as [H|H]; [left; right; exact H|right; exact H]. }
    destruct Hsplit as [Hd|Hv]; [|exact (IH c Hv)].
    destruct (entityOf_cases d) as [[-> He]|[[-> He]|[[-> He]|[[-> He]|[[-> He]|He]]]]];
      try (rewrite He in Hd; cbn in Hd;
           repeat (apply elem_of_cons in Hd as [->|Hd]; [repeat split; discriminate|]);
           inversion Hd).
    destruct He as (H1 & H2 & H3 & H4 & H5 & He). rewrite He in Hd. cbn in Hd.
    apply elem_of_cons in Hd as [->|Hd]; [auto|inversion Hd].
  - revert value'. induction value as [|d value IH]; intros [|d' value'].
    + reflexivity.
    + cbn [flatMapString]. intros H. exfalso.
      destruct (entityOf_cases d') as [[_ He]|[[_ He]|[[_ He]|[[_ He]|[[_ He]|He]]]]];
        try (destruct He as (_ & _ & _ & _ & _ & He)); rewrite He in H; discriminate.
    + cbn [flatMapString]. intros H. exfalso.
      destruct (entityOf_cases d) as [[_ He]|[[_ He]|[[_ He]|[[_ He]|[[_ He]|He]]]]];
        try (destruct He as (_ & _ & _ & _ & _ & He)); rewrite He in H; discriminate.
    + cbn [flatMapString]. intros H. apply entityOf_prefix_free in H as [-> H].
      rewrite (IH _ H). reflexivity.
  - intros Hplain. rewrite <- (flatMapString_id value) at 2. 
    induction value as [|d value IH]; [reflexivity|]. cbn [flatMapString].
    rewrite IH by (intros c Hc; apply Hplain; right; exact Hc).
    destruct (entityOf_cases d) as [[-> _]|[[-> _]|[[-> _]|[[-> _]|[[-> _]|He]]]]];
      try (exfalso; destruct (Hplain _ ltac:(left)) as (? & ? & ? & ? & ?); congruence).
    destruct He as (_ & _ & _ & _ & _ & ->). reflexivity.
Qed.
